(** * Coordination and broadcast engine of [coordinators.py]

  A shallow embedding of the worker-pool coordinators, the lifecycle
  hooks and the [WebSocketsManager] broadcast channel, with the
  properties the specification states about them, followed by further
  properties read off the code: of the channel under interleaving, of
  the bytes of an update, of one task from start to end, of the pools
  and the request handlers, and of the settings that
  [server-worker/__init__.py] applies to the interpreter.

  Python code that mutates objects and may raise is written in a
  state-and-exception monad over an explicit world; code that runs on
  several threads is given an interleaving step relation whose steps
  are the statements between two scheduling points. *)

From stdpp Require Import gmap strings list fin_maps pretty.

Set Warnings "-clear-no-such-hyp".

Open Scope string_scope.
Open Scope list_scope.
Open Scope nat_scope.

(** ** Exceptions and the state-and-exception monad *)

(** Keys of the dictionaries and sets of the code: strings (task ids) and
  objects hashed by identity (websockets).

  The exceptions the modelled code raises or catches.  [Exception tr]
  stands for any [Exception] raised by an external collaborator; [tr]
  is the text [traceback.format_exc()] produces for it. *)
Inductive pykey : Type :=
| StrKey (s : string)
| ObjKey (id : nat).

Inductive exn : Type :=
| KeyError (key : pykey)
| HTTPException (status_code : nat) (detail : string)
| WebSocketDisconnect
| RuntimeError
| ValueError (msg : string)
| UnboundLocalError (name : string)
| Exception (tr : string).

Inductive res (A : Type) : Type :=
| Ok (a : A)
| Raise (e : exn).
Arguments Ok {A} a.
Arguments Raise {A} e.

(** A computation reads and updates a world [W]; the world it leaves
  behind is kept also when it raises (side effects are not undone). *)
Definition M (W A : Type) : Type := W → res A * W.

Section Monad.
Context {W : Type}.

Definition ret {A} (a : A) : M W A := λ w, (Ok a, w).

Definition raise {A} (e : exn) : M W A := λ w, (Raise e, w).

Definition bind {A B} (c : M W A) (k : A → M W B) : M W B :=
  λ w, match c w with
       | (Ok a, w') => k a w'
       | (Raise e, w') => (Raise e, w')
       end.

Definition gets {A} (f : W → A) : M W A := λ w, (Ok (f w), w).

Definition modify (f : W → W) : M W unit := λ w, (Ok tt, f w).

(** [try: c except <the exceptions h selects>: h e] *)
Definition try_except {A} (c : M W A) (h : exn → option (M W A)) : M W A :=
  λ w, match c w with
       | (Ok a, w') => (Ok a, w')
       | (Raise e, w') =>
           match h e with
           | Some k => k w'
           | None => (Raise e, w')
           end
       end.

(** [for x in l: body(x)]; an exception leaves the loop. *)
Fixpoint for_each {A} (body : A → M W unit) (l : list A) : M W unit :=
  match l with
  | [] => ret tt
  | x :: l' => bind (body x) (λ _, for_each body l')
  end.
End Monad.

Notation "'let!' x ':=' c1 'in' c2" := (bind c1 (λ x, c2))
(at level 10, x name, c1 at level 100, c2 at level 200,
 format "'[v' 'let!'  x  :=  c1  'in'  '/' c2 ']'").
Notation "c1 >>> c2" := (bind c1 (λ _, c2))
(at level 100, c2 at level 200, right associativity,
 format "'[v' c1  >>>  '/' c2 ']'").

(** ** Lifecycle hooks: [TaskLifecycle] *)

Module Lifecycle.
Section Lifecycle.
Context {W Args Result : Type}.

Record TaskLifecycle : Type := {
  _start_fns : list (M W unit);
  _done_fns : list (Result → M W unit)
}.

(** [TaskLifecycle.__init__] *)
Definition init : TaskLifecycle :=
  {| _start_fns := []; _done_fns := [] |}.

(** [self._start_fns.append(fn)] *)
Definition add_start_fn (fn : M W unit) (self : TaskLifecycle) : TaskLifecycle :=
  {| _start_fns := _start_fns self ++ [fn]; _done_fns := _done_fns self |}.

(** [self._done_fns.append(fn)] *)
Definition add_done_fn (fn : Result → M W unit) (self : TaskLifecycle) : TaskLifecycle :=
  {| _start_fns := _start_fns self; _done_fns := _done_fns self ++ [fn] |}.

(** [wrapped_fn], the closure [wrap] returns.  It reads the two lists
    of [self] when it is invoked. *)
Definition wrap (self : TaskLifecycle) (fn : Args → M W Result) : Args → M W Result :=
  λ args,
    for_each (λ sfn, sfn) (_start_fns self) >>>
    let! result := fn args in
    for_each (λ dfn, dfn result) (_done_fns self) >>>
    ret result.

(** A registration script: the calls made on a fresh lifecycle, in
    program order. *)
Inductive registration : Type :=
  | RegStart (fn : M W unit)
  | RegDone (fn : Result → M W unit).

Definition register (self : TaskLifecycle) (r : registration) : TaskLifecycle :=
  match r with
  | RegStart fn => add_start_fn fn self
  | RegDone fn => add_done_fn fn self
  end.

Definition registered (script : list registration) : TaskLifecycle :=
  foldl register init script.

Definition start_fns_of (script : list registration) : list (M W unit) :=
  omap (λ r, match r with RegStart fn => Some fn | RegDone _ => None end) script.

Definition done_fns_of (script : list registration) : list (Result → M W unit) :=
  omap (λ r, match r with RegDone fn => Some fn | RegStart _ => None end) script.

(** What the specification asks of a hook list: the callbacks run one
    after the other, each returning normally, the first on [w] and the
    last leaving [w']. *)
Inductive runs_in_order : list (M W unit) → W → W → Prop :=
  | runs_nil w : runs_in_order [] w w
  | runs_cons c cs w w1 w2 :
      c w = (Ok tt, w1) →
      runs_in_order cs w1 w2 →
      runs_in_order (c :: cs) w w2.
End Lifecycle.
Arguments TaskLifecycle : clear implicits.
End Lifecycle.

(** ** The broadcast channel: [WebSocketsManager] *)

(** [bytes] values are strings of 8-bit characters.  A [WebSocket] and an
  [asyncio.Event] are objects; the model names them by their identity. *)
Definition bytes : Type := string.
Definition websocket : Type := nat.
Definition event : Type := nat.

Module Channel.

(** The fields of a [WebSocketsManager] other than [_lock] (the lock is
    part of the interleaving semantics of module [Locking]). *)
Record WebSocketsManager : Type := {
  _history : list bytes;
  _websockets : gset websocket;
  _disconnect_events : gmap websocket event;
  _is_closed : bool
}.

(** What a channel touches outside itself: for each websocket the
    chunks its peer was sent so far, the websockets whose connection
    is gone, and the flag of each [asyncio.Event] created so far. *)
Record Net : Type := {
  inbox : gmap websocket (list bytes);
  dead : gset websocket;
  events : gmap event bool
}.

Record World : Type := { self : WebSocketsManager; net : Net }.

(** [WebSocketsManager.__init__] *)
Definition init : WebSocketsManager :=
  {| _history := []; _websockets := ∅; _disconnect_events := ∅;
     _is_closed := false |}.

Definition received (n : Net) (ws : websocket) : list bytes :=
  default [] (inbox n !! ws).

Definition is_set (n : Net) (e : event) : bool :=
  default false (events n !! e).

Definition set_history h (c : WebSocketsManager) : WebSocketsManager :=
  {| _history := h; _websockets := _websockets c;
     _disconnect_events := _disconnect_events c; _is_closed := _is_closed c |}.
Definition set_websockets s (c : WebSocketsManager) : WebSocketsManager :=
  {| _history := _history c; _websockets := s;
     _disconnect_events := _disconnect_events c; _is_closed := _is_closed c |}.
Definition set_disconnect_events d (c : WebSocketsManager) : WebSocketsManager :=
  {| _history := _history c; _websockets := _websockets c;
     _disconnect_events := d; _is_closed := _is_closed c |}.
Definition set_is_closed b (c : WebSocketsManager) : WebSocketsManager :=
  {| _history := _history c; _websockets := _websockets c;
     _disconnect_events := _disconnect_events c; _is_closed := b |}.

Definition on_self (f : WebSocketsManager → WebSocketsManager) : M World unit :=
  modify (λ w, {| self := f (self w); net := net w |}).
Definition on_net (f : Net → Net) : M World unit :=
  modify (λ w, {| self := self w; net := f (net w) |}).

(** The peer of [ws] is sent one more chunk. *)
Definition deliver (ws : websocket) (b : bytes) (n : Net) : Net :=
  {| inbox := <[ws := received n ws ++ [b]]> (inbox n);
     dead := dead n; events := events n |}.

(** The flag of the event [e] becomes [v]. *)
Definition set_event (e : event) (v : bool) (n : Net) : Net :=
  {| inbox := inbox n; dead := dead n; events := <[e := v]> (events n) |}.

(** [ws.send_bytes(b)] of the websocket library: the chunk reaches the
    peer, or the call raises because the connection is gone. *)
Definition send_bytes (ws : websocket) (b : bytes) : M World unit :=
  let! n := gets net in
  if decide (ws ∈ dead n) then raise WebSocketDisconnect
  else on_net (deliver ws b).

(** [asyncio.Event()]: a new event object, not set. *)
Definition new_event : M World event :=
  let! n := gets net in
  let e := fresh (dom (events n)) in
  on_net (set_event e false) >>>
  ret e.

(** [e.set()] *)
Definition event_set (e : event) : M World unit :=
  on_net (set_event e true).

(** [self._disconnect_events[ws]] *)
Definition disconnect_event (ws : websocket) : M World event :=
  let! c := gets self in
  match _disconnect_events c !! ws with
  | Some e => ret e
  | None => raise (KeyError (ObjKey ws))
  end.

Definition _is_connected (ws : websocket) : M World bool :=
  let! c := gets self in ret (bool_decide (ws ∈ _websockets c)).

Definition _send_bytes_to (ws : websocket) (b : bytes) : M World bool :=
  try_except (send_bytes ws b >>> ret false)
    (λ e, match e with
          | WebSocketDisconnect | RuntimeError => Some (ret true)
          | _ => None
          end).

(** Lines 197-198 of [add]. *)
Definition add_register (ws : websocket) : M World unit :=
  on_self (λ c, set_websockets ({[ws]} ∪ _websockets c) c) >>>
  let! e := new_event in
  on_self (λ c, set_disconnect_events (<[ws := e]> (_disconnect_events c)) c).

(** Lines 199-200 of [add]. *)
Definition add_replay (ws : websocket) : M World unit :=
  let! c := gets self in
  for_each (λ bs, _send_bytes_to ws bs >>> ret tt) (_history c).

(** The body of [add], run in the critical section of [self._lock]. *)
Definition add (ws : websocket) : M World unit :=
  add_register ws >>> add_replay ws.

Definition _remove (ws : websocket) : M World unit :=
  let! c := gets self in
  (if decide (ws ∈ _websockets c)
   then on_self (λ c, set_websockets (_websockets c ∖ {[ws]}) c)
   else raise (KeyError (ObjKey ws))) >>>
  let! e := disconnect_event ws in
  event_set e >>>
  on_self (λ c, set_disconnect_events (delete ws (_disconnect_events c)) c).

Definition is_closed : M World bool := gets (λ w, _is_closed (self w)).

(** Lines 215-216 of [close]. *)
Definition close_signal : M World unit :=
  let! c := gets self in
  for_each (λ ws, let! e := disconnect_event ws in event_set e)
    (elements (_websockets c)).

(** Lines 217-218 of [close]. *)
Definition close_mark : M World unit :=
  on_self (set_is_closed true) >>>
  on_self (set_websockets ∅).

(** The body of [close], run in the critical section. *)
Definition close : M World unit := close_signal >>> close_mark.

(** What awaiting [e.wait()] does: return at once when the event is
    set, suspend the coroutine until it is set otherwise. *)
Inductive awaited : Type :=
  | Returns
  | Suspends (e : event).

Definition wait_until_disconnect (ws : websocket) : M World awaited :=
  let! e := disconnect_event ws in
  let! n := gets net in
  ret (if is_set n e then Returns else Suspends e).

(** Line 225 of [write]. *)
Definition write_append (bs : bytes) : M World unit :=
  on_self (λ c, set_history (_history c ++ [bs]) c).

(** The loop of lines 232-235, [to_remove] being its accumulator. *)
Fixpoint write_fan_out (bs : bytes) (l : list websocket) (to_remove : gset websocket)
    : M World (gset websocket) :=
  match l with
  | [] => ret to_remove
  | ws :: l' =>
      let! should_remove := _send_bytes_to ws bs in
      write_fan_out bs l' (if should_remove : bool then {[ws]} ∪ to_remove else to_remove)
  end.

(** Lines 227-237 of [write]. *)
Definition write_broadcast (bs : bytes) : M World unit :=
  let! c := gets self in
  if decide (size (_websockets c) = 0) then ret tt
  else
    let! to_remove := write_fan_out bs (elements (_websockets c)) ∅ in
    for_each _remove (elements to_remove).

(** The body of [write], run in the critical section. *)
Definition write (bs : bytes) : M World unit :=
  write_append bs >>> write_broadcast bs.

(** The connection of [ws] goes away (an event of the environment). *)
Definition drop_connection (ws : websocket) (n : Net) : Net :=
  {| inbox := inbox n; dead := {[ws]} ∪ dead n; events := events n |}.

Definition disconnect (ws : websocket) : M World unit :=
  on_net (drop_connection ws).

(** *** Closed forms of the loops, used to state their effect *)

(** The inboxes after the replay loop of [add] on a live connection. *)
Definition deliver_all (ws : websocket) (h : list bytes) (n : Net) : Net :=
  foldl (λ n b, deliver ws b n) n h.

(** The inboxes after the fan-out loop of [write] over [l]. *)
Definition fan_out_net (bs : bytes) (l : list websocket) (n : Net) : Net :=
  foldl (λ n ws, if decide (ws ∈ dead n) then n else deliver ws bs n) n l.

(** The world after a call of [_remove] that does not raise. *)
Definition removed (ws : websocket) (w : World) : World :=
  {| self := set_disconnect_events (delete ws (_disconnect_events (self w)))
               (set_websockets (_websockets (self w) ∖ {[ws]}) (self w));
     net := match _disconnect_events (self w) !! ws with
            | Some e => set_event e true (net w)
            | None => net w
            end |}.

(** The events after the loop of [close] over [l]. *)
Definition signalled (c : WebSocketsManager) (l : list websocket) (n : Net) : Net :=
  foldl (λ n ws, match _disconnect_events c !! ws with
                 | Some e => set_event e true n
                 | None => n
                 end) n l.

(** The invariant of a channel's fields: every attached websocket has
    an entry in [_disconnect_events]. *)
Definition chan_inv (c : WebSocketsManager) : Prop :=
  ∀ ws, ws ∈ _websockets c → is_Some (_disconnect_events c !! ws).

End Channel.

(** ** The channel's lock: threads interleaving on one channel *)

(** Every public method of the channel is [with self._lock: <body>].  A
    thread is modelled by the statements it still has to run inside the
    critical section it is in ([cur], empty outside one) and the calls
    it still has to make ([todo]).  A step of the system is one thread
    acquiring the free lock, or running its next statement, or leaving
    the critical section; or the environment dropping a connection.
    Statements do not consult the lock: that critical sections do not
    overlap is a theorem about [step], not part of its definition.

    A pool thread that calls [asyncio.run(manager.write(b))] and a
    coroutine of the server that awaits [manager.add(ws)] are both
    threads of this model.  The model says what the calls do to the
    channel in whatever order they are scheduled; it does not say that
    a call which waits for the lock is ever scheduled. *)
Module Locking.
Import Channel.

Inductive instr : Type :=
| Register (ws : websocket)
| Replay (ws : websocket)
| Append (bs : bytes)
| Broadcast (bs : bytes)
| Signal
| Mark
| Release.

Inductive op : Type :=
| Add (ws : websocket)
| Write (bs : bytes)
| Close.

#[global] Instance instr_eq_dec : EqDecision instr.
Proof. solve_decision. Defined.

#[global] Instance op_eq_dec : EqDecision op.
Proof. solve_decision. Defined.

(** The statements of a method after it acquired the lock. *)
Definition body (o : op) : list instr :=
  match o with
  | Add ws => [Register ws; Replay ws; Release]
  | Write bs => [Append bs; Broadcast bs; Release]
  | Close => [Signal; Mark; Release]
  end.

(** The method a call stands for. *)
Definition method (o : op) : M World unit :=
  match o with
  | Add ws => add ws
  | Write bs => write bs
  | Close => close
  end.

Definition exec (i : instr) : M World unit :=
  match i with
  | Register ws => add_register ws
  | Replay ws => add_replay ws
  | Append bs => write_append bs
  | Broadcast bs => write_broadcast bs
  | Signal => close_signal
  | Mark => close_mark
  | Release => ret tt
  end.

Record thread : Type := Thread { cur : list instr; todo : list op }.

Record config : Type := Config {
  world : World;
  lock : option nat;
  threads : list thread
}.

Inductive step : config → config → Prop :=
| step_acquire w ts i o os :
    ts !! i = Some (Thread [] (o :: os)) →
    step (Config w None ts)
         (Config w (Some i) (<[i := Thread (body o) os]> ts))
| step_exec w w' l ts i ins rest os :
    ts !! i = Some (Thread (ins :: rest) os) →
    ins ≠ Release →
    exec ins w = (Ok tt, w') →
    step (Config w l ts) (Config w' l (<[i := Thread rest os]> ts))
| step_raise w w' l ts i ins rest os e :
    ts !! i = Some (Thread (ins :: rest) os) →
    exec ins w = (Raise e, w') →
    step (Config w l ts) (Config w' None (<[i := Thread [] []]> ts))
| step_release w l ts i rest os :
    ts !! i = Some (Thread (Release :: rest) os) →
    step (Config w l ts) (Config w None (<[i := Thread rest os]> ts))
| step_disconnect w w' l ts ws :
    disconnect ws w = (Ok tt, w') →
    step (Config w l ts) (Config w' l ts).

(** The calls [Add s] still to be made or under way, over all threads. *)
Definition adds_of (s : websocket) (t : thread) : nat :=
  length (filter (λ o, o = Add s) (todo t)) +
  (if decide (Register s ∈ cur t) then 1 else 0).

Definition pending_adds (s : websocket) (ts : list thread) : nat :=
  sum_list (adds_of s <$> ts).

(** The statements left in the critical section that is under way. *)
Definition critical (c : config) : list instr :=
  match lock c with
  | Some i => default [] (cur <$> threads c !! i)
  | None => []
  end.

(** *** An executable scheduler *)

(** The next step of thread [i], when it has one. *)
Definition step_thread (i : nat) (c : config) : option config :=
  match threads c !! i with
  | Some (Thread [] (o :: os)) =>
      match lock c with
      | None => Some (Config (world c) (Some i) (<[i := Thread (body o) os]> (threads c)))
      | Some _ => None
      end
  | Some (Thread (Release :: rest) os) =>
      Some (Config (world c) None (<[i := Thread rest os]> (threads c)))
  | Some (Thread (ins :: rest) os) =>
      match exec ins (world c) with
      | (Ok _, w') => Some (Config w' (lock c) (<[i := Thread rest os]> (threads c)))
      | (Raise _, w') => Some (Config w' None (<[i := Thread [] []]> (threads c)))
      end
  | _ => None
  end.

(** The configuration after the threads took steps in the order
    [sched]. *)
Fixpoint run_schedule (sched : list nat) (c : config) : option config :=
  match sched with
  | [] => Some c
  | i :: sched' =>
      match step_thread i c with
      | Some c' => run_schedule sched' c'
      | None => None
      end
  end.

(** *** The invariant of the interleaving semantics *)

(** The statements a thread can have left inside a critical section. *)
Definition section_shape (sec : list instr) : Prop :=
  (∃ ws, sec = [Register ws; Replay ws; Release] ∨ sec = [Replay ws; Release]) ∨
  (∃ bs, sec = [Append bs; Broadcast bs; Release] ∨ sec = [Broadcast bs; Release]) ∨
  sec = [Signal; Mark; Release] ∨ sec = [Mark; Release] ∨ sec = [Release].

(** Only the thread that holds the lock is inside a critical section. *)
Definition threads_ok (c : config) : Prop :=
  (∀ i t, threads c !! i = Some t → cur t ≠ [] → lock c = Some i) ∧
  (∀ i, lock c = Some i → ∃ t, threads c !! i = Some t ∧ section_shape (cur t)).

(** What an attached, live websocket [s] has been sent, given the
    statements [sec] left in the critical section under way. *)
Definition attached_ok (s : websocket) (w : World) (sec : list instr) : Prop :=
  match sec with
  | [Replay s'; Release] =>
      s' = s ∨ received (net w) s = _history (self w)
  | [Broadcast bs; Release] =>
      received (net w) s ++ [bs] = _history (self w)
  | _ => received (net w) s = _history (self w)
  end.

Definition data_ok (s : websocket) (h0 : list bytes) (w : World)
    (sec : list instr) (pend : nat) : Prop :=
  chan_inv (self w) ∧
  pend ≤ 1 ∧
  (pend = 1 → (s ∉ _websockets (self w)) ∧ received (net w) s = []) ∧
  received (net w) s `prefix_of` _history (self w) ∧
  h0 `prefix_of` _history (self w) ∧
  (∀ rest, sec = Replay s :: rest → pend = 0 ∧ received (net w) s = []) ∧
  (pend = 0 → s ∈ _websockets (self w) → s ∉ dead (net w) → attached_ok s w sec).

Definition inv (s : websocket) (h0 : list bytes) (c : config) : Prop :=
  threads_ok c ∧
  data_ok s h0 (world c) (critical c) (pending_adds s (threads c)).
End Locking.

(** ** Tasks, results and the process state *)

(** The keys [id] and [prompt] of a [ZeroShotTask]. *)
Record ZeroShotTask : Type := { zs_id : string; zs_prompt : string }.

(** A message record of the interpreter; the coordinators never look
    inside one. *)
Definition LMC : Type := list (string * string).

Definition ResultStatus : Type := string.

Definition OpenInterpreterCommand : Type := gmap string string.

Record TaskResult : Type := {
  task_id : string;
  command : OpenInterpreterCommand;
  prompt : string;
  start : nat;
  end_ : nat;
  messages : list LMC;
  status : ResultStatus
}.

(** The two methods of a [LoadedTask] the coordinators call. *)
Record LoadedTask : Type := {
  to_zero_shot : ZeroShotTask;
  to_result_status : list LMC → res ResultStatus
}.

(** What a call of [BenchmarkRunner.run] does, as far as its caller can
    tell: it calls the two callbacks it was given, lets time pass, and
    then returns the messages or raises. *)
Inductive action : Type :=
| Write (b : bytes)
| Log (s : string)
| Elapse (d : nat).

Record behaviour : Type := {
  actions : list action;
  outcome : res (list LMC)
}.

Record BenchmarkRunner : Type := {
  run : LoadedTask → OpenInterpreterCommand → behaviour
}.

(** The state of the process: the wall clock, the records handed to
    [logger.debug], the websockets and events, and the objects the served
    coordinator shares between its threads. *)
Record Proc : Type := {
  clock : nat;
  debug_log : list string;
  sockets : Channel.Net;
  updates_manager : Channel.WebSocketsManager;
  task_managers : gmap string Channel.WebSocketsManager;
  task_results : list TaskResult;
  done_event : bool
}.

Definition set_clock t (p : Proc) : Proc :=
  {| clock := t; debug_log := debug_log p; sockets := sockets p;
     updates_manager := updates_manager p; task_managers := task_managers p;
     task_results := task_results p; done_event := done_event p |}.
Definition set_debug_log l (p : Proc) : Proc :=
  {| clock := clock p; debug_log := l; sockets := sockets p;
     updates_manager := updates_manager p; task_managers := task_managers p;
     task_results := task_results p; done_event := done_event p |}.
Definition set_sockets n (p : Proc) : Proc :=
  {| clock := clock p; debug_log := debug_log p; sockets := n;
     updates_manager := updates_manager p; task_managers := task_managers p;
     task_results := task_results p; done_event := done_event p |}.
Definition set_updates_manager m (p : Proc) : Proc :=
  {| clock := clock p; debug_log := debug_log p; sockets := sockets p;
     updates_manager := m; task_managers := task_managers p;
     task_results := task_results p; done_event := done_event p |}.
Definition set_task_managers ms (p : Proc) : Proc :=
  {| clock := clock p; debug_log := debug_log p; sockets := sockets p;
     updates_manager := updates_manager p; task_managers := ms;
     task_results := task_results p; done_event := done_event p |}.
Definition set_task_results rs (p : Proc) : Proc :=
  {| clock := clock p; debug_log := debug_log p; sockets := sockets p;
     updates_manager := updates_manager p; task_managers := task_managers p;
     task_results := rs; done_event := done_event p |}.
Definition set_done_event b (p : Proc) : Proc :=
  {| clock := clock p; debug_log := debug_log p; sockets := sockets p;
     updates_manager := updates_manager p; task_managers := task_managers p;
     task_results := task_results p; done_event := b |}.

(** [datetime.now()] *)
Definition datetime_now : M Proc nat := gets clock.

(** [logger.debug(msg)] *)
Definition logger_debug (msg : string) : M Proc unit :=
  modify (λ p, set_debug_log (debug_log p ++ [msg]) p).

(** [traceback.format_exc()] while [e] is being handled.  An exception of
    a collaborator carries its own text; for the others the text is the
    exception's class name. *)
Definition format_exc (e : exn) : string :=
  match e with
  | Exception tr => tr
  | KeyError _ => "KeyError"
  | HTTPException _ _ => "HTTPException"
  | WebSocketDisconnect => "WebSocketDisconnect"
  | RuntimeError => "RuntimeError"
  | ValueError _ => "ValueError"
  | UnboundLocalError _ => "UnboundLocalError"
  end.

Definition DO_NOTHING {A} : A → M Proc unit := λ _, ret tt.

(** [rnnr.run(lt, cmd, write, log)] *)
Definition runner_run (rnnr : BenchmarkRunner) (lt : LoadedTask)
    (cmd : OpenInterpreterCommand)
    (write : bytes → M Proc unit) (log : string → M Proc unit) : M Proc (list LMC) :=
  for_each (λ a, match a with
                 | Write b => write b
                 | Log s => log s
                 | Elapse d => modify (λ p, set_clock (clock p + d) p)
                 end)
           (actions (run rnnr lt cmd)) >>>
  match outcome (run rnnr lt cmd) with
  | Ok ms => ret ms
  | Raise e => raise e
  end.

Definition run_and_judge (rnnr : BenchmarkRunner) (lt : LoadedTask)
    (cmd : OpenInterpreterCommand)
    (write : bytes → M Proc unit) (log : string → M Proc unit)
    : M Proc (list LMC * ResultStatus) :=
  let! messages := runner_run rnnr lt cmd write log in
  let! status := (λ p, (to_result_status lt messages, p)) in
  ret (messages, status).

(** [cmd["custom_instructions"] += f"\n{extra_ci}"], guarded as in both
    coordinators. *)
Definition add_custom_instructions (extra_ci : option string)
    (cmd : OpenInterpreterCommand) : OpenInterpreterCommand :=
  match extra_ci, cmd !! "custom_instructions" with
  | Some extra, Some ci =>
      <["custom_instructions" := (ci ++ String (Ascii.ascii_of_nat 10) extra)%string]> cmd
  | _, _ => cmd
  end.

(** ** The headless coordinator *)

Module Headless.

(** When the handler of [except Exception] itself raises, [messages] and
    [status] stay unbound; the [return] of the [finally] clause discards
    the exception in flight and raises [UnboundLocalError] on reading
    them.  [bound] is [None] in that case. *)
Definition run_task (lt : LoadedTask) (command : OpenInterpreterCommand)
    (runner : BenchmarkRunner) (log : string → M Proc unit) : M Proc TaskResult :=
  let zstask := to_zero_shot lt in
  let! start := datetime_now in
  let! bound :=
    try_except
      (let! ms := run_and_judge runner lt command DO_NOTHING log in ret (Some ms))
      (λ e, Some (try_except (log (format_exc e) >>> ret (Some ([], "error")))
                             (λ _, Some (ret None)))) in
  let! end_ := datetime_now in
  match bound with
  | Some (messages, status) =>
      ret {| task_id := zs_id zstask; command := command;
             prompt := zs_prompt zstask; start := start; end_ := end_;
             messages := messages; status := status |}
  | None => raise (UnboundLocalError "messages")
  end.

(** The closures [make_fs(id)] returns. *)
Definition start (id : string) : M Proc unit :=
  logger_debug ("  task " ++ id ++ ": RUNNING...")%string.

Definition log (id : string) (s : string) : M Proc unit :=
  logger_debug ("  task " ++ id ++ " log: " ++ s)%string.

Definition done (id : string) (r : TaskResult) : M Proc unit :=
  logger_debug ("  task " ++ task_id r ++ ": " ++ status r ++ "!")%string.

(** The function and the arguments the main thread submits for one task
    (an element of [apps]). *)
Definition lifecycle (id : string) : Lifecycle.TaskLifecycle Proc TaskResult :=
  Lifecycle.add_done_fn (done id) (Lifecycle.add_start_fn (start id) Lifecycle.init).

Definition app (command : OpenInterpreterCommand) (runner : BenchmarkRunner)
    (lt : LoadedTask) : M Proc TaskResult :=
  Lifecycle.wrap (lifecycle (zs_id (to_zero_shot lt)))
    (λ '(lt, command, runner, log), run_task lt command runner log)
    (lt, command, runner, log (zs_id (to_zero_shot lt))).

(** A future of the pool.  [Collected r] is a finished future, holding
    [r], that [as_completed] has already handed to the main thread. *)
Inductive future : Type :=
| Queued
| Running
| Finished (r : TaskResult)
| Failed (e : exn)
| Collected (r : TaskResult).

Inductive main_thread : Type :=
| Collecting
| Returned (rs : list TaskResult)
| Raised (e : exn).

Record config : Type := Config {
  proc : Proc;
  futures : list future;
  main : main_thread
}.

Definition is_running (f : future) : bool :=
  match f with Running => true | _ => false end.

Definition is_collected (f : future) : bool :=
  match f with Collected _ => true | _ => false end.

(** The state after all tasks were submitted to a pool: the first
    [logger.debug] was made and no worker thread has taken a task yet. *)
Definition submitted (all_tasks : list LoadedTask) (n_threads : nat) (p : Proc) : config :=
  Config
    (set_debug_log
       (debug_log p ++
        [("Running " ++ pretty (length all_tasks) ++ " tasks across " ++
          pretty n_threads ++ " threads...")%string])
       (set_task_results [] p))
    (replicate (length all_tasks) Queued)
    Collecting.

Section Pool.
Variable all_tasks : list LoadedTask.
Variable command : OpenInterpreterCommand.
Variable runner : BenchmarkRunner.
(** The number of threads of the pool, [actual_n_workers]. *)
Variable n_threads : nat.

(** A worker thread takes the oldest queued task when fewer than
    [n_threads] tasks are running; a running task runs its wrapped
    function; the main thread collects any finished future, re-raises
    the exception of a failed one, and returns when none is left. *)
Inductive step : config → config → Prop :=
| step_take p fs m i :
    fs !! i = Some Queued →
    (∀ j, j < i → fs !! j ≠ Some Queued) →
    length (filter (λ f, is_running f = true) fs) < n_threads →
    step (Config p fs m) (Config p (<[i := Running]> fs) m)
| step_run p p' fs m i lt r :
    fs !! i = Some Running →
    all_tasks !! i = Some lt →
    app command runner lt p = (Ok r, p') →
    step (Config p fs m) (Config p' (<[i := Finished r]> fs) m)
| step_fail p p' fs m i lt e :
    fs !! i = Some Running →
    all_tasks !! i = Some lt →
    app command runner lt p = (Raise e, p') →
    step (Config p fs m) (Config p' (<[i := Failed e]> fs) m)
| step_collect p fs i r :
    fs !! i = Some (Finished r) →
    step (Config p fs Collecting)
         (Config (set_task_results (task_results p ++ [r]) p)
                 (<[i := Collected r]> fs) Collecting)
| step_reraise p fs i e :
    fs !! i = Some (Failed e) →
    step (Config p fs Collecting) (Config p fs (Raised e))
| step_return p p' fs :
    Forall (λ f, is_collected f = true) fs →
    logger_debug "Done!" p = (Ok tt, p') →
    step (Config p fs Collecting) (Config p' fs (Returned (task_results p')))
| step_tick p fs m d :
    step (Config p fs m) (Config (set_clock (clock p + d) p) fs m).

End Pool.
End Headless.

(** ** The served coordinator *)

Module Server.

Inductive TaskUpdatePayload : Type :=
| TaskStartedPayload
| TaskDonePayload (status : ResultStatus)
| TaskLogPayload (message : string).

Record TaskUpdate : Type := { update_task_id : string; payload : TaskUpdatePayload }.

(** [json.dumps(j).encode("utf-8")] for the three shapes of update the
    coordinator writes.  [json.dumps] leaves the printable ASCII
    characters other than the quote and the backslash as they are and
    escapes every other character; a character of a model string is a
    code point below 256. *)
Definition quote : string := String (Ascii.ascii_of_nat 34) EmptyString.
Definition backslash : string := String (Ascii.ascii_of_nat 92) EmptyString.

Definition hex_digit (n : nat) : string :=
  String (Ascii.ascii_of_nat (if (n <? 10)%nat then 48 + n else 87 + n)) EmptyString.

Definition json_escape_char (c : Ascii.ascii) : string :=
  let n := Ascii.nat_of_ascii c in
  if (n =? 34)%nat then (backslash ++ quote)%string
  else if (n =? 92)%nat then (backslash ++ backslash)%string
  else if (n =? 8)%nat then (backslash ++ "b")%string
  else if (n =? 12)%nat then (backslash ++ "f")%string
  else if (n =? 10)%nat then (backslash ++ "n")%string
  else if (n =? 13)%nat then (backslash ++ "r")%string
  else if (n =? 9)%nat then (backslash ++ "t")%string
  else if ((32 <=? n) && (n <=? 126))%nat then String c EmptyString
  else (backslash ++ "u00" ++ hex_digit (n / 16) ++ hex_digit (n mod 16))%string.

Fixpoint json_escape (s : string) : string :=
  match s with
  | EmptyString => EmptyString
  | String c s' => (json_escape_char c ++ json_escape s')%string
  end.

Definition json_string (s : string) : string :=
  (quote ++ json_escape s ++ quote)%string.

Definition json_payload (p : TaskUpdatePayload) : string :=
  match p with
  | TaskStartedPayload =>
      "{" ++ json_string "tag" ++ ": " ++ json_string "started" ++ "}"
  | TaskDonePayload st =>
      "{" ++ json_string "tag" ++ ": " ++ json_string "done" ++ ", " ++
      json_string "status" ++ ": " ++ json_string st ++ "}"
  | TaskLogPayload msg =>
      "{" ++ json_string "tag" ++ ": " ++ json_string "log" ++ ", " ++
      json_string "message" ++ ": " ++ json_string msg ++ "}"
  end%string.

Definition json_dumps_utf8 (j : TaskUpdate) : bytes :=
  ("{" ++ json_string "task_id" ++ ": " ++ json_string (update_task_id j) ++ ", " ++
   json_string "payload" ++ ": " ++ json_payload (payload j) ++ "}")%string.

(** A method call on [updates_manager]. *)
Definition on_updates {A} (c : M Channel.World A) : M Proc A :=
  λ p, let '(r, w) := c (Channel.Build_World (updates_manager p) (sockets p)) in
       (r, set_updates_manager (Channel.self w) (set_sockets (Channel.net w) p)).

(** A method call on [task_managers[task_id]]; the subscript raises
    [KeyError] for a key the dictionary does not hold. *)
Definition on_task_manager {A} (task_id : string) (c : M Channel.World A) : M Proc A :=
  λ p, match task_managers p !! task_id with
       | None => (Raise (KeyError (StrKey task_id)), p)
       | Some m =>
           let '(r, w) := c (Channel.Build_World m (sockets p)) in
           (r, set_task_managers (<[task_id := Channel.self w]> (task_managers p))
                 (set_sockets (Channel.net w) p))
       end.

(** [asyncio.run(updates_manager.write_json(j))] *)
Definition write_json (j : TaskUpdate) : M Proc unit :=
  on_updates (Channel.write (json_dumps_utf8 j)).

(** The nested [run_task].  [ws_manager] is the object the main thread
    read from [task_managers[zs["id"]]] when it submitted the task; the
    dictionary is never updated afterwards, so the model reaches the
    object through its key.  On [bound] see [Headless.run_task]. *)
Definition run_task (cmd : OpenInterpreterCommand) (rnnr : BenchmarkRunner)
    (lt : LoadedTask) (zs : ZeroShotTask)
    (log : string → M Proc unit) : M Proc TaskResult :=
  let write := λ b : bytes, on_task_manager (zs_id zs) (Channel.write b) in
  let! start := datetime_now in
  let! bound :=
    try_except
      (let! ms := run_and_judge rnnr lt cmd write log in ret (Some ms))
      (λ e, Some (try_except (log (format_exc e) >>> ret (Some ([], "error")))
                             (λ _, Some (ret None)))) in
  let! end_ := datetime_now in
  match bound with
  | Some (messages, status) =>
      ret {| task_id := zs_id zs; command := cmd; prompt := zs_prompt zs;
             start := start; end_ := end_;
             messages := messages; status := status |}
  | None => raise (UnboundLocalError "messages")
  end.

(** The closures [make_update_fns(id)] returns. *)
Definition start (id : string) : M Proc unit :=
  write_json {| update_task_id := id; payload := TaskStartedPayload |}.

Definition log (id : string) (s : string) : M Proc unit :=
  write_json {| update_task_id := id; payload := TaskLogPayload s |}.

(** The four statements of [done]. *)
Definition done_announce (id : string) (result : TaskResult) : M Proc unit :=
  write_json {| update_task_id := id; payload := TaskDonePayload (status result) |}.

Definition done_record (result : TaskResult) : M Proc unit :=
  modify (λ p, set_task_results (task_results p ++ [result]) p).

Definition done_close (id : string) : M Proc unit :=
  on_task_manager id Channel.close.

Definition done_signal (n_tasks : nat) : M Proc unit :=
  let! rs := gets task_results in
  if decide (n_tasks ≤ length rs) then modify (set_done_event true) else ret tt.

Definition done (n_tasks : nat) (id : string) (result : TaskResult) : M Proc unit :=
  done_announce id result >>>
  done_record result >>>
  done_close id >>>
  done_signal n_tasks.

Definition lifecycle (n_tasks : nat) (id : string) : Lifecycle.TaskLifecycle Proc TaskResult :=
  Lifecycle.add_done_fn (done n_tasks id)
    (Lifecycle.add_start_fn (start id) Lifecycle.init).

(** What the pool runs for one task: the function [tlc.wrap(run_task)]
    applied to the tuple [args]. *)
Definition app (cmd : OpenInterpreterCommand) (rnnr : BenchmarkRunner)
    (n_tasks : nat) (lt : LoadedTask) : M Proc TaskResult :=
  Lifecycle.wrap (lifecycle n_tasks (zs_id (to_zero_shot lt)))
    (λ '(lt, zs, log), run_task cmd rnnr lt zs log)
    (lt, to_zero_shot lt, log (zs_id (to_zero_shot lt))).

(** [zs_map] and [task_managers]: a later task replaces an earlier one
    with the same id. *)
Definition zs_map (all_tasks : list LoadedTask) : gmap string ZeroShotTask :=
  foldl (λ m lt, <[zs_id (to_zero_shot lt) := to_zero_shot lt]> m) ∅ all_tasks.

Definition new_task_managers (all_tasks : list LoadedTask)
    : gmap string Channel.WebSocketsManager :=
  foldl (λ m lt, <[zs_id (to_zero_shot lt) := Channel.init]> m) ∅ all_tasks.

(** *** The request handlers *)

Inductive response : Type :=
| TemplateResponse (name : string) (context : list (string * string))
      (cmd : OpenInterpreterCommand)
| TaskList (name : string) (tasks : list string).

Definition view (all_tasks : list LoadedTask) (cmd : OpenInterpreterCommand)
    (task_id : string) : M Proc response :=
  match zs_map all_tasks !! task_id with
  | None =>
      raise (HTTPException 404
               ("no task with id '" ++ task_id ++ "'!")%string)
  | Some zs =>
      ret (TemplateResponse "logs.html.j2"
             [("task_id", task_id); ("prompt", zs_prompt zs)] cmd)
  end.

(** [websocket.accept()] completes the handshake of that connection; it
    touches nothing the model holds. *)
Definition accept (ws : websocket) : M Proc unit := ret tt.

Definition logs (ws : websocket) (task_id : string) : M Proc Channel.awaited :=
  accept ws >>>
  on_task_manager task_id (Channel.add ws) >>>
  on_task_manager task_id (Channel.wait_until_disconnect ws).

Definition stop (task_id : string) : M Proc bool :=
  on_task_manager task_id Channel.close >>>
  ret true.

Definition full (all_tasks : list LoadedTask) : M Proc response :=
  ret (TaskList "full.html.j2" ((λ lt, zs_id (to_zero_shot lt)) <$> all_tasks)).

Definition updates (ws : websocket) : M Proc Channel.awaited :=
  accept ws >>>
  on_updates (Channel.add ws) >>>
  on_updates (Channel.wait_until_disconnect ws).

(** *** The threads of the coordinator *)

(** Where the pool thread that runs one task's wrapped function stands:
    waiting in the queue, after the start callbacks, after [run_task]
    returned [r], after each of the four statements of [done], or with
    an exception that ended the wrapped function. *)
Inductive worker : Type :=
| Queued
| Started
| Ran (r : TaskResult)
| Announced (r : TaskResult)
| Recorded (r : TaskResult)
| Closed (r : TaskResult)
| Finished (r : TaskResult)
| Failed (e : exn).

(** The main thread: at [done_event.wait()], in the [as_completed] loop,
    before the loop that closes the task channels, before
    [updates_manager.close()], in the [sleep] loop, returned, or left by
    an exception ([KeyboardInterrupt] outside the [try], or the
    exception of a failed future). *)
Inductive main_thread : Type :=
| Waiting
| Joining
| ClosingTasks
| ClosingUpdates
| Serving
| Returned (rs : list TaskResult)
| Aborted.

Record config : Type := Config {
  proc : Proc;
  workers : list worker;
  main : main_thread
}.

Definition is_active (w : worker) : bool :=
  match w with
  | Queued | Finished _ | Failed _ => false
  | _ => true
  end.

Definition is_finished (w : worker) : bool :=
  match w with Finished _ => true | _ => false end.

Definition has_failed (w : worker) : bool :=
  match w with Failed _ => true | _ => false end.

(** [for manager in task_managers.values(): manager.close()] *)
Definition close_task_managers : M Proc unit :=
  let! ms := gets task_managers in
  for_each (λ id, on_task_manager id Channel.close) (elements (dom ms)).

(** The state when the main thread has submitted every task and reaches
    [done_event.wait()]. *)
Definition submitted (all_tasks : list LoadedTask) (p : Proc) : config :=
  Config
    (set_done_event false
       (set_task_results []
          (set_task_managers (new_task_managers all_tasks)
             (set_updates_manager Channel.init p))))
    (replicate (length all_tasks) Queued)
    Waiting.

Section Threads.
Variable all_tasks : list LoadedTask.
Variable cmd : OpenInterpreterCommand.
Variable rnnr : BenchmarkRunner.
(** The number of threads of the pool. *)
Variable n_threads : nat.

Definition id_of (lt : LoadedTask) : string := zs_id (to_zero_shot lt).

(** Steps of the pool threads and of the main thread.  A pool thread
    takes the oldest queued task when fewer than [n_threads] tasks are
    under way. *)
Inductive coordinator_step : config → config → Prop :=
| step_start p p' ws m i lt :
    ws !! i = Some Queued →
    (∀ j, j < i → ws !! j ≠ Some Queued) →
    length (filter (λ w, is_active w = true) ws) < n_threads →
    all_tasks !! i = Some lt →
    start (id_of lt) p = (Ok tt, p') →
    coordinator_step (Config p ws m) (Config p' (<[i := Started]> ws) m)
| step_start_raise p p' ws m i lt e :
    ws !! i = Some Queued →
    (∀ j, j < i → ws !! j ≠ Some Queued) →
    length (filter (λ w, is_active w = true) ws) < n_threads →
    all_tasks !! i = Some lt →
    start (id_of lt) p = (Raise e, p') →
    coordinator_step (Config p ws m) (Config p' (<[i := Failed e]> ws) m)
| step_run p p' ws m i lt r :
    ws !! i = Some Started →
    all_tasks !! i = Some lt →
    run_task cmd rnnr lt (to_zero_shot lt) (log (id_of lt)) p = (Ok r, p') →
    coordinator_step (Config p ws m) (Config p' (<[i := Ran r]> ws) m)
| step_run_raise p p' ws m i lt e :
    ws !! i = Some Started →
    all_tasks !! i = Some lt →
    run_task cmd rnnr lt (to_zero_shot lt) (log (id_of lt)) p = (Raise e, p') →
    coordinator_step (Config p ws m) (Config p' (<[i := Failed e]> ws) m)
| step_announce p p' ws m i lt r :
    ws !! i = Some (Ran r) →
    all_tasks !! i = Some lt →
    done_announce (id_of lt) r p = (Ok tt, p') →
    coordinator_step (Config p ws m) (Config p' (<[i := Announced r]> ws) m)
| step_announce_raise p p' ws m i lt r e :
    ws !! i = Some (Ran r) →
    all_tasks !! i = Some lt →
    done_announce (id_of lt) r p = (Raise e, p') →
    coordinator_step (Config p ws m) (Config p' (<[i := Failed e]> ws) m)
| step_record p p' ws m i r :
    ws !! i = Some (Announced r) →
    done_record r p = (Ok tt, p') →
    coordinator_step (Config p ws m) (Config p' (<[i := Recorded r]> ws) m)
| step_close p p' ws m i lt r :
    ws !! i = Some (Recorded r) →
    all_tasks !! i = Some lt →
    done_close (id_of lt) p = (Ok tt, p') →
    coordinator_step (Config p ws m) (Config p' (<[i := Closed r]> ws) m)
| step_close_raise p p' ws m i lt r e :
    ws !! i = Some (Recorded r) →
    all_tasks !! i = Some lt →
    done_close (id_of lt) p = (Raise e, p') →
    coordinator_step (Config p ws m) (Config p' (<[i := Failed e]> ws) m)
| step_signal p p' ws m i r :
    ws !! i = Some (Closed r) →
    done_signal (length all_tasks) p = (Ok tt, p') →
    coordinator_step (Config p ws m) (Config p' (<[i := Finished r]> ws) m)
| step_wake p ws :
    done_event p = true →
    coordinator_step (Config p ws Waiting) (Config p ws Joining)
| step_join p ws :
    Forall (λ w, is_finished w = true) ws →
    coordinator_step (Config p ws Joining) (Config p ws ClosingTasks)
| step_join_raise p ws :
    Exists (λ w, has_failed w = true) ws →
    coordinator_step (Config p ws Joining) (Config p ws Aborted)
| step_close_tasks p p' ws :
    close_task_managers p = (Ok tt, p') →
    coordinator_step (Config p ws ClosingTasks) (Config p' ws ClosingUpdates)
| step_close_tasks_raise p p' ws e :
    close_task_managers p = (Raise e, p') →
    coordinator_step (Config p ws ClosingTasks) (Config p' ws Aborted)
| step_close_updates p p' p'' ws :
    on_updates Channel.close p = (Ok tt, p') →
    logger_debug "Hold CTRL+C to close the server." p' = (Ok tt, p'') →
    coordinator_step (Config p ws ClosingUpdates) (Config p'' ws Serving)
| step_close_updates_raise p p' ws e :
    on_updates Channel.close p = (Raise e, p') →
    coordinator_step (Config p ws ClosingUpdates) (Config p' ws Aborted)
| step_interrupt_serving p ws :
    coordinator_step (Config p ws Serving) (Config p ws (Returned (task_results p)))
| step_interrupt p ws m :
    m = Waiting ∨ m = Joining ∨ m = ClosingTasks ∨ m = ClosingUpdates →
    coordinator_step (Config p ws m) (Config p ws Aborted).

(** Steps of the observers (the request handlers of the background
    server) and of the environment. *)
Inductive observer_step : config → config → Prop :=
| step_view p p' ws m task_id r :
    view all_tasks cmd task_id p = (r, p') →
    observer_step (Config p ws m) (Config p' ws m)
| step_logs p p' ws m sock task_id r :
    logs sock task_id p = (r, p') →
    observer_step (Config p ws m) (Config p' ws m)
| step_stop p p' ws m task_id r :
    stop task_id p = (r, p') →
    observer_step (Config p ws m) (Config p' ws m)
| step_full p p' ws m r :
    full all_tasks p = (r, p') →
    observer_step (Config p ws m) (Config p' ws m)
| step_updates p p' ws m sock r :
    updates sock p = (r, p') →
    observer_step (Config p ws m) (Config p' ws m)
| step_drop p ws m sock :
    observer_step (Config p ws m)
                  (Config (set_sockets (Channel.drop_connection sock (sockets p)) p) ws m)
| step_tick p ws m d :
    observer_step (Config p ws m) (Config (set_clock (clock p + d) p) ws m).

Definition step (c c' : config) : Prop :=
  coordinator_step c c' ∨ observer_step c c'.

(** *** An executable scheduler *)

Definition is_queued (w : worker) : bool :=
  match w with Queued => true | _ => false end.

(** The thread that takes the next step: the pool thread of task [i],
    the main thread, or a [KeyboardInterrupt] delivered to the main
    thread. *)
Inductive move : Type :=
| Work (i : nat)
| Main
| Interrupt.

Definition worker_moves (i : nat) (c : config) : option config :=
  let p := proc c in
  let ws := workers c in
  let next (w : exn → worker) (ok : worker) (r : res unit * Proc) :=
    match r with
    | (Ok _, p') => Some (Config p' (<[i := ok]> ws) (main c))
    | (Raise e, p') => Some (Config p' (<[i := w e]> ws) (main c))
    end in
  match ws !! i, all_tasks !! i with
  | Some Queued, Some lt =>
      if forallb (λ w, negb (is_queued w)) (take i ws) &&
         bool_decide (length (filter (λ w, is_active w = true) ws) < n_threads)
      then next Failed Started (start (id_of lt) p)
      else None
  | Some Started, Some lt =>
      match run_task cmd rnnr lt (to_zero_shot lt) (log (id_of lt)) p with
      | (Ok r, p') => Some (Config p' (<[i := Ran r]> ws) (main c))
      | (Raise e, p') => Some (Config p' (<[i := Failed e]> ws) (main c))
      end
  | Some (Ran r), Some lt => next Failed (Announced r) (done_announce (id_of lt) r p)
  | Some (Announced r), _ => next Failed (Recorded r) (done_record r p)
  | Some (Recorded r), Some lt => next Failed (Closed r) (done_close (id_of lt) p)
  | Some (Closed r), _ => next Failed (Finished r) (done_signal (length all_tasks) p)
  | _, _ => None
  end.

Definition main_moves (c : config) : option config :=
  let p := proc c in
  let ws := workers c in
  match main c with
  | Waiting => if done_event p then Some (Config p ws Joining) else None
  | Joining =>
      if forallb is_finished ws then Some (Config p ws ClosingTasks)
      else if existsb has_failed ws then Some (Config p ws Aborted)
      else None
  | ClosingTasks =>
      match close_task_managers p with
      | (Ok _, p') => Some (Config p' ws ClosingUpdates)
      | (Raise _, p') => Some (Config p' ws Aborted)
      end
  | ClosingUpdates =>
      match on_updates Channel.close p with
      | (Ok _, p') =>
          Some (Config (snd (logger_debug "Hold CTRL+C to close the server." p'))
                       ws Serving)
      | (Raise _, p') => Some (Config p' ws Aborted)
      end
  | _ => None
  end.

Definition interrupted (c : config) : option config :=
  match main c with
  | Serving => Some (Config (proc c) (workers c) (Returned (task_results (proc c))))
  | Waiting | Joining | ClosingTasks | ClosingUpdates =>
      Some (Config (proc c) (workers c) Aborted)
  | _ => None
  end.

Definition play (mv : move) (c : config) : option config :=
  match mv with
  | Work i => worker_moves i c
  | Main => main_moves c
  | Interrupt => interrupted c
  end.

(** The configuration after the moves [mvs], made in that order. *)
Fixpoint play_all (mvs : list move) (c : config) : option config :=
  match mvs with
  | [] => Some c
  | mv :: mvs' =>
      match play mv c with
      | Some c' => play_all mvs' c'
      | None => None
      end
  end.

End Threads.
End Server.

(** ** Invariants of the process state *)

Module Frame.
Import Channel.
(** A channel call that attaches or writes: it returns, and keeps the
    invariant, the closed flag and the events that are set. *)
Definition quiet (w w' : World) : Prop :=
  chan_inv (self w') ∧
  _is_closed (self w') = _is_closed (self w) ∧
  (∀ e, is_set (net w) e = true → is_set (net w') e = true).

Definition quiet_op {A} (c : M World A) : Prop :=
  ∀ w, chan_inv (self w) → ∃ v w', c w = (Ok v, w') ∧ quiet w w'.

(** Every channel of the process satisfies the channel invariant. *)
Definition chans_ok (p : Proc) : Prop :=
  chan_inv (updates_manager p) ∧
  ∀ id m, task_managers p !! id = Some m → chan_inv m.

(** What the traffic on the channels (attaching, writing, logging) and
    the passing of time leave as they are. *)
Definition traffic (p p' : Proc) : Prop :=
  chans_ok p' ∧
  task_results p' = task_results p ∧
  done_event p' = done_event p ∧
  _is_closed (updates_manager p') = _is_closed (updates_manager p) ∧
  (∀ id, _is_closed <$> task_managers p' !! id = _is_closed <$> task_managers p !! id) ∧
  (∀ e, is_set (sockets p) e = true → is_set (sockets p') e = true).
End Frame.

(** ** Invariants of the served coordinator *)

Module ServerInv.
Import Channel Frame Server.

(** What any step of the process keeps: the channel invariants, and the
    closed flags and events that are set. *)
Definition settle (p p' : Proc) : Prop :=
  chans_ok p' ∧
  (_is_closed (updates_manager p) = true → _is_closed (updates_manager p') = true) ∧
  (∀ id m, task_managers p !! id = Some m →
     ∃ m', task_managers p' !! id = Some m' ∧
           (_is_closed m = true → _is_closed m' = true)) ∧
  (∀ id, task_managers p !! id = None → task_managers p' !! id = None) ∧
  (∀ e, is_set (sockets p) e = true → is_set (sockets p') e = true).

(** The result a worker has appended to [task_results]. *)
Definition recorded (w : worker) : option TaskResult :=
  match w with
  | Recorded r | Closed r | Finished r => Some r
  | _ => None
  end.

(** The result [run_task] returned to a worker. *)
Definition result_of (w : worker) : option TaskResult :=
  match w with
  | Ran r | Announced r | Recorded r | Closed r | Finished r => Some r
  | _ => None
  end.

(** A channel call that may raise but is otherwise like a [quiet_op],
    and a computation of the process made of such calls. *)
Definition calm_op {A} (c : M World A) : Prop :=
  ∀ w, chan_inv (self w) → ∃ r w', c w = (r, w') ∧ quiet w w'.

Definition calm_proc {A} (c : M Proc A) : Prop :=
  ∀ p r p', chans_ok p → c p = (r, p') → traffic p p'.

Definition all_closed (p : Proc) : Prop :=
  ∀ id m, task_managers p !! id = Some m → _is_closed m = true.

Definition main_ok (c : config) : Prop :=
  match main c with
  | Waiting | Joining | Aborted => True
  | ClosingTasks => Forall (λ w, is_finished w = true) (workers c)
  | ClosingUpdates =>
      Forall (λ w, is_finished w = true) (workers c) ∧ all_closed (proc c)
  | Serving =>
      Forall (λ w, is_finished w = true) (workers c) ∧ all_closed (proc c) ∧
      _is_closed (updates_manager (proc c)) = true
  | Returned rs =>
      Forall (λ w, is_finished w = true) (workers c) ∧ all_closed (proc c) ∧
      _is_closed (updates_manager (proc c)) = true ∧
      rs = task_results (proc c)
  end.

(** A step closed the updates channel only from [ClosingUpdates], and
    woke its subscribers. *)
Definition updates_flip (c c' : config) : Prop :=
  _is_closed (updates_manager (proc c)) = false →
  _is_closed (updates_manager (proc c')) = true →
  main c = ClosingUpdates ∧
  (∀ ws e, ws ∈ _websockets (updates_manager (proc c)) →
     _disconnect_events (updates_manager (proc c)) !! ws = Some e →
     is_set (sockets (proc c')) e = true).

(** A step closed the channel of a task only in that task's [done]
    callback, after its result was appended, or from [ClosingTasks]; and
    woke its subscribers. *)
Definition task_flip (all_tasks : list LoadedTask) (c c' : config) : Prop :=
  ∀ id m m',
    task_managers (proc c) !! id = Some m → _is_closed m = false →
    task_managers (proc c') !! id = Some m' → _is_closed m' = true →
    ((∃ i r lt, workers c !! i = Some (Recorded r) ∧ all_tasks !! i = Some lt ∧
                id_of lt = id) ∨
     main c = ClosingTasks) ∧
    (∀ ws e, ws ∈ _websockets m → _disconnect_events m !! ws = Some e →
       is_set (sockets (proc c')) e = true).

Definition inv (all_tasks : list LoadedTask) (c : config) : Prop :=
  chans_ok (proc c) ∧
  (∀ lt, lt ∈ all_tasks → is_Some (task_managers (proc c) !! id_of lt)) ∧
  (∀ id, (∀ lt, lt ∈ all_tasks → id_of lt ≠ id) → task_managers (proc c) !! id = None) ∧
  length (workers c) = length all_tasks ∧
  task_results (proc c) ≡ₚ omap recorded (workers c) ∧
  (∀ i w r lt, workers c !! i = Some w → result_of w = Some r →
     all_tasks !! i = Some lt → task_id r = id_of lt) ∧
  Forall (λ w, has_failed w = false) (workers c) ∧
  (done_event (proc c) = true → length all_tasks ≤ length (task_results (proc c))) ∧
  main_ok c.


(** What is left to do: the statements a worker has not run yet, and
    the stages the main thread has not passed. *)
Definition weight (w : worker) : nat :=
  match w with
  | Queued => 6
  | Started => 5
  | Ran _ => 4
  | Announced _ => 3
  | Recorded _ => 2
  | Closed _ => 1
  | Finished _ | Failed _ => 0
  end.

Definition main_weight (m : main_thread) : nat :=
  match m with
  | Waiting => 5
  | Joining => 4
  | ClosingTasks => 3
  | ClosingUpdates => 2
  | Serving => 1
  | Returned _ | Aborted => 0
  end.

Definition measure (c : config) : nat :=
  sum_list (weight <$> workers c) + main_weight (main c).
End ServerInv.

(** ** Invariants of the headless coordinator *)

Module HeadlessInv.
Import Headless.

(** The result the main thread has appended for a future. *)
Definition collected (f : future) : option TaskResult :=
  match f with
  | Collected r => Some r
  | _ => None
  end.

(** The result a future holds. *)
Definition held (f : future) : option TaskResult :=
  match f with
  | Finished r | Collected r => Some r
  | _ => None
  end.

Definition has_failed (f : future) : bool :=
  match f with Failed _ => true | _ => false end.

Definition is_queued (f : future) : bool :=
  match f with Queued => true | _ => false end.

Definition is_finished (f : future) : bool :=
  match f with Finished _ => true | _ => false end.

Definition inv (all_tasks : list LoadedTask) (c : config) : Prop :=
  length (futures c) = length all_tasks ∧
  task_results (proc c) ≡ₚ omap collected (futures c) ∧
  (∀ i f r lt, futures c !! i = Some f → held f = Some r →
     all_tasks !! i = Some lt → task_id r = Server.id_of lt) ∧
  Forall (λ f, has_failed f = false) (futures c) ∧
  match main c with
  | Collecting => True
  | Returned rs =>
      Forall (λ f, is_collected f = true) (futures c) ∧ rs = task_results (proc c)
  | Raised _ => False
  end.

(** What is left to do: three steps for a queued task, two for a running
    one, one for a finished one, and the return of the main thread. *)
Definition weight (f : future) : nat :=
  match f with
  | Queued => 3
  | Running => 2
  | Finished _ | Failed _ => 1
  | Collected _ => 0
  end.

Definition measure (c : config) : nat :=
  sum_list (weight <$> futures c) +
  match main c with Collecting => 1 | _ => 0 end.
End HeadlessInv.

(** ** Concrete inputs used by the examples *)

Module ChannelExamples.
Import Channel.
Definition empty_net : Net := {| inbox := ∅; dead := ∅; events := ∅ |}.
Definition fresh_world : World := {| self := init; net := empty_net |}.
(** Two writes, then the websockets 1 and 2 attach and the connection of
    2 goes away. *)
Definition one_dead_subscriber : World :=
  snd ((write "a" >>> write "b" >>> add 1 >>> add 2 >>> disconnect 2) fresh_world).
(** A channel with history and one subscriber, closed. *)
Definition closed_world : World :=
  snd ((write "a" >>> add 1 >>> close) fresh_world).
End ChannelExamples.

Module Examples.
Definition fresh_proc : Proc :=
  {| clock := 0; debug_log := []; sockets := ChannelExamples.empty_net;
     updates_manager := Channel.init; task_managers := ∅;
     task_results := []; done_event := false |}.

Definition task (id : string) : LoadedTask :=
  {| to_zero_shot := {| zs_id := id; zs_prompt := ("prompt of " ++ id)%string |};
     to_result_status := λ _, Ok "correct" |}.

(** The runner of the scenario of the specification: the unit of work of
    task B logs one line and raises; the others write one chunk and
    return one message. *)
Definition runner : BenchmarkRunner :=
  {| run := λ lt _,
       if decide (zs_id (to_zero_shot lt) = "B")
       then {| actions := [Log "one line"; Elapse 2];
               outcome := Raise (Exception "Traceback: boom") |}
       else {| actions := [Write "out"; Elapse 1];
               outcome := Ok [[("role", "assistant")]] |} |}.

Definition cmd : OpenInterpreterCommand := ∅.

Definition headless_script : list (@Lifecycle.registration Proc TaskResult) :=
  [Lifecycle.RegStart (Headless.start "B"); Lifecycle.RegDone (Headless.done "B")].
(** [run_task] of the served mode on task B of the scenario, in the state
    in which the three tasks A, B and C have been submitted. *)
Definition failed_run : res TaskResult * Proc :=
  Server.run_task Examples.cmd Examples.runner (Examples.task "B")
    (to_zero_shot (Examples.task "B")) (Server.log "B")
    (Server.proc (Server.submitted
       [Examples.task "A"; Examples.task "B"; Examples.task "C"] Examples.fresh_proc)).
(** [run_and_judge] of the headless mode on task B of the scenario. *)
Definition headless_failure : res (list LMC * ResultStatus) * Proc :=
  run_and_judge Examples.runner (Examples.task "B") Examples.cmd
    DO_NOTHING (Headless.log "B") Examples.fresh_proc.
End Examples.

Module ServerExamples.
Import Server.
(** The scenario of the specification: tasks A, B and C on a pool of two
    threads; the unit of work of B raises. *)
Definition batch : list LoadedTask :=
  [Examples.task "A"; Examples.task "B"; Examples.task "C"].
Definition start : config := submitted batch Examples.fresh_proc.
Definition after (mvs : list move) : config :=
  default start (play_all batch Examples.cmd Examples.runner 2 mvs start).
(** Task A runs to the end of its completion callback's third statement
    while B and C are still queued. *)
Definition early_moves : list move := [Work 0; Work 0; Work 0; Work 0; Work 0].
(** A and B start; B finishes first, C takes the free thread, A
    finishes, C finishes; the main thread wakes, joins, closes the
    channels, serves, and is interrupted. *)
Definition full_moves : list move :=
  [Work 0; Work 1] ++ replicate 5 (Work 1) ++ [Work 2] ++
  replicate 5 (Work 0) ++ replicate 5 (Work 2) ++
  [Main; Main; Main; Main; Interrupt].
(** [run_and_judge] of the served mode on task B of the scenario. *)
Definition served_failure : res (list LMC * ResultStatus) * Proc :=
  run_and_judge Examples.runner (Examples.task "B") Examples.cmd
    (λ b, on_task_manager "B" (Channel.write b)) (log "B") (proc start).
(** The served coordinator on the empty batch, interrupted while it
    waits. *)
Definition empty_interrupted : config :=
  Config (proc (submitted [] Examples.fresh_proc)) [] Aborted.
End ServerExamples.

Module LockingExamples.
Import Channel Locking.
(** A channel with two chunks written; one thread is about to write a
    third chunk, another to attach websocket 7. *)
Definition start : config :=
  Config (snd ((write "a" >>> write "b") ChannelExamples.fresh_world)) None
    [Thread [] [Write "c"]; Thread [] [Add 7]].
(** Thread 1 enters [add] and registers 7; thread 0 cannot enter
    [write] until thread 1 released the lock. *)
Definition schedule : list nat := [1; 1; 1; 1; 0; 0; 0; 0].
Definition finish : config := default start (run_schedule schedule start).
End LockingExamples.

(** ** Definitions used to state further properties *)

(** *** Reading back what [write_json] wrote *)

Module JsonReader.
Import Server.




End JsonReader.

(** *** Closed forms of a runner's behaviour, used to state its effect *)

Module Effects.
(** The lines a behaviour logs, the chunks it writes and the time it
    takes, each in the order of its actions. *)
Definition logged (acts : list action) : list string :=
  omap (λ a, match a with Log s => Some s | _ => None end) acts.

Definition written (acts : list action) : list bytes :=
  omap (λ a, match a with Write b => Some b | _ => None end) acts.

Definition elapsed (acts : list action) : nat :=
  sum_list (omap (λ a, match a with Elapse d => Some d | _ => None end) acts).

(** What [run_and_judge] yields once the callbacks have returned: the
    messages and the judge's status, or the exception of the runner, or
    the exception of the judge. *)
Definition judged (lt : LoadedTask) (b : behaviour) : res (list LMC * ResultStatus) :=
  match outcome b with
  | Ok ms =>
      match to_result_status lt ms with
      | Ok st => Ok (ms, st)
      | Raise e => Raise e
      end
  | Raise e => Raise e
  end.

(** The bytes of the log update of task [id] for the line [s]. *)
Definition log_update (id : string) (s : string) : bytes :=
  Server.json_dumps_utf8
    {| Server.update_task_id := id; Server.payload := Server.TaskLogPayload s |}.

Definition started_update (id : string) : bytes :=
  Server.json_dumps_utf8
    {| Server.update_task_id := id; Server.payload := Server.TaskStartedPayload |}.

Definition done_update (id : string) (st : ResultStatus) : bytes :=
  Server.json_dumps_utf8
    {| Server.update_task_id := id; Server.payload := Server.TaskDonePayload st |}.

(** The record the headless [log] callback of task [id] hands to the
    debug logger for the line [s]. *)
Definition log_record (id : string) (s : string) : string :=
  ("  task " ++ id ++ " log: " ++ s)%string.
End Effects.

(** *** What the updates channel holds of a task *)

Module UpdatesOrder.
Import Server Effects.
(** Whether the start callback of a worker has returned, and the result
    whose done update a worker has written. *)
Definition has_started (w : worker) : bool :=
  match w with
  | Queued | Failed _ => false
  | _ => true
  end.

Definition announced (w : worker) : option TaskResult :=
  match w with
  | Announced r | Recorded r | Closed r | Finished r => Some r
  | _ => None
  end.

(** What the history [h] of the updates channel holds for the task [lt]
    whose worker is at [w]. *)
Definition published (lt : LoadedTask) (w : worker) (h : list bytes) : Prop :=
  (has_started w = true → [started_update (id_of lt)] `sublist_of` h) ∧
  (∀ r, announced w = Some r →
     [started_update (id_of lt); done_update (id_of lt) (status r)] `sublist_of` h).

Definition order_ok (all_tasks : list LoadedTask) (c : config) : Prop :=
  ∀ i lt w, workers c !! i = Some w → all_tasks !! i = Some lt →
    published lt w (Channel._history (updates_manager (proc c))).
End UpdatesOrder.

(** ** The size of the pool *)

Module PoolSize.
(** [ThreadPoolExecutor(max_workers=n)]: the number of threads of the
    pool.  [default_workers] is the number the library picks when [n]
    is [None]; a number that is not positive is refused. *)
Definition ThreadPoolExecutor (default_workers : nat) (max_workers : option Z) : res nat :=
  match max_workers with
  | None => Ok default_workers
  | Some n =>
      if (n <=? 0)%Z then Raise (ValueError "max_workers must be greater than 0")
      else Ok (Z.to_nat n)
  end.

(** [n_workers or os.cpu_count()]: an [n_workers] that is [None] or 0
    is replaced by the number of processors, which may be [None]. *)
Definition actual_n_workers (n_workers cpu_count : option Z) : option Z :=
  match n_workers with
  | Some n => if (n =? 0)%Z then cpu_count else Some n
  | None => cpu_count
  end.

(** The pool of [run_benchmark_worker_pool] and the pool of
    [run_benchmark_worker_pool_with_server]. *)
Definition headless_pool (default_workers : nat) (n_workers cpu_count : option Z) : res nat :=
  ThreadPoolExecutor default_workers (actual_n_workers n_workers cpu_count).

Definition served_pool (default_workers : nat) (nworkers : option Z) : res nat :=
  ThreadPoolExecutor default_workers nworkers.
End PoolSize.

(** ** The worker behind the server: [server-worker/__init__.py] *)

Module ServerWorker.
Section Settings.
(** The values of a command ([Dict[str, Any]]) are not looked into. *)
Context {V : Type}.

(** The attributes of the interpreter that a command sets. *)
Record Interpreter : Type := {
  llm_model : V;
  llm_context_window : V;
  llm_api_base : V;
  llm_api_key : V;
  auto_run : V;
  os : V;
  custom_instructions : V;
  llm_supports_functions : V
}.

(** [cmd.get(key, current)] *)
Definition get (cmd : gmap string V) (key : string) (current : V) : V :=
  default current (cmd !! key).

(** The interpreter is the one object of the module [profile]; every
    call updates it in place and returns it. *)
Definition command_to_interpreter (cmd : gmap string V) (interpreter : Interpreter)
    : Interpreter :=
  {| llm_model := get cmd "model" (llm_model interpreter);
     llm_context_window := get cmd "context_window" (llm_context_window interpreter);
     llm_api_base := get cmd "api_base" (llm_api_base interpreter);
     llm_api_key := get cmd "api_key" (llm_api_key interpreter);
     auto_run := get cmd "auto_run" (auto_run interpreter);
     os := get cmd "os_mode" (os interpreter);
     custom_instructions := get cmd "custom_instructions" (custom_instructions interpreter);
     llm_supports_functions :=
       get cmd "supports_functions" (llm_supports_functions interpreter) |}.

(** The keys a command is read at. *)
Definition setting_keys : list string :=
  ["model"; "context_window"; "api_base"; "api_key"; "auto_run"; "os_mode";
   "custom_instructions"; "supports_functions"].
End Settings.
Arguments Interpreter : clear implicits.
End ServerWorker.

(** ** Concrete inputs used by the further examples *)

Module ExtraExamples.
Import Channel.
(** The threads of [LockingExamples.start] after thread 1 entered [add]
    and registered websocket 7. *)
Definition midway : Locking.config :=
  default LockingExamples.start (Locking.run_schedule [1; 1] LockingExamples.start).

(** A log callback whose sink is gone. *)
Definition raising_log : string → M Proc unit := λ _, raise RuntimeError.

(** A unit of work that raises at once. *)
Definition raising_unit : unit → M Proc TaskResult := λ _, raise (Exception "boom").

(** A batch in which two tasks have the id A. *)
Definition twin (id prompt : string) : LoadedTask :=
  {| to_zero_shot := {| zs_id := id; zs_prompt := prompt |};
     to_result_status := λ _, Ok "correct" |}.

Definition twins : list LoadedTask :=
  [twin "A" "first"; twin "B" "other"; twin "A" "second"].

(** The headless coordinator with the scenario's batch submitted to a
    pool of two threads. *)
Definition headless_start : Headless.config :=
  Headless.submitted ServerExamples.batch 2 Examples.fresh_proc.

(** The process of the served scenario when task A has closed its
    channel, with websocket 5 attached to the channel of task B. *)
Definition observed : Proc :=
  snd (Server.logs 5 "B" (Server.proc (ServerExamples.after ServerExamples.early_moves))).
End ExtraExamples.

(** * Properties *)

(** ** The monad *)

Section MonadFacts.
Context {W : Type}.

Lemma bind_ok {A B} (c : M W A) (k : A → M W B) w a w' :
  c w = (Ok a, w') → bind c k w = k a w'.
Proof. unfold bind. by intros ->. Qed.

Lemma bind_raise {A B} (c : M W A) (k : A → M W B) w e w' :
  c w = (Raise e, w') → bind c k w = (Raise e, w').
Proof. unfold bind. by intros ->. Qed.

Lemma for_each_app {A} (body : A → M W unit) l1 l2 w w1 :
  for_each body l1 w = (Ok tt, w1) →
  for_each body (l1 ++ l2) w = for_each body l2 w1.
Proof.
  revert w. induction l1 as [|x l1 IH]; intros w; simpl.
  - unfold ret. by intros [= ->].
  - unfold bind. destruct (body x w) as [[[]|e] w']; [|done].
    apply IH.
Qed.
End MonadFacts.

(** ** Lifecycle hooks *)

Section LifecycleFacts.
Import Lifecycle.
Context {W Args Result : Type}.
Implicit Types script : list (@registration W Result).

Lemma register_fns script (lc : TaskLifecycle W Result) :
  _start_fns (foldl register lc script) = _start_fns lc ++ start_fns_of script ∧
  _done_fns (foldl register lc script) = _done_fns lc ++ done_fns_of script.
Proof.
  revert lc. induction script as [|[fn|fn] script IH]; intros lc; simpl.
  - by rewrite !app_nil_r.
  - destruct (IH (add_start_fn fn lc)) as [-> ->]. simpl.
    by rewrite <- app_assoc.
  - destruct (IH (add_done_fn fn lc)) as [-> ->]. simpl.
    by rewrite <- app_assoc.
Qed.

Lemma registered_start_fns script :
  _start_fns (registered script) = start_fns_of script.
Proof. apply (register_fns script init). Qed.

Lemma registered_done_fns script :
  _done_fns (registered script) = done_fns_of script.
Proof. apply (register_fns script init). Qed.

Lemma runs_in_order_for_each (cs : list (M W unit)) w w' :
  runs_in_order cs w w' → for_each (λ c, c) cs w = (Ok tt, w').
Proof.
  induction 1 as [|c cs w w1 w2 Hc _ IH]; [done|].
  simpl. by rewrite (bind_ok _ _ _ _ _ Hc).
Qed.

Lemma for_each_fmap {A B} (f : A → B) (body : B → M W unit) l w :
  for_each body (f <$> l) w = for_each (λ x, body (f x)) l w.
Proof.
  revert w. induction l as [|x l IH]; intros w; [done|].
  simpl. unfold bind. destruct (body (f x) w) as [[[]|e] w1]; [apply IH|done].
Qed.


(** When the unit of work raises, the wrapped unit raises the same
    exception and no completion callback runs. *)
Lemma wrap_unit_raises script (fn : Args → M W Result) args w w1 e w2 :
  runs_in_order (start_fns_of script) w w1 →
  fn args w1 = (Raise e, w2) →
  wrap (registered script) fn args w = (Raise e, w2).
Proof.
  intros Hs Hfn. unfold wrap. rewrite registered_start_fns.
  rewrite (bind_ok _ _ _ _ _ (runs_in_order_for_each _ _ _ Hs)).
  by rewrite (bind_raise _ _ _ _ _ Hfn).
Qed.
End LifecycleFacts.


(** ** The broadcast channel *)

Section ChannelFacts.
Import Channel.
Implicit Types (w : World) (n : Net) (c : WebSocketsManager) (ws : websocket).
Implicit Types (bs b : bytes) (h : list bytes) (e : event).

Lemma world_eta w : {| self := self w; net := net w |} = w.
Proof. by destruct w. Qed.

Lemma received_deliver ws ws' b n :
  received (deliver ws b n) ws' =
  if decide (ws' = ws) then received n ws ++ [b] else received n ws'.
Proof.
  unfold received, deliver. simpl. case_decide as Heq.
  - subst. by rewrite lookup_insert_eq.
  - by rewrite lookup_insert_ne.
Qed.

Lemma is_set_set_event e e' v n :
  is_set (set_event e v n) e' = if decide (e' = e) then v else is_set n e'.
Proof.
  unfold is_set, set_event. simpl. case_decide as Heq.
  - subst. by rewrite lookup_insert_eq.
  - by rewrite lookup_insert_ne.
Qed.

Lemma send_bytes_to_live ws b w :
  ws ∉ dead (net w) →
  _send_bytes_to ws b w = (Ok false, {| self := self w; net := deliver ws b (net w) |}).
Proof.
  intros Hlive. unfold _send_bytes_to, try_except, send_bytes, bind, gets. simpl.
  by rewrite decide_False.
Qed.

Lemma send_bytes_to_dead ws b w :
  ws ∈ dead (net w) → _send_bytes_to ws b w = (Ok true, w).
Proof.
  intros Hdead. unfold _send_bytes_to, try_except, send_bytes, bind, gets. simpl.
  by rewrite decide_True.
Qed.

Lemma deliver_all_cons ws b h n :
  deliver_all ws (b :: h) n = deliver_all ws h (deliver ws b n).
Proof. done. Qed.

Lemma fan_out_net_cons bs ws l n :
  fan_out_net bs (ws :: l) n =
  fan_out_net bs l (if decide (ws ∈ dead n) then n else deliver ws bs n).
Proof. done. Qed.

Lemma dead_deliver_all ws h n : dead (deliver_all ws h n) = dead n.
Proof.
  revert n. induction h as [|b h IH]; intros n; [done|].
  by rewrite deliver_all_cons, IH.
Qed.

Lemma events_deliver_all ws h n : events (deliver_all ws h n) = events n.
Proof.
  revert n. induction h as [|b h IH]; intros n; [done|].
  by rewrite deliver_all_cons, IH.
Qed.

Lemma received_deliver_all ws ws' h n :
  received (deliver_all ws h n) ws' =
  if decide (ws' = ws) then received n ws ++ h else received n ws'.
Proof.
  revert n. induction h as [|b h IH]; intros n.
  - case_decide; [subst; by rewrite app_nil_r | reflexivity].
  - rewrite deliver_all_cons, IH. case_decide as Heq.
    + subst. rewrite received_deliver, decide_True by done.
      by rewrite <- app_assoc.
    + by rewrite received_deliver, decide_False.
Qed.

Lemma replay_live ws h w :
  ws ∉ dead (net w) →
  for_each (λ bs, _send_bytes_to ws bs >>> ret tt) h w =
  (Ok tt, {| self := self w; net := deliver_all ws h (net w) |}).
Proof.
  revert w. induction h as [|b h IH]; intros w Hlive.
  - simpl. by rewrite world_eta.
  - rewrite deliver_all_cons. simpl. unfold bind at 1 2.
    rewrite send_bytes_to_live by done. simpl. by rewrite IH.
Qed.

Lemma replay_dead ws h w :
  ws ∈ dead (net w) →
  for_each (λ bs, _send_bytes_to ws bs >>> ret tt) h w = (Ok tt, w).
Proof.
  intros Hdead. induction h as [|b h IH]; simpl; [done|].
  unfold bind at 1 2. by rewrite send_bytes_to_dead.
Qed.

Lemma add_register_eq ws w :
  add_register ws w =
  (Ok tt,
   {| self := set_disconnect_events
                (<[ws := fresh (dom (events (net w)))]> (_disconnect_events (self w)))
                (set_websockets ({[ws]} ∪ _websockets (self w)) (self w));
      net := set_event (fresh (dom (events (net w)))) false (net w) |}).
Proof. done. Qed.

Lemma add_replay_eq ws w :
  add_replay ws w =
  (Ok tt, if decide (ws ∈ dead (net w)) then w
          else {| self := self w; net := deliver_all ws (_history (self w)) (net w) |}).
Proof.
  unfold add_replay, bind, gets. simpl. case_decide.
  - by apply replay_dead.
  - by apply replay_live.
Qed.

Lemma dead_fan_out_net bs l n : dead (fan_out_net bs l n) = dead n.
Proof.
  revert n. induction l as [|ws l IH]; intros n; [done|].
  rewrite fan_out_net_cons, IH. by case_decide.
Qed.

Lemma events_fan_out_net bs l n : events (fan_out_net bs l n) = events n.
Proof.
  revert n. induction l as [|ws l IH]; intros n; [done|].
  rewrite fan_out_net_cons, IH. by case_decide.
Qed.

Lemma received_fan_out_net bs l n ws :
  NoDup l →
  received (fan_out_net bs l n) ws =
  if decide (ws ∈ l ∧ ws ∉ dead n) then received n ws ++ [bs] else received n ws.
Proof.
  intros Hnd. revert n. induction Hnd as [|x l Hx Hnd IH]; intros n.
  - case_decide as H; [|reflexivity]. destruct H as [H _]. by apply not_elem_of_nil in H.
  - rewrite fan_out_net_cons. destruct (decide (x ∈ dead n)) as [Hd|Hd]; rewrite IH.
    + repeat case_decide; try done; exfalso; set_solver.
    + rewrite received_deliver. simpl.
      repeat case_decide; subst; try done; exfalso; set_solver.
Qed.

Lemma write_fan_out_eq bs l acc w :
  write_fan_out bs l acc w =
  (Ok (list_to_set (filter (λ ws, ws ∈ dead (net w)) l) ∪ acc),
   {| self := self w; net := fan_out_net bs l (net w) |}).
Proof.
  revert acc w. induction l as [|ws l IH]; intros acc w.
  - simpl. rewrite world_eta. unfold ret. f_equal. f_equal. set_solver.
  - rewrite fan_out_net_cons. simpl. unfold bind. destruct (decide (ws ∈ dead (net w))) as [Hd|Hd].
    + rewrite send_bytes_to_dead by done. rewrite IH.
      rewrite filter_cons_True by done. f_equal. f_equal. set_solver.
    + rewrite send_bytes_to_live by done. rewrite IH. simpl.
      rewrite filter_cons_False by done. done.
Qed.

Lemma remove_eq ws w :
  ws ∈ _websockets (self w) →
  is_Some (_disconnect_events (self w) !! ws) →
  _remove ws w = (Ok tt, removed ws w).
Proof.
  intros Hin [e He].
  unfold _remove, removed, disconnect_event, event_set, on_self, on_net.
  unfold bind, gets, modify. simpl.
  rewrite decide_True by done. simpl. by rewrite He.
Qed.

Lemma removed_all_cons ws l w :
  foldl (λ w ws, removed ws w) w (ws :: l) = foldl (λ w ws, removed ws w) (removed ws w) l.
Proof. done. Qed.

(** What a run of [_remove] over [l] leaves. *)
Lemma removed_all_fields l w :
  let w' := foldl (λ w ws, removed ws w) w l in
  _history (self w') = _history (self w) ∧
  _is_closed (self w') = _is_closed (self w) ∧
  _websockets (self w') = _websockets (self w) ∖ list_to_set l ∧
  (∀ ws, _disconnect_events (self w') !! ws =
         if decide (ws ∈ l) then None else _disconnect_events (self w) !! ws) ∧
  inbox (net w') = inbox (net w) ∧
  dead (net w') = dead (net w) ∧
  (∀ e, is_set (net w') e = true ↔
        is_set (net w) e = true ∨
        ∃ ws, ws ∈ l ∧ _disconnect_events (self w) !! ws = Some e).
Proof.
  revert w. induction l as [|x l IH]; intros w.
  - cbn [foldl]. cbv zeta. split_and!; try done; set_solver.
  - rewrite removed_all_cons.
    destruct (IH (removed x w)) as (Hh & Hc & Hs & Hd & Hi & Hdd & He).
    cbv zeta. split_and!.
    + by rewrite Hh.
    + by rewrite Hc.
    + rewrite Hs. simpl. set_solver.
    + intros ws. rewrite Hd. simpl.
      destruct (decide (ws = x)) as [->|Hne].
      * rewrite lookup_delete_eq. rewrite (decide_True (P := x ∈ x :: l)) by set_solver.
        by case_decide.
      * rewrite lookup_delete_ne by done.
        repeat case_decide; try done; exfalso; set_solver.
    + rewrite Hi. simpl. by destruct (_disconnect_events (self w) !! x).
    + rewrite Hdd. simpl. by destruct (_disconnect_events (self w) !! x).
    + intros e. rewrite He. simpl. split.
      * intros [Hset|(ws & Hin & Hev)].
        -- destruct (_disconnect_events (self w) !! x) as [ex|] eqn:Hx; [|by left].
           rewrite is_set_set_event in Hset. case_decide as Heq; [|by left].
           subst. right. exists x. split; [set_solver|done].
        -- destruct (decide (ws = x)) as [->|Hne].
           ++ by rewrite lookup_delete_eq in Hev.
           ++ rewrite lookup_delete_ne in Hev by done.
              right. exists ws. split; [set_solver|done].
      * intros [Hset|(ws & Hin & Hev)].
        -- left. destruct (_disconnect_events (self w) !! x); [|done].
           rewrite is_set_set_event. by case_decide.
        -- destruct (decide (ws = x)) as [->|Hne].
           ++ left. rewrite Hev, is_set_set_event. by rewrite decide_True.
           ++ right. exists ws. split; [set_solver|].
              by rewrite lookup_delete_ne.
Qed.

Lemma for_each_remove_eq l w :
  NoDup l →
  (∀ ws, ws ∈ l → ws ∈ _websockets (self w) ∧ is_Some (_disconnect_events (self w) !! ws)) →
  for_each _remove l w = (Ok tt, foldl (λ w ws, removed ws w) w l).
Proof.
  intros Hnd. revert w. induction Hnd as [|x l Hx Hnd IH]; intros w Hl; [done|].
  rewrite removed_all_cons. simpl. unfold bind.
  destruct (Hl x) as [Hin Hev]; [set_solver|].
  rewrite remove_eq by done. apply IH. intros ws Hws.
  destruct (Hl ws) as [Hin' Hev']; [set_solver|].
  assert (ws ≠ x) by (intros ->; done).
  simpl. split; [set_solver|]. by rewrite lookup_delete_ne.
Qed.

(** The effect of the broadcast part of [write] on a channel that
    satisfies the invariant. *)
Lemma write_broadcast_post bs w :
  chan_inv (self w) →
  ∃ w', write_broadcast bs w = (Ok tt, w') ∧
    _history (self w') = _history (self w) ∧
    _is_closed (self w') = _is_closed (self w) ∧
    _websockets (self w') = _websockets (self w) ∖ dead (net w) ∧
    (∀ ws, _disconnect_events (self w') !! ws =
           if decide (ws ∈ _websockets (self w) ∧ ws ∈ dead (net w)) then None
           else _disconnect_events (self w) !! ws) ∧
    dead (net w') = dead (net w) ∧
    (∀ ws, received (net w') ws =
           if decide (ws ∈ _websockets (self w) ∧ ws ∉ dead (net w))
           then received (net w) ws ++ [bs] else received (net w) ws) ∧
    (∀ e, is_set (net w') e = true ↔
          is_set (net w) e = true ∨
          ∃ ws, ws ∈ _websockets (self w) ∧ ws ∈ dead (net w) ∧
                _disconnect_events (self w) !! ws = Some e).
Proof.
  intros Hinv. unfold write_broadcast, bind, gets. cbv beta iota zeta.
  destruct (decide (size (_websockets (self w)) = 0)) as [Hz|Hnz].
  - apply size_empty_inv in Hz. apply leibniz_equiv in Hz.
    exists w. rewrite Hz. split_and!; try done; set_solver.
  - rewrite write_fan_out_eq. cbv beta iota zeta.
    set (l := elements (list_to_set (filter (λ ws, ws ∈ dead (net w))
                  (elements (_websockets (self w)))) ∪ ∅ : gset websocket)).
    set (w1 := {| self := self w;
                  net := fan_out_net bs (elements (_websockets (self w))) (net w) |}).
    assert (Hl : ∀ ws, ws ∈ l ↔ ws ∈ _websockets (self w) ∧ ws ∈ dead (net w)).
    { intros ws. unfold l. rewrite elem_of_elements, elem_of_union, elem_of_list_to_set.
      rewrite list_elem_of_filter, elem_of_elements. set_solver. }
    rewrite for_each_remove_eq.
    2: { apply NoDup_elements. }
    2: { intros ws Hws. apply Hl in Hws as [Hin _]. simpl. split; [done|]. by apply Hinv. }
    eexists. split; [done|].
    destruct (removed_all_fields l w1) as (Hh & Hc & Hs & Hd & Hi & Hdd & He).
    cbv zeta in *. split_and!.
    + by rewrite Hh.
    + by rewrite Hc.
    + rewrite Hs. simpl. apply set_eq. intros ws.
      rewrite !elem_of_difference, elem_of_list_to_set, Hl. tauto.
    + intros ws. rewrite Hd. simpl.
      destruct (decide (ws ∈ l)) as [Hin|Hin]; rewrite Hl in Hin.
      * by rewrite decide_True.
      * by rewrite decide_False.
    + rewrite Hdd. simpl. apply dead_fan_out_net.
    + intros ws. unfold received at 1. rewrite Hi. simpl.
      fold (received (fan_out_net bs (elements (_websockets (self w))) (net w)) ws).
      rewrite received_fan_out_net by apply NoDup_elements.
      repeat case_decide; try done; exfalso; set_solver.
    + intros e. rewrite He. simpl. unfold is_set at 1. rewrite events_fan_out_net.
      fold (is_set (net w) e). split.
      * intros [?|(ws & Hin & Hev)]; [by left|]. right. exists ws.
        apply Hl in Hin. tauto.
      * intros [?|(ws & Hin & Hdead & Hev)]; [by left|]. right. exists ws.
        split; [by apply Hl|done].
Qed.

Lemma signalled_cons c ws l n :
  signalled c (ws :: l) n =
  signalled c l (match _disconnect_events c !! ws with
                 | Some e => set_event e true n
                 | None => n
                 end).
Proof. done. Qed.

Lemma signalled_fields c l n :
  inbox (signalled c l n) = inbox n ∧
  dead (signalled c l n) = dead n ∧
  (∀ e, is_set (signalled c l n) e = true ↔
        is_set n e = true ∨ ∃ ws, ws ∈ l ∧ _disconnect_events c !! ws = Some e).
Proof.
  revert n. induction l as [|x l IH]; intros n.
  - split_and!; try done. intros e. split; [by left|].
    intros [?|(ws & H & _)]; [done|]. by apply not_elem_of_nil in H.
  - rewrite signalled_cons.
    destruct (IH (match _disconnect_events c !! x with
                  | Some e => set_event e true n | None => n end))
      as (Hi & Hd & He).
    split_and!.
    + rewrite Hi. by destruct (_disconnect_events c !! x).
    + rewrite Hd. by destruct (_disconnect_events c !! x).
    + intros e. rewrite He. split.
      * intros [Hset|(ws & Hin & Hev)].
        -- destruct (_disconnect_events c !! x) as [ex|] eqn:Hx; [|by left].
           rewrite is_set_set_event in Hset. case_decide as Heq; [|by left].
           subst. right. exists x. split; [set_solver|done].
        -- right. exists ws. split; [set_solver|done].
      * intros [Hset|(ws & Hin & Hev)].
        -- left. destruct (_disconnect_events c !! x); [|done].
           rewrite is_set_set_event. by case_decide.
        -- apply elem_of_cons in Hin as [->|Hin].
           ++ left. rewrite Hev, is_set_set_event. by rewrite decide_True.
           ++ right. by exists ws.
Qed.

Lemma close_signal_loop_eq c l w :
  self w = c →
  (∀ ws, ws ∈ l → is_Some (_disconnect_events c !! ws)) →
  for_each (λ ws, let! e := disconnect_event ws in event_set e) l w =
  (Ok tt, {| self := c; net := signalled c l (net w) |}).
Proof.
  revert w. induction l as [|x l IH]; intros w Hc Hl.
  - simpl. by rewrite <- Hc, world_eta.
  - rewrite signalled_cons. destruct (Hl x) as [e He]; [set_solver|].
    simpl. unfold bind at 1. unfold disconnect_event at 1. unfold bind, gets.
    rewrite Hc, He. simpl. rewrite IH; [done|done|].
    intros ws Hws. apply Hl. set_solver.
Qed.

(** The effect of [close] on a channel that satisfies the invariant. *)
Lemma close_post w :
  chan_inv (self w) →
  ∃ w', close w = (Ok tt, w') ∧
    _history (self w') = _history (self w) ∧
    _is_closed (self w') = true ∧
    _websockets (self w') = ∅ ∧
    _disconnect_events (self w') = _disconnect_events (self w) ∧
    inbox (net w') = inbox (net w) ∧
    dead (net w') = dead (net w) ∧
    (∀ e, is_set (net w') e = true ↔
          is_set (net w) e = true ∨
          ∃ ws, ws ∈ _websockets (self w) ∧ _disconnect_events (self w) !! ws = Some e).
Proof.
  intros Hinv. unfold close, close_signal, close_mark.
  unfold bind at 1 2. unfold gets. cbv beta iota zeta.
  rewrite (close_signal_loop_eq (self w)); [|done|].
  2: { intros ws Hws. apply Hinv. by apply elem_of_elements. }
  eexists. split; [reflexivity|].
  destruct (signalled_fields (self w) (elements (_websockets (self w))) (net w))
    as (Hi & Hd & He).
  simpl. split_and!; try done.
  intros e. rewrite He. by setoid_rewrite elem_of_elements.
Qed.

(** The effect of [add]. *)
Lemma add_post ws w :
  ∃ w', add ws w = (Ok tt, w') ∧
    _history (self w') = _history (self w) ∧
    _is_closed (self w') = _is_closed (self w) ∧
    _websockets (self w') = {[ws]} ∪ _websockets (self w) ∧
    _disconnect_events (self w') =
      <[ws := fresh (dom (events (net w)))]> (_disconnect_events (self w)) ∧
    dead (net w') = dead (net w) ∧
    (∀ ws', received (net w') ws' =
            if decide (ws' = ws ∧ ws ∉ dead (net w))
            then received (net w) ws ++ _history (self w) else received (net w) ws') ∧
    (∀ e, is_set (net w') e = is_set (net w) e).
Proof.
  unfold add, bind. rewrite add_register_eq, add_replay_eq.
  eexists. split; [reflexivity|]. simpl.
  assert (Hfresh : ∀ e, is_set (set_event (fresh (dom (events (net w)))) false (net w)) e
                        = is_set (net w) e).
  { intros e. rewrite is_set_set_event. case_decide as Heq; [|done]. subst.
    unfold is_set. symmetry.
    by rewrite (not_elem_of_dom_1 _ _ (is_fresh (dom (events (net w))))). }
  destruct (decide (ws ∈ dead (net w))) as [Hd|Hd]; simpl.
  - split_and!; try done.
    intros ws'. rewrite decide_False by tauto. done.
  - split_and!; try done.
    + by rewrite dead_deliver_all.
    + intros ws'. rewrite received_deliver_all.
      change (received (set_event _ _ (net w))) with (received (net w)).
      repeat case_decide; try done; exfalso; tauto.
    + intros e. unfold is_set at 1. rewrite events_deliver_all. apply Hfresh.
Qed.

(** The effect of [write] on a channel that satisfies the invariant. *)
Lemma write_post bs w :
  chan_inv (self w) →
  ∃ w', write bs w = (Ok tt, w') ∧
    _history (self w') = _history (self w) ++ [bs] ∧
    _is_closed (self w') = _is_closed (self w) ∧
    _websockets (self w') = _websockets (self w) ∖ dead (net w) ∧
    (∀ ws, _disconnect_events (self w') !! ws =
           if decide (ws ∈ _websockets (self w) ∧ ws ∈ dead (net w)) then None
           else _disconnect_events (self w) !! ws) ∧
    dead (net w') = dead (net w) ∧
    (∀ ws, received (net w') ws =
           if decide (ws ∈ _websockets (self w) ∧ ws ∉ dead (net w))
           then received (net w) ws ++ [bs] else received (net w) ws) ∧
    (∀ e, is_set (net w') e = true ↔
          is_set (net w) e = true ∨
          ∃ ws, ws ∈ _websockets (self w) ∧ ws ∈ dead (net w) ∧
                _disconnect_events (self w) !! ws = Some e).
Proof.
  intros Hinv. unfold write, bind at 1.
  set (w1 := {| self := set_history (_history (self w) ++ [bs]) (self w); net := net w |}).
  change (write_append bs w) with (Ok tt, w1).
  destruct (write_broadcast_post bs w1 Hinv) as (w' & Hrun & Hpost).
  exists w'. split; [done|]. apply Hpost.
Qed.

Lemma chan_inv_init : chan_inv init.
Proof. intros ws Hws. simpl in Hws. set_solver. Qed.

Lemma chan_inv_add ws w w' :
  chan_inv (self w) → add ws w = (Ok tt, w') → chan_inv (self w').
Proof.
  intros Hinv Hrun. destruct (add_post ws w) as (w1 & Hrun1 & _ & _ & Hs & Hd & _).
  rewrite Hrun in Hrun1. injection Hrun1 as <-.
  intros x. rewrite Hs, Hd. intros [Hx|Hx]%elem_of_union.
  - apply elem_of_singleton in Hx as ->. rewrite lookup_insert_eq. by eexists.
  - destruct (decide (x = ws)) as [->|Hne]; [rewrite lookup_insert_eq; by eexists|].
    rewrite lookup_insert_ne by done. by apply Hinv.
Qed.

Lemma chan_inv_write bs w w' :
  chan_inv (self w) → write bs w = (Ok tt, w') → chan_inv (self w').
Proof.
  intros Hinv Hrun. destruct (write_post bs w Hinv) as (w1 & Hrun1 & _ & _ & Hs & Hd & _).
  rewrite Hrun in Hrun1. injection Hrun1 as <-.
  intros x. rewrite Hs, Hd. intros [Hx Hlive]%elem_of_difference.
  rewrite decide_False by tauto. by apply Hinv.
Qed.

Lemma chan_inv_close w w' :
  chan_inv (self w) → close w = (Ok tt, w') → chan_inv (self w').
Proof.
  intros Hinv Hrun. destruct (close_post w Hinv) as (w1 & Hrun1 & _ & _ & Hs & _).
  rewrite Hrun in Hrun1. injection Hrun1 as <-.
  intros x. rewrite Hs. set_solver.
Qed.

Lemma chan_inv_subseteq c :
  chan_inv c ↔ _websockets c ⊆ dom (_disconnect_events c).
Proof.
  unfold chan_inv. split.
  - intros H ws Hws. apply elem_of_dom. by apply H.
  - intros H ws Hws. apply elem_of_dom. by apply H.
Qed.

#[global] Instance chan_inv_dec c : Decision (chan_inv c).
Proof.
  refine (cast_if (decide (_websockets c ⊆ dom (_disconnect_events c))));
    by rewrite chan_inv_subseteq.
Defined.

Lemma wait_absent ws w :
  _disconnect_events (self w) !! ws = None →
  wait_until_disconnect ws w = (Raise (KeyError (ObjKey ws)), w).
Proof.
  intros Hnone. unfold wait_until_disconnect, disconnect_event.
  unfold bind, gets. by rewrite Hnone.
Qed.

Lemma wait_present ws e w :
  _disconnect_events (self w) !! ws = Some e →
  wait_until_disconnect ws w =
  (Ok (if is_set (net w) e then Returns else Suspends e), w).
Proof.
  intros Hsome. unfold wait_until_disconnect, disconnect_event.
  unfold bind, gets. by rewrite Hsome.
Qed.



(** C10.  [wait_until_disconnect] raises [KeyError], and neither
    suspends nor returns, exactly when the websocket has no entry in
    [_disconnect_events]: on a new channel (a websocket never attached),
    and after a [write] that failed to deliver to it (the entry was
    deleted).  With an entry it returns at once when the event is set
    and suspends otherwise; [close] leaves every entry in place and sets
    the events of the attached websockets, so after [close] the call
    returns for each of them. *)
Theorem wait_until_disconnect_needs_entry ws w :
  (_disconnect_events (self w) !! ws = None ↔
     wait_until_disconnect ws w = (Raise (KeyError (ObjKey ws)), w)) ∧
  (∀ e, _disconnect_events (self w) !! ws = Some e →
     wait_until_disconnect ws w =
       (Ok (if is_set (net w) e then Returns else Suspends e), w)) ∧
  wait_until_disconnect ws {| self := init; net := net w |} =
    (Raise (KeyError (ObjKey ws)), {| self := init; net := net w |}) ∧
  (chan_inv (self w) → ws ∈ _websockets (self w) → ws ∈ dead (net w) →
   ∀ bs w', write bs w = (Ok tt, w') →
     wait_until_disconnect ws w' = (Raise (KeyError (ObjKey ws)), w')) ∧
  (chan_inv (self w) → ws ∈ _websockets (self w) →
   ∀ w', close w = (Ok tt, w') →
     _disconnect_events (self w') = _disconnect_events (self w) ∧
     wait_until_disconnect ws w' = (Ok Returns, w')).
Proof.
  split_and!.
  - split; [apply wait_absent|].
    destruct (_disconnect_events (self w) !! ws) as [e|] eqn:He; [|done].
    rewrite (wait_present _ _ _ He). by destruct (is_set (net w) e).
  - intros e. apply wait_present.
  - by apply wait_absent.
  - intros Hinv Hin Hdead bs w' Hrun.
    destruct (write_post bs w Hinv) as (w1 & Hrun1 & _ & _ & _ & Hd & _).
    rewrite Hrun in Hrun1. injection Hrun1 as <-.
    apply wait_absent. rewrite Hd. by rewrite decide_True.
  - intros Hinv Hin w' Hrun.
    destruct (close_post w Hinv) as (w1 & Hrun1 & _ & _ & _ & Hd & _ & _ & He).
    rewrite Hrun in Hrun1. injection Hrun1 as <-.
    split; [done|]. destruct (Hinv ws Hin) as [e Hev].
    rewrite (wait_present ws e) by by rewrite Hd.
    replace (is_set (net w') e) with true; [done|].
    symmetry. apply He. right. by exists ws.
Qed.

(** On the channel with subscribers 1 and 2, the connection of 2 being
    gone: after a write the wait for 2 raises; after a close the wait
    for 1 returns. *)
Lemma wait_until_disconnect_needs_entry_witness :
  wait_until_disconnect 2 (write "c" ChannelExamples.one_dead_subscriber).2 =
    (Raise (KeyError (ObjKey 2)), (write "c" ChannelExamples.one_dead_subscriber).2) ∧
  wait_until_disconnect 1 (close ChannelExamples.one_dead_subscriber).2 =
    (Ok Returns, (close ChannelExamples.one_dead_subscriber).2).
Proof.
  assert (H : chan_inv (self ChannelExamples.one_dead_subscriber)).
  { apply (bool_decide_unpack _). vm_compute. exact I. }
  pose proof (wait_until_disconnect_needs_entry 2 ChannelExamples.one_dead_subscriber)
    as (_ & _ & _ & Hw & _).
  pose proof (wait_until_disconnect_needs_entry 1 ChannelExamples.one_dead_subscriber)
    as (_ & _ & _ & _ & Hc).
  split.
  - refine (Hw H _ _ "c" _ _); [| |vm_compute; reflexivity];
      apply (bool_decide_unpack _); vm_compute; exact I.
  - refine (proj2 (Hc H _ _ _)); [|vm_compute; reflexivity].
    apply (bool_decide_unpack _); vm_compute; exact I.
Defined.

(** C5, as the code has it.  [add] does not consult [_is_closed]: on a
    closed channel it returns normally, the websocket is in the
    subscriber set afterwards with a new event that is not set, a live
    websocket has been sent the whole history, the channel is still
    closed, and waiting for the websocket's disconnection suspends. *)
Theorem add_after_close_attaches ws w :
  _is_closed (self w) = true →
  ∃ w' e, add ws w = (Ok tt, w') ∧
    ws ∈ _websockets (self w') ∧
    _is_closed (self w') = true ∧
    (ws ∉ dead (net w) →
       received (net w') ws = received (net w) ws ++ _history (self w)) ∧
    wait_until_disconnect ws w' = (Ok (Suspends e), w').
Proof.
  intros Hclosed.
  destruct (add_post ws w) as (w' & Hrun & _ & Hc & Hs & Hd & _ & Hr & He).
  exists w', (fresh (dom (events (net w)))). split_and!; try done.
  - rewrite Hs. set_solver.
  - by rewrite Hc.
  - intros Hlive. rewrite Hr. by rewrite decide_True.
  - rewrite (wait_present ws (fresh (dom (events (net w))))).
    2: { rewrite Hd. apply lookup_insert_eq. }
    rewrite He. unfold is_set.
    by rewrite (not_elem_of_dom_1 _ _ (is_fresh (dom (events (net w))))).
Qed.

(** Websocket 2 attaches to a closed channel whose history is one
    chunk. *)
Lemma add_after_close_attaches_witness :
  _is_closed (self ChannelExamples.closed_world) = true ∧
  ∃ w' e, add 2 ChannelExamples.closed_world = (Ok tt, w') ∧
    2 ∈ _websockets (self w') ∧
    _is_closed (self w') = true ∧
    (2 ∉ dead (net ChannelExamples.closed_world) →
       received (net w') 2 =
         received (net ChannelExamples.closed_world) 2 ++
         _history (self ChannelExamples.closed_world)) ∧
    wait_until_disconnect 2 w' = (Ok (Suspends e), w').
Proof.
  split; [reflexivity|].
  exact (add_after_close_attaches 2 ChannelExamples.closed_world eq_refl).
Defined.

(** C5 as stated fails: on a closed channel [add] returns normally and
    the websocket is a subscriber afterwards. *)
Lemma add_after_close_not_rejected :
  _is_closed (self ChannelExamples.closed_world) = true ∧
  fst (add 2 ChannelExamples.closed_world) = Ok tt ∧
  2 ∈ _websockets (self (snd (add 2 ChannelExamples.closed_world))) ∧
  received (net (snd (add 2 ChannelExamples.closed_world))) 2 = ["a"].
Proof.
  split_and!; [reflexivity|reflexivity| |reflexivity].
  apply (bool_decide_unpack _). vm_compute. exact I.
Qed.

(** C6, as the code has it.  [write] does not consult [_is_closed]
    either: on a closed channel it returns normally and appends the
    chunk to the history, so the chunk is replayed to whoever attaches
    later; it is sent to every live websocket attached since the close;
    and a [write] that directly follows [close] changes no inbox, as
    [close] emptied the subscriber set. *)
Theorem write_after_close_is_kept bs w :
  chan_inv (self w) →
  _is_closed (self w) = true →
  ∃ w', write bs w = (Ok tt, w') ∧
    _history (self w') = _history (self w) ++ [bs] ∧
    _is_closed (self w') = true ∧
    (∀ ws, ws ∈ _websockets (self w) → ws ∉ dead (net w) →
       received (net w') ws = received (net w) ws ++ [bs]) ∧
    (_websockets (self w) = ∅ → inbox (net w') = inbox (net w)).
Proof.
  intros Hinv Hclosed.
  destruct (write_post bs w Hinv) as (w' & Hrun & Hh & Hc & _ & _ & _ & Hr & _).
  exists w'. split_and!; try done.
  - by rewrite Hc.
  - intros ws Hin Hlive. rewrite Hr. by rewrite decide_True.
  - intros Hempty. clear Hr.
    unfold write, bind in Hrun. simpl in Hrun.
    unfold write_broadcast, bind, gets in Hrun. simpl in Hrun.
    rewrite Hempty in Hrun. by injection Hrun as <-.
Qed.

(** A write to a closed channel that had one subscriber. *)
Lemma write_after_close_is_kept_witness :
  chan_inv (self ChannelExamples.closed_world) ∧
  _is_closed (self ChannelExamples.closed_world) = true ∧
  ∃ w', write "z" ChannelExamples.closed_world = (Ok tt, w') ∧
    _history (self w') = _history (self ChannelExamples.closed_world) ++ ["z"] ∧
    _is_closed (self w') = true ∧
    (∀ ws, ws ∈ _websockets (self ChannelExamples.closed_world) →
       ws ∉ dead (net ChannelExamples.closed_world) →
       received (net w') ws = received (net ChannelExamples.closed_world) ws ++ ["z"]) ∧
    (_websockets (self ChannelExamples.closed_world) = ∅ →
       inbox (net w') = inbox (net ChannelExamples.closed_world)).
Proof.
  assert (H : chan_inv (self ChannelExamples.closed_world)).
  { apply (bool_decide_unpack _). vm_compute. exact I. }
  split; [exact H|]. split; [reflexivity|].
  exact (write_after_close_is_kept "z" ChannelExamples.closed_world H eq_refl).
Defined.

(** C6 as stated fails: a chunk written after [close] is delivered to a
    subscriber of the closed channel (one that attached after the
    close), and it is in the history. *)
Lemma write_after_close_delivered :
  let w := snd ((add 2 >>> write "z") ChannelExamples.closed_world) in
  _is_closed (self ChannelExamples.closed_world) = true ∧
  fst ((add 2 >>> write "z") ChannelExamples.closed_world) = Ok tt ∧
  received (net w) 2 = ["a"; "z"] ∧
  _history (self w) = ["a"; "z"].
Proof. by vm_compute. Qed.

End ChannelFacts.

(** ** The lock of the channel *)

Section LockingFacts.
Import Channel Locking.
Implicit Types (w : World) (ts : list thread) (t : thread) (s ws : websocket).

(** The statements of a critical section, run one after the other with
    nothing in between, are the method's body. *)
Lemma body_runs_method o w : for_each exec (body o) w = method o w.
Proof.
  destruct o as [ws|bs|]; cbn [body for_each exec method];
    unfold add, write, close, bind, ret.
  - destruct (add_register ws w) as [[[]|e] w1]; [|done].
    by destruct (add_replay ws w1) as [[[]|e] w2].
  - destruct (write_append bs w) as [[[]|e] w1]; [|done].
    by destruct (write_broadcast bs w1) as [[[]|e] w2].
  - destruct (close_signal w) as [[[]|e] w1]; [|done].
    by destruct (close_mark w1) as [[[]|e] w2].
Qed.

Lemma sum_list_fmap_insert {A} (f : A → nat) (l : list A) i x y :
  l !! i = Some x →
  sum_list (f <$> <[i := y]> l) + f x = sum_list (f <$> l) + f y.
Proof.
  revert i. induction l as [|a l IH]; intros [|i] Hi; simplify_eq/=; [lia|].
  specialize (IH i Hi). lia.
Qed.




Lemma section_shape_body o : section_shape (body o).
Proof. destruct o; unfold section_shape; simpl; eauto 10. Qed.

Ltac fields :=
  cbn [self net _history _websockets _disconnect_events _is_closed
       set_history set_websockets set_disconnect_events set_is_closed
       inbox dead events set_event] in *.

Lemma chan_inv_register ws e c :
  chan_inv c →
  chan_inv (set_disconnect_events (<[ws := e]> (_disconnect_events c))
              (set_websockets ({[ws]} ∪ _websockets c) c)).
Proof.
  intros Hinv x. fields. intros [Hx|Hx]%elem_of_union.
  - apply elem_of_singleton in Hx as ->. rewrite lookup_insert_eq. by eexists.
  - destruct (decide (x = ws)) as [->|]; [rewrite lookup_insert_eq; by eexists|].
    rewrite lookup_insert_ne by done. by apply Hinv.
Qed.

Lemma section_shape_tail ins rest :
  section_shape (ins :: rest) → ins ≠ Release → section_shape rest.
Proof. unfold section_shape. intros H Hne. naive_solver. Qed.

Lemma section_shape_release rest : section_shape (Release :: rest) → rest = [].
Proof. unfold section_shape. naive_solver. Qed.

Lemma close_signal_eq w :
  chan_inv (self w) →
  close_signal w =
  (Ok tt, {| self := self w;
             net := signalled (self w) (elements (_websockets (self w))) (net w) |}).
Proof.
  intros Hinv. unfold close_signal, bind, gets. cbv beta iota zeta.
  apply close_signal_loop_eq; [done|].
  intros ws Hws. apply Hinv. by apply elem_of_elements.
Qed.








Lemma threads_ok_holder w l ts i ins rest os :
  threads_ok (Config w l ts) →
  ts !! i = Some (Thread (ins :: rest) os) →
  l = Some i ∧ section_shape (ins :: rest).
Proof.
  intros [Ha Hb] Hi.
  assert (l = Some i) as -> by (by apply (Ha i _ Hi)).
  split; [done|]. destruct (Hb i eq_refl) as (t & Ht & Hshape).
  cbn [threads] in Ht. rewrite Hi in Ht. by injection Ht as <-.
Qed.

Lemma threads_ok_insert_holder w w' ts i t rest os :
  threads_ok (Config w (Some i) ts) →
  ts !! i = Some t →
  section_shape rest →
  threads_ok (Config w' (Some i) (<[i := Thread rest os]> ts)).
Proof.
  intros [Ha Hb] Hi Hshape. split; cbn [lock threads] in *.
  - intros j tj Hj Hcur. destruct (decide (j = i)) as [->|Hne]; [done|].
    rewrite list_lookup_insert_ne in Hj by done. by apply (Ha j tj).
  - intros j [= <-]. exists (Thread rest os). split; [|done].
    apply list_lookup_insert_eq. by eapply lookup_lt_Some.
Qed.

Lemma threads_ok_insert_idle w w' l ts i t os :
  threads_ok (Config w l ts) →
  ts !! i = Some t →
  (cur t ≠ [] ∨ l = None) →
  threads_ok (Config w' None (<[i := Thread [] os]> ts)).
Proof.
  intros [Ha Hb] Hi Hcase. split; cbn [lock threads] in *; [|done].
  intros j tj Hj Hcur. destruct (decide (j = i)) as [->|Hne].
  - rewrite list_lookup_insert_eq in Hj by (by eapply lookup_lt_Some).
    by injection Hj as <-.
  - rewrite list_lookup_insert_ne in Hj by done.
    pose proof (Ha j tj Hj Hcur) as Hl. destruct Hcase as [Hc|Hn]; [|congruence].
    pose proof (Ha i t Hi Hc). congruence.
Qed.




End LockingFacts.

Section SchedulerFacts.
Import Channel Locking.

Lemma step_thread_sound i c c' : step_thread i c = Some c' → step c c'.
Proof.
  destruct c as [w l ts]. unfold step_thread. cbn [threads lock world].
  destruct (ts !! i) as [[[|ins rest] [|o os]]|] eqn:Hi; try discriminate.
  - destruct l; [discriminate|]. intros [= <-]. by apply step_acquire.
  - destruct (decide (ins = Release)) as [->|Hne].
    + intros [= <-]. by eapply step_release.
    + destruct (exec ins w) as [[[]|e] w'] eqn:Hexec.
      * destruct ins; try done; intros [= <-]; by eapply step_exec.
      * destruct ins; try done; intros [= <-]; by eapply step_raise.
  - destruct (decide (ins = Release)) as [->|Hne].
    + intros [= <-]. by eapply step_release.
    + destruct (exec ins w) as [[[]|e] w'] eqn:Hexec.
      * destruct ins; try done; intros [= <-]; by eapply step_exec.
      * destruct ins; try done; intros [= <-]; by eapply step_raise.
Qed.

Lemma run_schedule_sound sched c c' :
  run_schedule sched c = Some c' → rtc step c c'.
Proof.
  revert c. induction sched as [|i sched IH]; intros c; simpl.
  - by intros [= <-].
  - destruct (step_thread i c) as [c1|] eqn:Hstep; [|discriminate].
    intros Hrun. eapply rtc_l; [exact (step_thread_sound _ _ _ Hstep)|by apply IH].
Qed.

End SchedulerFacts.

(** ** Channel calls in the process; [run_task] *)

Section ProcFacts.
Import Channel Frame.
Implicit Types (p : Proc).

Lemma write_quiet bs : quiet_op (write bs).
Proof.
  intros w Hinv.
  destruct (write_post bs w Hinv) as (w' & Hrun & _ & Hc & _ & _ & _ & _ & He).
  exists tt, w'. split; [done|]. split_and!; [by eapply chan_inv_write|done|].
  intros e Hset. apply He. by left.
Qed.

Lemma add_quiet ws : quiet_op (add ws).
Proof.
  intros w Hinv.
  destruct (add_post ws w) as (w' & Hrun & _ & Hc & _ & _ & _ & _ & He).
  exists tt, w'. split; [done|]. split_and!; [by eapply chan_inv_add|done|].
  intros e Hset. by rewrite He.
Qed.

Lemma traffic_refl p : chans_ok p → traffic p p.
Proof. intros H. by split_and!. Qed.

Lemma traffic_trans p1 p2 p3 : traffic p1 p2 → traffic p2 p3 → traffic p1 p3.
Proof.
  intros (_ & Hr & Hd & Hu & Ht & He) (Hok & Hr' & Hd' & Hu' & Ht' & He').
  split_and!; try done; try congruence.
  intros e Hset. by apply He', He.
Qed.

Lemma traffic_on_updates {A} (c : M World A) p :
  quiet_op c → chans_ok p →
  ∃ v p', Server.on_updates c p = (Ok v, p') ∧ traffic p p' ∧
          task_managers p' = task_managers p.
Proof.
  intros Hc [Hu Ht]. unfold Server.on_updates.
  destruct (Hc (Build_World (updates_manager p) (sockets p)) Hu)
    as (v & w' & -> & Hinv' & Hclosed & Hev).
  eexists _, _. split; [done|]. split; [|done]. split_and!; try done.
Qed.

Lemma traffic_on_task_manager {A} (c : M World A) id p :
  quiet_op c → chans_ok p → is_Some (task_managers p !! id) →
  ∃ v p', Server.on_task_manager id c p = (Ok v, p') ∧ traffic p p' ∧
          updates_manager p' = updates_manager p.
Proof.
  intros Hc [Hu Ht] [m Hm]. unfold Server.on_task_manager. rewrite Hm.
  destruct (Hc (Build_World m (sockets p)) (Ht _ _ Hm))
    as (v & w' & -> & Hinv' & Hclosed & Hev).
  eexists _, _. split; [done|]. split; [|done]. split_and!; try done.
  - split; [done|]. intros id' m'. cbn [task_managers set_task_managers set_sockets].
    destruct (decide (id' = id)) as [->|Hne].
    + rewrite lookup_insert_eq. by intros [= <-].
    + rewrite lookup_insert_ne by done. apply Ht.
  - intros id'. cbn [task_managers set_task_managers set_sockets].
    destruct (decide (id' = id)) as [->|Hne].
    + rewrite lookup_insert_eq, Hm. simpl. by rewrite Hclosed.
    + by rewrite lookup_insert_ne.
Qed.

Lemma traffic_write_json j p :
  chans_ok p →
  ∃ p', Server.write_json j p = (Ok tt, p') ∧ traffic p p' ∧
        task_managers p' = task_managers p.
Proof.
  intros Hok.
  destruct (traffic_on_updates _ p (write_quiet (Server.json_dumps_utf8 j)) Hok)
    as ([] & p' & Hrun & Htr & Htm).
  by exists p'.
Qed.

Lemma traffic_is_Some p p' id :
  traffic p p' → is_Some (task_managers p !! id) → is_Some (task_managers p' !! id).
Proof.
  intros (_ & _ & _ & _ & Ht & _) [m Hm]. specialize (Ht id). rewrite Hm in Ht.
  destruct (task_managers p' !! id); [by eexists|done].
Qed.

Lemma traffic_chans_ok p p' : traffic p p' → chans_ok p'.
Proof. by intros [? _]. Qed.

Lemma traffic_set_clock t p : chans_ok p → traffic p (set_clock t p).
Proof. intros H. by split_and!. Qed.

(** *** [run_task] *)

Lemma server_run_task_returns cmd rnnr lt zs log p ms st p1 :
  run_and_judge rnnr lt cmd
    (λ b, Server.on_task_manager (zs_id zs) (write b)) log p = (Ok (ms, st), p1) →
  Server.run_task cmd rnnr lt zs log p =
  (Ok {| task_id := zs_id zs; command := cmd; prompt := zs_prompt zs;
         start := clock p; end_ := clock p1; messages := ms; status := st |}, p1).
Proof.
  intros Hrun. unfold Server.run_task, datetime_now.
  unfold bind at 1. unfold gets at 1. cbv beta iota.
  unfold bind at 1. unfold try_except. unfold bind at 1. rewrite Hrun.
  reflexivity.
Qed.

Lemma server_run_task_caught cmd rnnr lt zs log p e p1 p2 :
  run_and_judge rnnr lt cmd
    (λ b, Server.on_task_manager (zs_id zs) (write b)) log p = (Raise e, p1) →
  log (format_exc e) p1 = (Ok tt, p2) →
  Server.run_task cmd rnnr lt zs log p =
  (Ok {| task_id := zs_id zs; command := cmd; prompt := zs_prompt zs;
         start := clock p; end_ := clock p2; messages := []; status := "error" |}, p2).
Proof.
  intros Hrun Hlog. unfold Server.run_task, datetime_now.
  unfold bind at 1. unfold gets at 1. cbv beta iota.
  unfold bind at 1. unfold try_except. unfold bind at 1. rewrite Hrun.
  unfold bind at 1. rewrite Hlog. reflexivity.
Qed.

Lemma headless_run_task_returns lt cmd rnnr log p ms st p1 :
  run_and_judge rnnr lt cmd DO_NOTHING log p = (Ok (ms, st), p1) →
  Headless.run_task lt cmd rnnr log p =
  (Ok {| task_id := zs_id (to_zero_shot lt); command := cmd;
         prompt := zs_prompt (to_zero_shot lt);
         start := clock p; end_ := clock p1; messages := ms; status := st |}, p1).
Proof.
  intros Hrun. unfold Headless.run_task, datetime_now.
  unfold bind at 1. unfold gets at 1. cbv beta iota zeta.
  unfold bind at 1. unfold try_except. unfold bind at 1. rewrite Hrun.
  reflexivity.
Qed.

Lemma headless_run_task_caught lt cmd rnnr log p e p1 p2 :
  run_and_judge rnnr lt cmd DO_NOTHING log p = (Raise e, p1) →
  log (format_exc e) p1 = (Ok tt, p2) →
  Headless.run_task lt cmd rnnr log p =
  (Ok {| task_id := zs_id (to_zero_shot lt); command := cmd;
         prompt := zs_prompt (to_zero_shot lt);
         start := clock p; end_ := clock p2; messages := []; status := "error" |}, p2).
Proof.
  intros Hrun Hlog. unfold Headless.run_task, datetime_now.
  unfold bind at 1. unfold gets at 1. cbv beta iota zeta.
  unfold bind at 1. unfold try_except. unfold bind at 1. rewrite Hrun.
  unfold bind at 1. rewrite Hlog. reflexivity.
Qed.

(** The callbacks of the served mode return and are traffic. *)
Lemma server_actions_traffic id id' (acts : list action) p :
  chans_ok p → is_Some (task_managers p !! id) →
  ∃ p', for_each (λ a, match a with
                       | Write b => Server.on_task_manager id (write b)
                       | Log s => Server.log id' s
                       | Elapse d => modify (λ p, set_clock (clock p + d) p)
                       end) acts p = (Ok tt, p') ∧
        traffic p p'.
Proof.
  revert p. induction acts as [|a acts IH]; intros p Hok Hid.
  - exists p. split; [done|]. by apply traffic_refl.
  - assert (Hstep : ∃ p1, match a with
                       | Write b => Server.on_task_manager id (write b)
                       | Log s => Server.log id' s
                       | Elapse d => modify (λ p, set_clock (clock p + d) p)
                       end p = (Ok tt, p1) ∧ traffic p p1).
    { destruct a as [b|s|d].
      - destruct (traffic_on_task_manager _ id p (write_quiet b) Hok Hid)
          as ([] & p1 & Hrun & Htr & _). by exists p1.
      - destruct (traffic_write_json
                    {| Server.update_task_id := id'; Server.payload := Server.TaskLogPayload s |}
                    p Hok) as (p1 & Hrun & Htr & _). by exists p1.
      - eexists. split; [done|]. by apply traffic_set_clock. }
    destruct Hstep as (p1 & Hrun1 & Htr1).
    destruct (IH p1 (traffic_chans_ok _ _ Htr1) (traffic_is_Some _ _ _ Htr1 Hid))
      as (p2 & Hrun2 & Htr2).
    exists p2. split; [|by eapply traffic_trans].
    cbn [for_each]. by rewrite (bind_ok _ _ _ _ _ Hrun1).
Qed.

Lemma server_run_and_judge_traffic cmd rnnr lt id id' p :
  chans_ok p → is_Some (task_managers p !! id) →
  ∃ r p', run_and_judge rnnr lt cmd
            (λ b, Server.on_task_manager id (write b)) (Server.log id') p = (r, p') ∧
          traffic p p'.
Proof.
  intros Hok Hid. unfold run_and_judge, runner_run.
  destruct (server_actions_traffic id id' (actions (run rnnr lt cmd)) p Hok Hid)
    as (p' & Hrun & Htr).
  unfold bind at 1. unfold bind at 1. rewrite Hrun.
  destruct (outcome (run rnnr lt cmd)) as [ms|e].
  - unfold ret at 1. unfold bind.
    destruct (to_result_status lt ms) as [st|e]; by eexists _, p'.
  - by eexists _, p'.
Qed.

(** In served mode [run_task] always returns a result, which carries
    the id it was given. *)
Lemma server_run_task_traffic cmd rnnr lt zs id' p :
  chans_ok p → is_Some (task_managers p !! zs_id zs) →
  ∃ r p', Server.run_task cmd rnnr lt zs (Server.log id') p = (Ok r, p') ∧
          task_id r = zs_id zs ∧ traffic p p'.
Proof.
  intros Hok Hid.
  destruct (server_run_and_judge_traffic cmd rnnr lt (zs_id zs) id' p Hok Hid)
    as ([[ms st]|e] & p1 & Hrun & Htr).
  - eexists _, p1. split; [by apply server_run_task_returns|]. by split.
  - destruct (traffic_write_json
                {| Server.update_task_id := id';
                   Server.payload := Server.TaskLogPayload (format_exc e) |}
                p1 (traffic_chans_ok _ _ Htr)) as (p2 & Hlog & Htr2 & _).
    eexists _, p2. split; [by eapply server_run_task_caught|].
    split; [done|]. by eapply traffic_trans.
Qed.

Lemma write_json_history j p :
  chan_inv (updates_manager p) →
  ∃ p', Server.write_json j p = (Ok tt, p') ∧
    _history (updates_manager p') =
      _history (updates_manager p) ++ [Server.json_dumps_utf8 j] ∧
    task_managers p' = task_managers p ∧
    clock p' = clock p.
Proof.
  intros Hinv. unfold Server.write_json, Server.on_updates.
  destruct (write_post (Server.json_dumps_utf8 j)
              (Build_World (updates_manager p) (sockets p)) Hinv)
    as (w' & -> & Hh & _).
  eexists. split; [done|]. by split_and!.
Qed.

(** C2, as the code has it.  When the unit of work of a task raises
    [e], leaving the process in [p1], [run_task] does not raise: it
    passes the formatted trace of [e] to the log callback it was given
    and returns a result with status error, no messages, the task's id,
    the time of entry as start and the time of exit as end.  In headless
    mode the callback hands the trace to the debug logger and no channel
    is touched; in served mode the callback publishes the trace on the
    updates channel, as a log update tagged with the task's id, and the
    task's own channel is left as it was. *)
Theorem run_task_failure_is_caught cmd rnnr lt zs id e p p1 :
  (run_and_judge rnnr lt cmd DO_NOTHING (Headless.log id) p = (Raise e, p1) →
   ∃ r p2, Headless.run_task lt cmd rnnr (Headless.log id) p = (Ok r, p2) ∧
     status r = "error" ∧ messages r = [] ∧
     task_id r = zs_id (to_zero_shot lt) ∧
     start r = clock p ∧ end_ r = clock p2 ∧
     debug_log p2 =
       debug_log p1 ++ [("  task " ++ id ++ " log: " ++ format_exc e)%string] ∧
     updates_manager p2 = updates_manager p1 ∧
     task_managers p2 = task_managers p1) ∧
  (run_and_judge rnnr lt cmd
     (λ b, Server.on_task_manager (zs_id zs) (write b)) (Server.log id) p
     = (Raise e, p1) →
   chan_inv (updates_manager p1) →
   ∃ r p2, Server.run_task cmd rnnr lt zs (Server.log id) p = (Ok r, p2) ∧
     status r = "error" ∧ messages r = [] ∧
     task_id r = zs_id zs ∧
     start r = clock p ∧ end_ r = clock p2 ∧
     _history (updates_manager p2) =
       _history (updates_manager p1) ++
       [Server.json_dumps_utf8
          {| Server.update_task_id := id;
             Server.payload := Server.TaskLogPayload (format_exc e) |}] ∧
     task_managers p2 = task_managers p1).
Proof.
  split.
  - intros Hrun. eexists _, _. split.
    + eapply headless_run_task_caught; [exact Hrun|reflexivity].
    + by split_and!.
  - intros Hrun Hinv.
    destruct (write_json_history
                {| Server.update_task_id := id;
                   Server.payload := Server.TaskLogPayload (format_exc e) |} p1 Hinv)
      as (p2 & Hlog & Hh & Htm & Hclock).
    eexists _, p2. split.
    + eapply server_run_task_caught; [exact Hrun|exact Hlog].
    + by split_and!.
Qed.

(** Task B of the scenario, whose unit of work logs one line and
    raises, in each of the two modes. *)
Lemma run_task_failure_is_caught_witness :
  Examples.headless_failure.1 = Raise (Exception "Traceback: boom") ∧
  ServerExamples.served_failure.1 = Raise (Exception "Traceback: boom") ∧
  (∃ r p2, Headless.run_task (Examples.task "B") Examples.cmd Examples.runner
             (Headless.log "B") Examples.fresh_proc = (Ok r, p2) ∧
           status r = "error" ∧ messages r = [] ∧ start r = 0 ∧ end_ r = clock p2) ∧
  (∃ r p2, Server.run_task Examples.cmd Examples.runner (Examples.task "B")
             (to_zero_shot (Examples.task "B")) (Server.log "B")
             (Server.proc ServerExamples.start) = (Ok r, p2) ∧
           status r = "error" ∧ messages r = [] ∧ start r = 0 ∧ end_ r = clock p2).
Proof.
  split; [vm_compute; reflexivity|]. split; [vm_compute; reflexivity|].
  split.
  - destruct (proj1 (run_task_failure_is_caught Examples.cmd Examples.runner
                       (Examples.task "B") (to_zero_shot (Examples.task "B")) "B"
                       (Exception "Traceback: boom") Examples.fresh_proc
                       Examples.headless_failure.2))
      as (r & p2 & Hrun & Hst & Hms & _ & Hs & He & _); [vm_compute; reflexivity|].
    exists r, p2. by split_and!.
  - destruct (proj2 (run_task_failure_is_caught Examples.cmd Examples.runner
                       (Examples.task "B") (to_zero_shot (Examples.task "B")) "B"
                       (Exception "Traceback: boom") (Server.proc ServerExamples.start)
                       ServerExamples.served_failure.2))
      as (r & p2 & Hrun & Hst & Hms & _ & Hs & He & _).
    + vm_compute; reflexivity.
    + apply (bool_decide_unpack _). vm_compute. exact I.
    + exists r, p2. by split_and!.
Defined.

(** C2 as stated fails: in the scenario of the specification (the unit
    of work of task B logs one line and raises), after [run_task] the
    history of B's own channel is empty; the line and the trace are in
    the history of the updates channel. *)
Lemma failure_trace_not_on_task_channel :
  Examples.failed_run.1 =
    Ok {| task_id := "B"; command := Examples.cmd; prompt := "prompt of B";
          start := 0; end_ := 2; messages := []; status := "error" |} ∧
  _history <$> task_managers Examples.failed_run.2 !! "B" = Some [] ∧
  _history (updates_manager Examples.failed_run.2) =
    [Server.json_dumps_utf8
       {| Server.update_task_id := "B";
          Server.payload := Server.TaskLogPayload "one line" |};
     Server.json_dumps_utf8
       {| Server.update_task_id := "B";
          Server.payload := Server.TaskLogPayload "Traceback: boom" |}].
Proof. by vm_compute. Qed.

End ProcFacts.

(** ** The served coordinator *)

Section ServerFacts.
Import Channel Frame Server ServerInv.
Implicit Types (p : Proc) (c : config).

Lemma traffic_settle p p' : traffic p p' → settle p p'.
Proof.
  intros (Hok & _ & _ & Hu & Ht & He). split_and!; try done.
  - by rewrite Hu.
  - intros id m Hm. specialize (Ht id). rewrite Hm in Ht.
    destruct (task_managers p' !! id) as [m'|]; [|done].
    exists m'. split; [done|]. simpl in Ht. injection Ht as Ht. by rewrite Ht.
  - intros id Hm. specialize (Ht id). rewrite Hm in Ht.
    by destruct (task_managers p' !! id).
Qed.

Lemma settle_refl p : chans_ok p → settle p p.
Proof. intros H. split_and!; try done. intros id m Hm. by exists m. Qed.

Lemma settle_trans p1 p2 p3 : settle p1 p2 → settle p2 p3 → settle p1 p3.
Proof.
  intros (_ & Hu & Ht & Hn & He) (Hok & Hu' & Ht' & Hn' & He'). split_and!; try done.
  - intros H. by apply Hu', Hu.
  - intros id m Hm. destruct (Ht id m Hm) as (m1 & Hm1 & Hc1).
    destruct (Ht' id m1 Hm1) as (m2 & Hm2 & Hc2). exists m2. split; [done|]. tauto.
  - intros id H. by apply Hn', Hn.
  - intros e H. by apply He', He.
Qed.

Lemma settle_is_Some p p' id :
  settle p p' → is_Some (task_managers p !! id) → is_Some (task_managers p' !! id).
Proof. intros (_ & _ & Ht & _) [m Hm]. destruct (Ht id m Hm) as (m' & -> & _). by eexists. Qed.

Lemma settle_all_closed p p' : settle p p' → all_closed p → all_closed p'.
Proof.
  intros (_ & _ & Ht & Hn & _) Hall id m' Hm'.
  destruct (task_managers p !! id) as [m|] eqn:Hm.
  - destruct (Ht id m Hm) as (m1 & Hm1 & Hc). rewrite Hm' in Hm1.
    injection Hm1 as <-. apply Hc. by eapply Hall.
  - rewrite (Hn id Hm) in Hm'. discriminate.
Qed.

(** [close] on a channel that satisfies the invariant. *)
Lemma close_wakes w :
  chan_inv (self w) →
  ∃ w', close w = (Ok tt, w') ∧
    chan_inv (self w') ∧ _is_closed (self w') = true ∧
    (∀ e, is_set (net w) e = true → is_set (net w') e = true) ∧
    (∀ ws e, ws ∈ _websockets (self w) → _disconnect_events (self w) !! ws = Some e →
       is_set (net w') e = true).
Proof.
  intros Hinv. destruct (close_post w Hinv) as (w' & Hrun & _ & Hc & Hs & _ & _ & _ & He).
  exists w'. split_and!; try done.
  - by eapply chan_inv_close.
  - intros e H. apply He. by left.
  - intros ws e Hin Hev. apply He. right. by exists ws.
Qed.

(** [task_managers[id].close()] *)
Lemma close_task_manager id p m :
  chans_ok p → task_managers p !! id = Some m →
  ∃ p' m', Server.on_task_manager id close p = (Ok tt, p') ∧
    settle p p' ∧
    task_results p' = task_results p ∧ done_event p' = done_event p ∧
    updates_manager p' = updates_manager p ∧
    task_managers p' = <[id := m']> (task_managers p) ∧
    _is_closed m' = true ∧
    (∀ ws e, ws ∈ _websockets m → _disconnect_events m !! ws = Some e →
       is_set (sockets p') e = true).
Proof.
  intros [Hu Ht] Hm. unfold Server.on_task_manager. rewrite Hm.
  destruct (close_wakes (Build_World m (sockets p)) (Ht _ _ Hm))
    as (w' & -> & Hinv' & Hc & He & Hwake).
  eexists _, (self w'). split; [done|]. split_and!; try done.
  split_and!; try done.
  - split; [done|]. intros id' m'. cbn [task_managers set_task_managers set_sockets].
    destruct (decide (id' = id)) as [->|Hne].
    + rewrite lookup_insert_eq. by intros [= <-].
    + rewrite lookup_insert_ne by done. apply Ht.
  - intros id' m0 Hm0. cbn [task_managers set_task_managers set_sockets].
    destruct (decide (id' = id)) as [->|Hne].
    + rewrite lookup_insert_eq. by eexists.
    + rewrite lookup_insert_ne by done. by exists m0.
  - intros id' Hnone. cbn [task_managers set_task_managers set_sockets].
    rewrite lookup_insert_ne; [done|]. intros ->. congruence.
Qed.

(** [updates_manager.close()] *)
Lemma close_updates_manager p :
  chans_ok p →
  ∃ p', Server.on_updates close p = (Ok tt, p') ∧
    settle p p' ∧
    task_results p' = task_results p ∧ done_event p' = done_event p ∧
    task_managers p' = task_managers p ∧
    _is_closed (updates_manager p') = true ∧
    (∀ ws e, ws ∈ _websockets (updates_manager p) →
       _disconnect_events (updates_manager p) !! ws = Some e →
       is_set (sockets p') e = true).
Proof.
  intros [Hu Ht]. unfold Server.on_updates.
  destruct (close_wakes (Build_World (updates_manager p) (sockets p)) Hu)
    as (w' & -> & Hinv' & Hc & He & Hwake).
  eexists. split; [done|]. split_and!; try done.
  split_and!; try done.
  intros id m Hm. by exists m.
Qed.

Lemma close_loop l p :
  NoDup l → chans_ok p →
  (∀ id, id ∈ l → is_Some (task_managers p !! id)) →
  ∃ p', for_each (λ id, Server.on_task_manager id close) l p = (Ok tt, p') ∧
    settle p p' ∧
    task_results p' = task_results p ∧ done_event p' = done_event p ∧
    updates_manager p' = updates_manager p ∧
    (∀ id m', id ∈ l → task_managers p' !! id = Some m' → _is_closed m' = true) ∧
    (∀ id, id ∉ l → task_managers p' !! id = task_managers p !! id) ∧
    (∀ id m ws e, id ∈ l → task_managers p !! id = Some m →
       ws ∈ _websockets m → _disconnect_events m !! ws = Some e →
       is_set (sockets p') e = true).
Proof.
  intros Hnd. revert p. induction Hnd as [|x l Hx Hnd IH]; intros p Hok Hdom.
  - exists p. split; [done|]. split_and!; try done.
    + by apply settle_refl.
    + intros id m' Hin. by apply not_elem_of_nil in Hin.
    + intros id m ws e Hin. by apply not_elem_of_nil in Hin.
  - destruct (Hdom x) as [m Hm]; [set_solver|].
    destruct (close_task_manager x p m Hok Hm)
      as (p1 & m1 & Hrun1 & Hset1 & Hr1 & Hd1 & Hu1 & Htm1 & Hc1 & Hw1).
    destruct (IH p1) as (p2 & Hrun2 & Hset2 & Hr2 & Hd2 & Hu2 & Hcl2 & Hsame2 & Hw2).
    { by destruct Hset1. }
    { intros id Hid. eapply settle_is_Some; [done|]. apply Hdom. set_solver. }
    exists p2. split.
    { cbn [for_each]. by rewrite (bind_ok _ _ _ _ _ Hrun1). }
    split_and!; try congruence.
    + by eapply settle_trans.
    + intros id m' [->|Hin]%elem_of_cons Hm'.
      * rewrite (Hsame2 x Hx), Htm1, lookup_insert_eq in Hm'. by injection Hm' as <-.
      * by eapply Hcl2.
    + intros id Hnin. rewrite Hsame2 by set_solver. rewrite Htm1.
      rewrite lookup_insert_ne; [done|]. set_solver.
    + intros id m0 ws e [->|Hin]%elem_of_cons Hm0 Hws Hev.
      * rewrite Hm in Hm0. injection Hm0 as <-.
        destruct Hset2 as (_ & _ & _ & _ & He2). apply He2. by eapply Hw1.
      * eapply (Hw2 id m0); try done. rewrite Htm1.
        rewrite lookup_insert_ne; [done|]. intros ->. done.
Qed.

(** The loop that closes every task channel. *)
Lemma close_task_managers_post p :
  chans_ok p →
  ∃ p', close_task_managers p = (Ok tt, p') ∧
    settle p p' ∧
    task_results p' = task_results p ∧ done_event p' = done_event p ∧
    updates_manager p' = updates_manager p ∧
    all_closed p' ∧
    (∀ id m ws e, task_managers p !! id = Some m →
       ws ∈ _websockets m → _disconnect_events m !! ws = Some e →
       is_set (sockets p') e = true).
Proof.
  intros Hok. unfold close_task_managers, bind, gets. cbv beta iota.
  destruct (close_loop (elements (dom (task_managers p))) p)
    as (p' & Hrun & Hset & Hr & Hd & Hu & Hcl & Hsame & Hw); [apply NoDup_elements|done| |].
  { intros id Hid. apply elem_of_elements in Hid. by apply elem_of_dom. }
  exists p'. split; [done|]. split_and!; try done.
  - intros id m' Hm'. apply (Hcl id); [|done].
    apply elem_of_elements, elem_of_dom.
    destruct (task_managers p !! id) as [m|] eqn:Hm; [by eexists|].
    destruct Hset as (_ & _ & _ & Hn & _). rewrite (Hn id Hm) in Hm'. discriminate.
  - intros id m ws e Hm. apply (Hw id m); [|done].
    apply elem_of_elements, elem_of_dom. by eexists.
Qed.

(** *** Lists of workers *)

Lemma omap_insert_same {A B} (f : A → option B) (l : list A) i x y :
  l !! i = Some x → f y = f x → omap f (<[i := y]> l) = omap f l.
Proof.
  revert i. induction l as [|a l IH]; intros [|i] Hi Hf; simplify_eq/=; [by rewrite Hf|].
  by rewrite (IH i).
Qed.

Lemma omap_insert_new {A B} (f : A → option B) (l : list A) i x y b :
  l !! i = Some x → f x = None → f y = Some b →
  omap f (<[i := y]> l) ≡ₚ b :: omap f l.
Proof.
  revert i. induction l as [|a l IH]; intros [|i] Hi Hx Hy; simplify_eq/=.
  - by rewrite Hx, Hy.
  - destruct (f a) as [b'|]; rewrite (IH i) by done; [apply perm_swap|done].
Qed.

Lemma quiet_calm {A} (c : M World A) : quiet_op c → calm_op c.
Proof. intros H w Hinv. destruct (H w Hinv) as (v & w' & Hrun & Hq). by eexists _, _. Qed.

Lemma wait_calm ws : calm_op (wait_until_disconnect ws).
Proof.
  intros w Hinv. unfold wait_until_disconnect, disconnect_event, bind, gets.
  cbv beta iota.
  destruct (_disconnect_events (self w) !! ws); eexists _, w; (split; [done|]);
    by split_and!.
Qed.

Lemma calm_ret {A} (v : A) : @calm_proc A (ret v).
Proof. intros p r p' Hok [= <- <-]. by apply traffic_refl. Qed.

Lemma calm_bind {A B} (c : M Proc A) (k : A → M Proc B) :
  calm_proc c → (∀ a, calm_proc (k a)) → calm_proc (bind c k).
Proof.
  intros Hc Hk p r p' Hok. unfold bind.
  destruct (c p) as [[a|e] p1] eqn:Hrun.
  - intros Hrun2. pose proof (Hc _ _ _ Hok Hrun) as Htr1.
    eapply traffic_trans; [done|].
    eapply Hk; [|done]. by eapply traffic_chans_ok.
  - intros [= <- <-]. by eapply Hc.
Qed.

Lemma calm_on_updates {A} (c : M World A) : calm_op c → calm_proc (on_updates c).
Proof.
  intros Hc p r p' [Hu Ht]. unfold on_updates.
  destruct (Hc (Build_World (updates_manager p) (sockets p)) Hu)
    as (r1 & w' & -> & Hinv' & Hclosed & Hev).
  intros [= <- <-]. split_and!; try done.
Qed.

Lemma calm_on_task_manager {A} (c : M World A) id :
  calm_op c → calm_proc (on_task_manager id c).
Proof.
  intros Hc p r p' [Hu Ht]. unfold on_task_manager.
  destruct (task_managers p !! id) as [m|] eqn:Hm.
  - destruct (Hc (Build_World m (sockets p)) (Ht _ _ Hm))
      as (r1 & w' & -> & Hinv' & Hclosed & Hev).
    intros [= <- <-]. split_and!; try done.
    + split; [done|]. intros id' m'. cbn [task_managers set_task_managers set_sockets].
      destruct (decide (id' = id)) as [->|Hne].
      * rewrite lookup_insert_eq. by intros [= <-].
      * rewrite lookup_insert_ne by done. apply Ht.
    + intros id'. cbn [task_managers set_task_managers set_sockets].
      destruct (decide (id' = id)) as [->|Hne].
      * rewrite lookup_insert_eq, Hm. simpl. by rewrite Hclosed.
      * by rewrite lookup_insert_ne.
  - intros [= <- <-]. by apply traffic_refl.
Qed.

Lemma logs_calm sock task_id : calm_proc (logs sock task_id).
Proof.
  unfold logs, accept. apply calm_bind; [apply calm_ret|]. intros _.
  apply calm_bind; intros; apply calm_on_task_manager.
  - apply quiet_calm, add_quiet.
  - apply wait_calm.
Qed.

Lemma updates_calm sock : calm_proc (updates sock).
Proof.
  unfold updates, accept. apply calm_bind; [apply calm_ret|]. intros _.
  apply calm_bind; intros; apply calm_on_updates.
  - apply quiet_calm, add_quiet.
  - apply wait_calm.
Qed.

(** [stop] closes the channel of a task of the batch and returns, and
    raises [KeyError] and changes nothing for any other id. *)
Lemma stop_post task_id p :
  chans_ok p →
  match task_managers p !! task_id with
  | Some m =>
      ∃ p', stop task_id p = (Ok true, p') ∧ settle p p' ∧
            task_results p' = task_results p ∧ done_event p' = done_event p
  | None => stop task_id p = (Raise (KeyError (StrKey task_id)), p)
  end.
Proof.
  intros Hok. unfold stop. destruct (task_managers p !! task_id) as [m|] eqn:Hm.
  - destruct (close_task_manager task_id p m Hok Hm)
      as (p1 & m1 & Hrun1 & Hset & Hr1 & Hd1 & _).
    exists p1. by rewrite (bind_ok _ _ _ _ _ Hrun1).
  - unfold bind, on_task_manager. by rewrite Hm.
Qed.

Lemma view_pure all_tasks cmd task_id p r p' :
  view all_tasks cmd task_id p = (r, p') → p' = p.
Proof. unfold view. destruct (zs_map all_tasks !! task_id); by intros [= _ <-]. Qed.

Section Steps.
Variable all_tasks : list LoadedTask.
Variable cmd : OpenInterpreterCommand.
Variable rnnr : BenchmarkRunner.
Variable n_threads : nat.

Lemma unfinished_main_ok p p' ws ws' m i w :
  main_ok (Config p ws m) →
  ws !! i = Some w → is_finished w = false →
  main_ok (Config p' ws' m).
Proof.
  intros Hm Hi Hw.
  assert (Hnot : ¬ Forall (λ w, is_finished w = true) ws).
  { intros Hall. rewrite Forall_lookup in Hall. specialize (Hall i w Hi). congruence. }
  unfold main_ok in *. cbn [main workers proc] in *.
  destruct m; try done; naive_solver.
Qed.

(** A worker moves from [w] to [w'] while the process goes from [p] to
    [p']. *)
Lemma inv_worker p p' ws m i w w' :
  inv all_tasks (Config p ws m) →
  ws !! i = Some w →
  is_finished w = false →
  has_failed w' = false →
  settle p p' →
  task_results p' ≡ₚ omap recorded (<[i := w']> ws) →
  (∀ r lt, result_of w' = Some r → all_tasks !! i = Some lt → task_id r = id_of lt) →
  (done_event p' = true → length all_tasks ≤ length (task_results p')) →
  inv all_tasks (Config p' (<[i := w']> ws) m).
Proof.
  intros (Hok & Hdom & Hun & Hlen & Hperm & Hres & Hnf & Hdone & Hmain)
    Hi Hw Hw' Hset Hperm' Hres' Hdone'.
  unfold inv. cbn [proc workers main] in *. split_and!; try done.
  - by destruct Hset.
  - intros lt Hlt. eapply settle_is_Some; [done|]. by apply Hdom.
  - intros id Hid. destruct Hset as (_ & _ & _ & Hn & _). by apply Hn, Hun.
  - by rewrite length_insert.
  - intros j wj r lt Hj Hr Hlt. destruct (decide (j = i)) as [->|Hne].
    + rewrite list_lookup_insert_eq in Hj by (by eapply lookup_lt_Some).
      injection Hj as <-. by eapply Hres'.
    + rewrite list_lookup_insert_ne in Hj by done. by eapply Hres.
  - apply Forall_insert; [done|done].
  - by eapply unfinished_main_ok.
Qed.

(** The process changes while workers and main thread stay. *)
Lemma inv_proc p p' ws m :
  inv all_tasks (Config p ws m) →
  settle p p' →
  task_results p' = task_results p →
  done_event p' = done_event p →
  inv all_tasks (Config p' ws m).
Proof.
  intros (Hok & Hdom & Hun & Hlen & Hperm & Hres & Hnf & Hdone & Hmain) Hset Hr Hd.
  unfold inv. cbn [proc workers main] in *. split_and!; try done.
  - by destruct Hset.
  - intros lt Hlt. eapply settle_is_Some; [done|]. by apply Hdom.
  - intros id Hid. destruct Hset as (_ & _ & _ & Hn & _). by apply Hn, Hun.
  - by rewrite Hr.
  - by rewrite Hr, Hd.
  - pose proof (settle_all_closed _ _ Hset) as Hall.
    destruct Hset as (_ & Hu & _).
    unfold main_ok in *. cbn [main workers proc] in *.
    destruct m; try done; rewrite ?Hr; naive_solver.
Qed.

Lemma task_in_batch i lt : all_tasks !! i = Some lt → lt ∈ all_tasks.
Proof. intros H. by eapply list_elem_of_lookup_2. Qed.

Lemma traffic_no_flip p p' ws ws' m m' :
  traffic p p' →
  updates_flip (Config p ws m) (Config p' ws' m') ∧
  task_flip all_tasks (Config p ws m) (Config p' ws' m').
Proof.
  intros (_ & _ & _ & Hu & Ht & _). split.
  - intros H1 H2. cbn [proc] in *. congruence.
  - intros id m0 m0' Hm0 Hc Hm0' Hc'. cbn [proc] in *.
    specialize (Ht id). rewrite Hm0, Hm0' in Ht. simpl in Ht. congruence.
Qed.

Lemma same_channels_no_flip p p' ws ws' m m' :
  updates_manager p' = updates_manager p →
  task_managers p' = task_managers p →
  updates_flip (Config p ws m) (Config p' ws' m') ∧
  task_flip all_tasks (Config p ws m) (Config p' ws' m').
Proof.
  intros Hu Ht. split.
  - intros H1 H2. cbn [proc] in *. congruence.
  - intros id m0 m0' Hm0 Hc Hm0' Hc'. cbn [proc] in *. congruence.
Qed.

Lemma set_task_results_settle rs p : chans_ok p → settle p (set_task_results rs p).
Proof. intros H. split_and!; try done. intros id m Hm. by exists m. Qed.

Lemma set_done_event_settle b p : chans_ok p → settle p (set_done_event b p).
Proof. intros H. split_and!; try done. intros id m Hm. by exists m. Qed.

Lemma set_debug_log_settle l p : chans_ok p → settle p (set_debug_log l p).
Proof. intros H. split_and!; try done. intros id m Hm. by exists m. Qed.

(** Every step of the coordinator keeps the invariant, and closes a
    channel only where [updates_flip] and [task_flip] say. *)
Lemma coordinator_step_inv c c' :
  inv all_tasks c →
  coordinator_step all_tasks cmd rnnr n_threads c c' →
  inv all_tasks c' ∧ updates_flip c c' ∧ task_flip all_tasks c c'.
Proof.
  intros Hinv Hstep.
  pose proof Hinv as (Hok & Hdom & Hun & Hlen & Hperm & Hres & Hnf & Hdone & Hmain).
  destruct Hstep as
    [p p' ws m i lt Hi Hfifo Hact Hlt Hrun
    |p p' ws m i lt e Hi Hfifo Hact Hlt Hrun
    |p p' ws m i lt r Hi Hlt Hrun
    |p p' ws m i lt e Hi Hlt Hrun
    |p p' ws m i lt r Hi Hlt Hrun
    |p p' ws m i lt r e Hi Hlt Hrun
    |p p' ws m i r Hi Hrun
    |p p' ws m i lt r Hi Hlt Hrun
    |p p' ws m i lt r e Hi Hlt Hrun
    |p p' ws m i r Hi Hrun
    |p ws Hd
    |p ws Hall
    |p ws Hex
    |p p' ws Hrun
    |p p' ws e Hrun
    |p p' p'' ws Hrun Hlog
    |p p' ws e Hrun
    |p ws
    |p ws m Hm]; cbn [proc workers main] in *.
  - (* start *)
    destruct (traffic_write_json
                {| update_task_id := id_of lt; payload := TaskStartedPayload |} p Hok)
      as (p1 & Hrun1 & Htr & _).
    unfold start in Hrun. rewrite Hrun in Hrun1. injection Hrun1 as <-.
    split; [|by apply traffic_no_flip].
    eapply inv_worker; try done.
    + by apply traffic_settle.
    + destruct Htr as (_ & -> & _). by rewrite (omap_insert_same _ _ _ _ _ Hi).
    + destruct Htr as (_ & -> & -> & _). done.
  - (* start raises *)
    destruct (traffic_write_json
                {| update_task_id := id_of lt; payload := TaskStartedPayload |} p Hok)
      as (p1 & Hrun1 & _).
    unfold start in Hrun. congruence.
  - (* run_task *)
    destruct (server_run_task_traffic cmd rnnr lt (to_zero_shot lt) (id_of lt) p Hok)
      as (r1 & p1 & Hrun1 & Hid & Htr).
    { apply Hdom. by eapply task_in_batch. }
    rewrite Hrun in Hrun1. injection Hrun1 as <- <-.
    split; [|by apply traffic_no_flip].
    eapply inv_worker; try done.
    + by apply traffic_settle.
    + destruct Htr as (_ & -> & _). by rewrite (omap_insert_same _ _ _ _ _ Hi).
    + intros r' lt' [= <-] Hlt'. rewrite Hlt in Hlt'. by injection Hlt' as <-.
    + destruct Htr as (_ & -> & -> & _). done.
  - (* run_task raises *)
    destruct (server_run_task_traffic cmd rnnr lt (to_zero_shot lt) (id_of lt) p Hok)
      as (r1 & p1 & Hrun1 & _).
    { apply Hdom. by eapply task_in_batch. }
    congruence.
  - (* announce *)
    destruct (traffic_write_json
                {| update_task_id := id_of lt; payload := TaskDonePayload (status r) |}
                p Hok) as (p1 & Hrun1 & Htr & _).
    unfold done_announce in Hrun. rewrite Hrun in Hrun1. injection Hrun1 as <-.
    split; [|by apply traffic_no_flip].
    eapply inv_worker; try done.
    + by apply traffic_settle.
    + destruct Htr as (_ & -> & _). by rewrite (omap_insert_same _ _ _ _ _ Hi).
    + intros r' lt' [= <-] Hlt'. by eapply (Hres i (Ran r)).
    + destruct Htr as (_ & -> & -> & _). done.
  - (* announce raises *)
    destruct (traffic_write_json
                {| update_task_id := id_of lt; payload := TaskDonePayload (status r) |}
                p Hok) as (p1 & Hrun1 & _).
    unfold done_announce in Hrun. congruence.
  - (* record *)
    injection Hrun as <-.
    split; [|by apply same_channels_no_flip].
    eapply inv_worker; try done.
    + by apply set_task_results_settle.
    + cbn [task_results set_task_results].
      rewrite (omap_insert_new recorded ws i _ (Recorded r) r Hi) by done.
      rewrite Hperm. by rewrite Permutation_app_comm.
    + intros r' lt' [= <-] Hlt'. by eapply (Hres i (Announced r)).
    + cbn [task_results set_task_results done_event]. intros Hd.
      specialize (Hdone Hd). rewrite length_app. lia.
  - (* close *)
    destruct (Hdom lt (task_in_batch _ _ Hlt)) as [m0 Hm0].
    destruct (close_task_manager (id_of lt) p m0 Hok Hm0)
      as (p1 & m1 & Hrun1 & Hset & Hr1 & Hd1 & Hu1 & Htm1 & Hc1 & Hw1).
    unfold done_close in Hrun. rewrite Hrun in Hrun1. injection Hrun1 as <-.
    split_and!.
    + eapply inv_worker; try done.
      * rewrite Hr1. by rewrite (omap_insert_same _ _ _ _ _ Hi).
      * intros r' lt' [= <-] Hlt'. by eapply (Hres i (Recorded r)).
      * by rewrite Hr1, Hd1.
    + intros H1 H2. cbn [proc] in *. congruence.
    + intros id m2 m2' Hm2 Hc2 Hm2' Hc2'. cbn [proc workers main] in *.
      rewrite Htm1 in Hm2'. destruct (decide (id = id_of lt)) as [->|Hne].
      * rewrite Hm0 in Hm2. injection Hm2 as <-. split; [|done].
        left. by exists i, r, lt.
      * rewrite lookup_insert_ne in Hm2' by done. congruence.
  - (* close raises *)
    destruct (Hdom lt (task_in_batch _ _ Hlt)) as [m0 Hm0].
    destruct (close_task_manager (id_of lt) p m0 Hok Hm0) as (p1 & m1 & Hrun1 & _).
    unfold done_close in Hrun. congruence.
  - (* signal *)
    unfold done_signal, bind, gets in Hrun. cbv beta iota in Hrun.
    split.
    + destruct (decide (length all_tasks ≤ length (task_results p))) as [Hle|Hgt];
        injection Hrun as <-.
      * eapply inv_worker; try done.
        -- by apply set_done_event_settle.
        -- cbn [task_results set_done_event].
           by rewrite (omap_insert_same _ _ _ _ _ Hi).
        -- intros r' lt' [= <-] Hlt'. by eapply (Hres i (Closed r)).
      * eapply inv_worker; try done.
        -- by apply settle_refl.
        -- by rewrite (omap_insert_same _ _ _ _ _ Hi).
        -- intros r' lt' [= <-] Hlt'. by eapply (Hres i (Closed r)).
    + destruct (decide (length all_tasks ≤ length (task_results p)));
        injection Hrun as <-; by apply same_channels_no_flip.
  - (* wake *)
    split; [|by apply same_channels_no_flip]. by split_and!.
  - (* join *)
    split; [|by apply same_channels_no_flip]. by split_and!.
  - (* join raises *)
    split; [|by apply same_channels_no_flip]. by split_and!.
  - (* close the task channels *)
    destruct (close_task_managers_post p Hok)
      as (p1 & Hrun1 & Hset & Hr1 & Hd1 & Hu1 & Hall & Hw1).
    rewrite Hrun in Hrun1. injection Hrun1 as <-.
    split_and!.
    + unfold inv. cbn [proc workers main]. split_and!.
      * by destruct Hset.
      * intros lt Hlt. eapply settle_is_Some; [done|]. by apply Hdom.
      * intros id Hid. destruct Hset as (_ & _ & _ & Hn & _). by apply Hn, Hun.
      * done.
      * by rewrite Hr1.
      * done.
      * done.
      * by rewrite Hr1, Hd1.
      * unfold main_ok in *. cbn [main workers proc] in *. by split.
    + intros H1 H2. cbn [proc] in *. congruence.
    + intros id m2 m2' Hm2 Hc2 Hm2' Hc2'. cbn [proc workers main] in *.
      split; [by right|]. intros ws0 e0. by apply (Hw1 id m2).
  - (* closing the task channels raises *)
    destruct (close_task_managers_post p Hok) as (p1 & Hrun1 & _). congruence.
  - (* close the updates channel *)
    destruct (close_updates_manager p Hok)
      as (p1 & Hrun1 & Hset & Hr1 & Hd1 & Htm1 & Hc1 & Hw1).
    rewrite Hrun in Hrun1. injection Hrun1 as <-. injection Hlog as <-.
    unfold main_ok in Hmain. cbn [main workers proc] in Hmain.
    destruct Hmain as [Hfin Hall].
    split_and!.
    + unfold inv. cbn [proc workers main]. split_and!.
      * by destruct Hset.
      * intros lt Hlt. cbn [task_managers set_debug_log]. rewrite Htm1. by apply Hdom.
      * intros id Hid. cbn [task_managers set_debug_log]. rewrite Htm1. by apply Hun.
      * done.
      * cbn [task_results set_debug_log]. by rewrite Hr1.
      * done.
      * done.
      * cbn [task_results done_event set_debug_log]. by rewrite Hr1, Hd1.
      * unfold main_ok. cbn [main workers proc]. split_and!; try done.
        intros id m0. cbn [task_managers set_debug_log]. rewrite Htm1. apply Hall.
    + intros H1 H2. split; [done|]. intros ws0 e0. cbn [proc sockets set_debug_log].
      apply Hw1.
    + intros id m2 m2' Hm2 Hc2 Hm2' Hc2'. cbn [proc task_managers set_debug_log] in *.
      congruence.
  - (* closing the updates channel raises *)
    destruct (close_updates_manager p Hok) as (p1 & Hrun1 & _). congruence.
  - (* the serving loop is interrupted *)
    split; [|by apply same_channels_no_flip].
    unfold inv. cbn [proc workers main]. split_and!; try done.
    unfold main_ok in *. cbn [main workers proc] in *. naive_solver.
  - (* interrupted elsewhere *)
    split; [|by apply same_channels_no_flip]. by split_and!.
Qed.

Lemma observer_step_inv c c' :
  inv all_tasks c →
  observer_step all_tasks cmd c c' →
  inv all_tasks c'.
Proof.
  intros Hinv Hstep. pose proof Hinv as (Hok & _).
  destruct Hstep as
    [p p' ws m task_id r Hrun
    |p p' ws m sock task_id r Hrun
    |p p' ws m task_id r Hrun
    |p p' ws m r Hrun
    |p p' ws m sock r Hrun
    |p ws m sock
    |p ws m d]; cbn [proc] in *.
  - apply view_pure in Hrun as ->. done.
  - pose proof (logs_calm sock task_id p r p' Hok Hrun) as Htr.
    eapply inv_proc; [done|by apply traffic_settle|..]; by destruct Htr as (_ & ? & ? & _).
  - pose proof (stop_post task_id p Hok) as Hpost.
    destruct (task_managers p !! task_id) as [m0|].
    + destruct Hpost as (p1 & Hrun1 & Hset & Hr1 & Hd1).
      rewrite Hrun in Hrun1. injection Hrun1 as _ <-. by eapply inv_proc.
    + rewrite Hrun in Hpost. by injection Hpost as _ ->.
  - by injection Hrun as _ <-.
  - pose proof (updates_calm sock p r p' Hok Hrun) as Htr.
    eapply inv_proc; [done|by apply traffic_settle|..]; by destruct Htr as (_ & ? & ? & _).
  - eapply inv_proc; [done| |done|done].
    split_and!; try done. intros id m0 Hm0. by exists m0.
  - eapply inv_proc; [done| |done|done].
    split_and!; try done. intros id m0 Hm0. by exists m0.
Qed.

Lemma step_inv c c' :
  inv all_tasks c → step all_tasks cmd rnnr n_threads c c' → inv all_tasks c'.
Proof.
  intros Hinv [Hc|Ho].
  - by destruct (coordinator_step_inv c c' Hinv Hc).
  - by apply (observer_step_inv c c').
Qed.

Lemma rtc_step_inv c c' :
  inv all_tasks c → rtc (step all_tasks cmd rnnr n_threads) c c' → inv all_tasks c'.
Proof. intros Hinv Hrtc. induction Hrtc; eauto using step_inv. Qed.

(** *** The state after submission *)

Lemma new_task_managers_acc (l : list LoadedTask)
    (acc : gmap string WebSocketsManager) (id : string) :
  foldl (λ m lt, <[id_of lt := Channel.init]> m) acc l !! id =
  if decide (id ∈ id_of <$> l) then Some Channel.init else acc !! id.
Proof.
  revert acc. induction l as [|x l IH]; intros acc.
  - cbn [foldl]. rewrite decide_False; [done|]. apply not_elem_of_nil.
  - cbn [foldl]. rewrite IH, fmap_cons.
    destruct (decide (id ∈ id_of <$> l)) as [Hl|Hl].
    + rewrite decide_True; [done|]. set_solver.
    + destruct (decide (id_of x = id)) as [Hx|Hx].
      * rewrite Hx, lookup_insert_eq. rewrite decide_True; [done|]. set_solver.
      * rewrite lookup_insert_ne by done. rewrite decide_False; [done|]. set_solver.
Qed.

Lemma new_task_managers_lookup (id : string) :
  new_task_managers all_tasks !! id =
  if decide (id ∈ id_of <$> all_tasks) then Some Channel.init else None.
Proof. unfold new_task_managers. by rewrite (new_task_managers_acc all_tasks ∅ id). Qed.

Lemma omap_recorded_queued n : omap recorded (replicate n Queued) = [].
Proof. induction n as [|n IH]; [done|]. by cbn [replicate omap recorded]. Qed.

Lemma inv_submitted p0 : inv all_tasks (submitted all_tasks p0).
Proof.
  unfold inv, submitted. cbn [proc workers main]. split_and!.
  - split; [apply chan_inv_init|]. intros id m.
    cbn [task_managers set_done_event set_task_results set_task_managers].
    rewrite new_task_managers_lookup. case_decide; [|done].
    intros [= <-]. apply chan_inv_init.
  - intros lt Hlt. cbn [task_managers set_done_event set_task_results set_task_managers].
    rewrite new_task_managers_lookup. rewrite decide_True; [by eexists|].
    apply list_elem_of_fmap. by exists lt.
  - intros id Hid. cbn [task_managers set_done_event set_task_results set_task_managers].
    rewrite new_task_managers_lookup. rewrite decide_False; [done|].
    intros (lt & Heq & Hin)%list_elem_of_fmap. by apply (Hid lt).
  - by rewrite length_replicate.
  - cbn [task_results set_done_event set_task_results]. by rewrite omap_recorded_queued.
  - intros i w r lt [-> _]%lookup_replicate. done.
  - by apply Forall_replicate.
  - done.
  - done.
Qed.

Lemma inv_reachable p0 c :
  rtc (step all_tasks cmd rnnr n_threads) (submitted all_tasks p0) c →
  inv all_tasks c.
Proof. apply rtc_step_inv, inv_submitted. Qed.

(** *** When every worker has finished *)



Lemma fifo_sound (ws : list worker) i :
  forallb (λ w, negb (is_queued w)) (take i ws) = true →
  ∀ j, j < i → ws !! j ≠ Some Queued.
Proof.
  intros Hall j Hj Hq. rewrite forallb_forall in Hall.
  specialize (Hall Queued). simpl in Hall.
  assert (In Queued (take i ws)); [|by specialize (Hall H)].
  apply list_elem_of_In, list_elem_of_lookup. exists j.
  by rewrite lookup_take_lt.
Qed.

Lemma play_sound mv c c' :
  play all_tasks cmd rnnr n_threads mv c = Some c' →
  coordinator_step all_tasks cmd rnnr n_threads c c'.
Proof.
  destruct c as [p ws m]. destruct mv as [i| |]; cbn [play].
  - unfold worker_moves. cbn [proc workers main].
    destruct (ws !! i) as [w|] eqn:Hi; [|done].
    destruct w as [| |r|r|r|r|r|e]; try done.
    + destruct (all_tasks !! i) as [lt|] eqn:Hlt; [|done].
      destruct (forallb _ _) eqn:Hfifo; [|done]. cbn [andb].
      case_bool_decide as Hact; [|done].
      destruct (start (id_of lt) p) as [[[]|e] p'] eqn:Hrun; intros [= <-].
      * eapply step_start; eauto using fifo_sound.
      * eapply step_start_raise; eauto using fifo_sound.
    + destruct (all_tasks !! i) as [lt|] eqn:Hlt; [|done].
      destruct (run_task _ _ _ _ _ p) as [[r|e] p'] eqn:Hrun; intros [= <-].
      * by eapply step_run.
      * by eapply step_run_raise.
    + destruct (all_tasks !! i) as [lt|] eqn:Hlt; [|done].
      destruct (done_announce _ _ p) as [[[]|e] p'] eqn:Hrun; intros [= <-].
      * by eapply step_announce.
      * by eapply step_announce_raise.
    + assert (Hrun : done_record r p =
                     (Ok tt, set_task_results (task_results p ++ [r]) p)) by done.
      rewrite Hrun.
      destruct (all_tasks !! i); intros [= <-]; by eapply step_record.
    + destruct (all_tasks !! i) as [lt|] eqn:Hlt; [|done].
      destruct (done_close _ p) as [[[]|e] p'] eqn:Hrun; intros [= <-].
      * by eapply step_close.
      * by eapply step_close_raise.
    + destruct (done_signal (length all_tasks) p) as [[[]|e] p'] eqn:Hrun.
      * destruct (all_tasks !! i); intros [= <-]; by eapply step_signal.
      * exfalso. unfold done_signal, bind, gets in Hrun. cbv beta iota in Hrun.
        by case_decide.
  - unfold main_moves. cbn [proc workers main]. destruct m; try done.
    + destruct (done_event p) eqn:Hd; [|done]. intros [= <-]. by apply step_wake.
    + destruct (forallb is_finished ws) eqn:Hfin.
      * intros [= <-]. apply step_join. apply Forall_forall. intros w Hw.
        rewrite forallb_forall in Hfin. apply Hfin. by apply list_elem_of_In.
      * destruct (existsb has_failed ws) eqn:Hex; [|done]. intros [= <-].
        apply step_join_raise. apply existsb_exists in Hex as (w & Hin & Hw).
        apply Exists_exists. exists w. split; [by apply list_elem_of_In|done].
    + destruct (close_task_managers p) as [[[]|e] p'] eqn:Hrun; intros [= <-].
      * by apply step_close_tasks.
      * by eapply step_close_tasks_raise.
    + destruct (on_updates close p) as [[[]|e] p'] eqn:Hrun; intros [= <-].
      * by eapply step_close_updates.
      * by eapply step_close_updates_raise.
  - unfold interrupted. cbn [proc workers main].
    destruct m; try done; intros [= <-];
      first [apply step_interrupt_serving | apply step_interrupt; tauto].
Qed.

Lemma play_all_sound mvs c c' :
  play_all all_tasks cmd rnnr n_threads mvs c = Some c' →
  rtc (step all_tasks cmd rnnr n_threads) c c'.
Proof.
  revert c. induction mvs as [|mv mvs IH]; intros c; cbn [play_all].
  - by intros [= <-].
  - destruct (play _ _ _ _ mv c) as [c1|] eqn:Hplay; [|done].
    intros Hrun. eapply rtc_l; [left; by eapply play_sound|by apply IH].
Qed.


Lemma zs_map_acc (l : list LoadedTask) (acc : gmap string ZeroShotTask) (id : string) :
  id ∉ id_of <$> l →
  foldl (λ m lt, <[zs_id (to_zero_shot lt) := to_zero_shot lt]> m) acc l !! id = acc !! id.
Proof.
  revert acc. induction l as [|x l IH]; intros acc Hid; [done|].
  cbn [foldl]. rewrite fmap_cons in Hid. rewrite IH by set_solver.
  apply lookup_insert_ne. unfold id_of in Hid. set_solver.
Qed.

(** C9, as the code has it.  In every state the served coordinator can
    reach, for an id that no task of the batch has: [view] raises the
    HTTP exception with status 404; [logs] and [stop] raise [KeyError]
    from the subscript [task_managers[task_id]], which no handler of
    theirs catches; and none of the three changes the state of the
    process. *)
Theorem unknown_task_id_requests p0 c task_id sock :
  rtc (step all_tasks cmd rnnr n_threads) (submitted all_tasks p0) c →
  (∀ lt, lt ∈ all_tasks → id_of lt ≠ task_id) →
  view all_tasks cmd task_id (proc c) =
    (Raise (HTTPException 404 ("no task with id '" ++ task_id ++ "'!")%string), proc c) ∧
  logs sock task_id (proc c) = (Raise (KeyError (StrKey task_id)), proc c) ∧
  stop task_id (proc c) = (Raise (KeyError (StrKey task_id)), proc c).
Proof.
  intros Hreach Hid. pose proof (inv_reachable p0 c Hreach) as (_ & _ & Hun & _).
  specialize (Hun task_id Hid). split_and!.
  - unfold view, zs_map. rewrite zs_map_acc; [done|].
    intros (lt & Heq & Hin)%list_elem_of_fmap. by apply (Hid lt).
  - unfold logs, accept, bind, ret, on_task_manager. by rewrite Hun.
  - unfold stop, bind, on_task_manager. by rewrite Hun.
Qed.

(** *** The served coordinator can return *)











End Steps.

(** *** The steps of a pool thread and the wrapped function *)

(** The wrapped function of the served mode is the start callback, then
    [run_task], then the four statements of [done]. *)
Lemma served_app_unfolds cmd rnnr n_tasks lt p :
  app cmd rnnr n_tasks lt p =
  (start (id_of lt) >>>
   let! r := run_task cmd rnnr lt (to_zero_shot lt) (log (id_of lt)) in
   done_announce (id_of lt) r >>>
   done_record r >>>
   done_close (id_of lt) >>>
   done_signal n_tasks >>>
   ret r) p.
Proof.
  unfold app, Lifecycle.wrap, lifecycle, done, id_of.
  cbn [Lifecycle._start_fns Lifecycle._done_fns Lifecycle.add_done_fn
       Lifecycle.add_start_fn Lifecycle.init].
  rewrite !app_nil_l. cbn [for_each]. unfold bind, ret.
  destruct (start _ p) as [[[]|e] p1]; [|done].
  destruct (run_task _ _ _ _ _ p1) as [[r|e] p2]; [|done].
  destruct (done_announce _ r p2) as [[[]|e] p3]; [|done].
  destruct (done_record r p3) as [[[]|e] p4]; [|done].
  destruct (done_close _ p4) as [[[]|e] p5]; [|done].
  by destruct (done_signal n_tasks p5) as [[[]|e] p6].
Qed.

Lemma play_all_cons all_tasks cmd rnnr n_threads mv mvs c c' :
  play_all all_tasks cmd rnnr n_threads (mv :: mvs) c = Some c' →
  ∃ c1, play all_tasks cmd rnnr n_threads mv c = Some c1 ∧
        play_all all_tasks cmd rnnr n_threads mvs c1 = Some c'.
Proof. simpl. destruct (play _ _ _ _ _ _); naive_solver. Qed.

Ltac work_step H p' ws' m' H1 :=
  apply play_all_cons in H as ([p' ws' m'] & H1 & H);
  cbn [play] in H1; unfold worker_moves in H1; cbn [proc workers main] in H1;
  rewrite ?list_insert_insert_eq in H1;
  rewrite ?list_lookup_insert_eq in H1 by done.

Ltac work_stuck H :=
  apply play_all_cons in H as (? & H & _);
  cbn [play] in H; unfold worker_moves in H; cbn [proc workers main] in H;
  rewrite ?list_insert_insert_eq in H;
  rewrite ?list_lookup_insert_eq in H by done.

(** The six steps of the pool thread of task [i], taken in a row from
    the moment it takes the task, have the effect of one call of the
    wrapped function. *)
Lemma worker_moves_refine_app all_tasks cmd rnnr n_threads i lt c c' :
  all_tasks !! i = Some lt →
  workers c !! i = Some Queued →
  play_all all_tasks cmd rnnr n_threads (replicate 6 (Work i)) c = Some c' →
  ∃ r, app cmd rnnr (length all_tasks) lt (proc c) = (Ok r, proc c') ∧
       workers c' = <[i := Finished r]> (workers c) ∧
       main c' = main c.
Proof.
  intros Hlt Hw H. apply lookup_lt_Some in Hw as Hi.
  rewrite served_app_unfolds. destruct c as [p ws m].
  cbn [proc workers main replicate] in *. unfold bind, ret.
  work_step H p1 ws1 m1 H1. rewrite Hw, Hlt in H1.
  destruct (_ && _); [|done].
  destruct (start _ p) as [[[]|e] q1]; injection H1 as <- <- <-;
    [|by work_stuck H].
  work_step H p2 ws2 m2 H1. rewrite Hlt in H1.
  destruct (run_task _ _ _ _ _ q1) as [[r|e] q2]; injection H1 as <- <- <-;
    [|by work_stuck H].
  work_step H p3 ws3 m3 H1. rewrite Hlt in H1.
  destruct (done_announce _ r q2) as [[[]|e] q3]; injection H1 as <- <- <-;
    [|by work_stuck H].
  work_step H p4 ws4 m4 H1.
  destruct (done_record r q3) as [[[]|e] q4]; injection H1 as <- <- <-;
    [|by work_stuck H].
  work_step H p5 ws5 m5 H1. rewrite Hlt in H1.
  destruct (done_close _ q4) as [[[]|e] q5]; injection H1 as <- <- <-;
    [|by work_stuck H].
  work_step H p6 ws6 m6 H1.
  destruct (done_signal _ q5) as [[[]|e] q6] eqn:E; injection H1 as <- <- <-;
    [|unfold done_signal, bind, gets in E; by case_decide].
  rewrite !list_insert_insert_eq in H. by simplify_eq/=; eauto.
Qed.

(** The served coordinator on the empty batch: [done_event] is set only
    by the completion callback of a task, so with no task the main thread
    stays at [done_event.wait()] until it is interrupted, and then
    leaves with the exception: it never returns a list. *)
Lemma served_empty_batch_stuck cmd rnnr n_threads p0 c :
  rtc (step [] cmd rnnr n_threads) (submitted [] p0) c →
  workers c = [] ∧ done_event (proc c) = false ∧
  (main c = Waiting ∨ main c = Aborted).
Proof.
  intros Hreach.
  assert (Hgen : ∀ c0,
    Frame.chans_ok (proc c0) →
    workers c0 = [] ∧ done_event (proc c0) = false ∧
      (main c0 = Waiting ∨ main c0 = Aborted) →
    rtc (step [] cmd rnnr n_threads) c0 c →
    workers c = [] ∧ done_event (proc c) = false ∧
      (main c = Waiting ∨ main c = Aborted)).
  { clear Hreach. intros c0 Hok0 HJ0 Hrtc.
    induction Hrtc as [c0|c0 c1 c2 Hstep Hrtc IH]; [done|].
    destruct HJ0 as (Hws & Hd & Hm).
    assert (Hok1 : Frame.chans_ok (proc c1) ∧
              workers c1 = [] ∧ done_event (proc c1) = false ∧
              (main c1 = Waiting ∨ main c1 = Aborted)); [|naive_solver].
    destruct Hstep as [Hstep|Hstep].
    - inversion Hstep; subst; cbn [proc workers main] in *; subst;
        try (match goal with H : [] !! _ = Some _ |- _ => by rewrite lookup_nil in H end);
        try congruence; try naive_solver.
    - inversion Hstep as
        [p p' ws m task_id r Hrun
        |p p' ws m sock task_id r Hrun
        |p p' ws m task_id r Hrun
        |p p' ws m r Hrun
        |p p' ws m sock r Hrun
        |p ws m sock
        |p ws m d]; subst; cbn [proc workers main] in *.
      + apply view_pure in Hrun as ->. done.
      + pose proof (logs_calm sock task_id p r p' Hok0 Hrun) as (? & _ & Hd' & _).
        split_and!; try done. congruence.
      + pose proof (stop_post task_id p Hok0) as Hpost.
        destruct (task_managers p !! task_id) as [m0|].
        * destruct Hpost as (p1 & Hrun1 & Hset & Hr1 & Hd1).
          rewrite Hrun in Hrun1. injection Hrun1 as _ <-.
          split_and!; try done; [by destruct Hset|congruence].
        * rewrite Hrun in Hpost. by injection Hpost as _ ->.
      + by injection Hrun as _ <-.
      + pose proof (updates_calm sock p r p' Hok0 Hrun) as (? & _ & Hd' & _).
        split_and!; try done. congruence.
      + done.
      + done. }
  apply (Hgen (submitted [] p0)); [|by split_and!; [| |left]|done].
  by destruct (inv_submitted [] p0).
Qed.

End ServerFacts.

Section ServerExampleFacts.
Import Channel Server.



Lemma scenario_reaches_finish :
  rtc (step ServerExamples.batch Examples.cmd Examples.runner 2)
    ServerExamples.start (ServerExamples.after ServerExamples.full_moves).
Proof. apply (play_all_sound _ _ _ _ ServerExamples.full_moves). by vm_compute. Qed.


(** Requests for the id Z while the scenario, whose tasks are A, B and
    C, is under way. *)
Lemma unknown_task_id_requests_witness :
  view ServerExamples.batch Examples.cmd "Z"
       (proc (ServerExamples.after ServerExamples.early_moves)) =
    (Raise (HTTPException 404 "no task with id 'Z'!"),
     proc (ServerExamples.after ServerExamples.early_moves)) ∧
  logs 9 "Z" (proc (ServerExamples.after ServerExamples.early_moves)) =
    (Raise (KeyError (StrKey "Z")),
     proc (ServerExamples.after ServerExamples.early_moves)) ∧
  stop "Z" (proc (ServerExamples.after ServerExamples.early_moves)) =
    (Raise (KeyError (StrKey "Z")),
     proc (ServerExamples.after ServerExamples.early_moves)).
Proof.
  apply (unknown_task_id_requests ServerExamples.batch Examples.cmd Examples.runner 2
           Examples.fresh_proc (ServerExamples.after ServerExamples.early_moves) "Z" 9).
  - apply (play_all_sound _ _ _ _ ServerExamples.early_moves). by vm_compute.
  - intros lt Hlt. unfold ServerExamples.batch in Hlt.
    repeat (apply elem_of_cons in Hlt as [->|Hlt]; [by vm_compute|]).
    by apply elem_of_nil in Hlt.
Defined.

End ServerExampleFacts.

(** ** The headless coordinator *)

Section HeadlessFacts.
Import Headless HeadlessInv.
Implicit Types (p : Proc) (c : config).

Lemma headless_actions_return id (acts : list action) p :
  ∃ p', for_each (λ a, match a with
                       | Write b => DO_NOTHING b
                       | Log s => log id s
                       | Elapse d => modify (λ p, set_clock (clock p + d) p)
                       end) acts p = (Ok tt, p') ∧
        task_results p' = task_results p.
Proof.
  revert p. induction acts as [|a acts IH]; intros p; [by exists p|].
  cbn [for_each]. unfold bind.
  destruct a as [b|s|d]; cbn [DO_NOTHING log logger_debug modify ret].
  - apply IH.
  - destruct (IH (set_debug_log (debug_log p ++ [("  task " ++ id ++ " log: " ++ s)%string]) p))
      as (p' & Hrun & Hr). by exists p'.
  - destruct (IH (set_clock (clock p + d) p)) as (p' & Hrun & Hr). by exists p'.
Qed.

(** In headless mode [run_task] always returns a result, which carries
    the id of the task. *)
Lemma headless_run_task_total lt cmd rnnr id p :
  ∃ r p', run_task lt cmd rnnr (log id) p = (Ok r, p') ∧
          task_id r = zs_id (to_zero_shot lt) ∧
          task_results p' = task_results p.
Proof.
  destruct (headless_actions_return id (actions (run rnnr lt cmd)) p) as (p1 & Hacts & Hr1).
  assert (Hrj : ∃ r, run_and_judge rnnr lt cmd DO_NOTHING (log id) p = (r, p1)).
  { unfold run_and_judge, runner_run. unfold bind at 1. unfold bind at 1.
    rewrite Hacts. destruct (outcome (run rnnr lt cmd)) as [ms|e].
    - unfold ret at 1. unfold bind. destruct (to_result_status lt ms); by eexists.
    - by eexists. }
  destruct Hrj as ([[ms st]|e] & Hrj).
  - eexists _, p1. split; [by apply headless_run_task_returns|]. by split.
  - eexists _, _. split.
    + eapply headless_run_task_caught; [exact Hrj|reflexivity].
    + by split.
Qed.

Lemma headless_app_total cmd rnnr lt p :
  ∃ r p', app cmd rnnr lt p = (Ok r, p') ∧
          task_id r = Server.id_of lt ∧
          task_results p' = task_results p.
Proof.
  unfold app, Lifecycle.wrap, lifecycle.
  cbn [Lifecycle._start_fns Lifecycle._done_fns Lifecycle.add_done_fn
       Lifecycle.add_start_fn Lifecycle.init].
  rewrite !app_nil_l. cbn [for_each].
  destruct (headless_run_task_total lt cmd rnnr (zs_id (to_zero_shot lt))
              (set_debug_log
                 (debug_log p ++
                  [("  task " ++ zs_id (to_zero_shot lt) ++ ": RUNNING...")%string]) p))
    as (r & p1 & Hrun & Hid & Hr).
  eexists r, _. split.
  - unfold bind at 1. unfold bind at 1. unfold start at 1, logger_debug at 1, modify at 1.
    unfold ret at 1. cbv beta iota. unfold bind at 1. rewrite Hrun. reflexivity.
  - split; [done|]. simpl. by rewrite Hr.
Qed.

Section Pool.
Variable all_tasks : list LoadedTask.
Variable cmd : OpenInterpreterCommand.
Variable rnnr : BenchmarkRunner.
Variable n_threads : nat.

Lemma headless_inv_submitted p0 : inv all_tasks (submitted all_tasks n_threads p0).
Proof.
  unfold inv, submitted. cbn [proc futures main]. split_and!; try done.
  - by rewrite length_replicate.
  - cbn [task_results set_debug_log set_task_results].
    induction (length all_tasks) as [|n IH]; [done|]. by cbn [replicate omap collected].
  - intros i f r lt [-> _]%lookup_replicate. done.
  - by apply Forall_replicate.
Qed.

Lemma headless_step_inv c c' :
  inv all_tasks c → step all_tasks cmd rnnr n_threads c c' → inv all_tasks c'.
Proof.
  intros (Hlen & Hperm & Hres & Hnf & Hmain) Hstep.
  destruct Hstep as
    [p fs m i Hi Hfifo Hact
    |p p' fs m i lt r Hi Hlt Hrun
    |p p' fs m i lt e Hi Hlt Hrun
    |p fs i r Hi
    |p fs i e Hi
    |p p' fs Hall Hlog
    |p fs m d]; cbn [proc futures main] in *.
  - (* a thread takes a task *)
    unfold inv. cbn [proc futures main]. split_and!.
    + by rewrite length_insert.
    + by rewrite (omap_insert_same _ _ _ _ _ Hi).
    + intros j f r lt Hj Hr Hlt. destruct (decide (j = i)) as [->|Hne].
      * rewrite list_lookup_insert_eq in Hj by (by eapply lookup_lt_Some).
        by injection Hj as <-.
      * rewrite list_lookup_insert_ne in Hj by done. by eapply Hres.
    + by apply Forall_insert.
    + destruct m; try done. destruct Hmain as [Hall _].
      rewrite Forall_lookup in Hall. by specialize (Hall i _ Hi).
  - (* the wrapped function returns *)
    destruct (headless_app_total cmd rnnr lt p) as (r1 & p1 & Hrun1 & Hid & Hr).
    rewrite Hrun in Hrun1. injection Hrun1 as <- <-.
    unfold inv. cbn [proc futures main]. split_and!.
    + by rewrite length_insert.
    + by rewrite Hr, (omap_insert_same _ _ _ _ _ Hi).
    + intros j f r' lt' Hj Hr' Hlt'. destruct (decide (j = i)) as [->|Hne].
      * rewrite list_lookup_insert_eq in Hj by (by eapply lookup_lt_Some).
        injection Hj as <-. injection Hr' as <-. congruence.
      * rewrite list_lookup_insert_ne in Hj by done. by eapply Hres.
    + by apply Forall_insert.
    + destruct m; try done. destruct Hmain as [Hall _].
      rewrite Forall_lookup in Hall. by specialize (Hall i _ Hi).
  - (* the wrapped function raises: impossible *)
    destruct (headless_app_total cmd rnnr lt p) as (r1 & p1 & Hrun1 & _). congruence.
  - (* the main thread collects a result *)
    unfold inv. cbn [proc futures main task_results set_task_results]. split_and!.
    + by rewrite length_insert.
    + rewrite (omap_insert_new collected fs i _ (Collected r) r Hi) by done.
      by rewrite Hperm, Permutation_app_comm.
    + intros j f r' lt' Hj Hr' Hlt'. destruct (decide (j = i)) as [->|Hne].
      * rewrite list_lookup_insert_eq in Hj by (by eapply lookup_lt_Some).
        injection Hj as <-. injection Hr' as <-. by eapply (Hres i (Finished r)).
      * rewrite list_lookup_insert_ne in Hj by done. by eapply Hres.
    + by apply Forall_insert.
    + done.
  - (* a failed future: impossible *)
    rewrite Forall_lookup in Hnf. by specialize (Hnf i _ Hi).
  - (* the main thread returns *)
    injection Hlog as <-.
    unfold inv. cbn [proc futures main task_results set_debug_log]. by split_and!.
  - (* time passes *)
    unfold inv. cbn [proc futures main task_results set_clock]. split_and!; try done.
Qed.

Lemma headless_inv_reachable p0 c :
  rtc (step all_tasks cmd rnnr n_threads) (submitted all_tasks n_threads p0) c →
  inv all_tasks c.
Proof.
  intros Hrtc. pose proof (headless_inv_submitted p0) as Hinv.
  induction Hrtc; eauto using headless_step_inv.
Qed.

Lemma collected_results fs :
  Forall (λ f, is_collected f = true) fs →
  length (omap collected fs) = length fs ∧
  ∀ i r, omap collected fs !! i = Some r ↔ fs !! i = Some (Collected r).
Proof.
  induction 1 as [|f fs Hf Hall [IHlen IH]]; [done|].
  destruct f; try discriminate.
  change (omap collected (Collected r :: fs)) with (r :: omap collected fs).
  split; [cbn [length]; by rewrite IHlen|].
  intros [|i] r'; [|apply IH]. cbn [lookup list_lookup]. naive_solver.
Qed.

(** What the headless coordinator returns: one result per submitted
    task, with the ids of the submitted tasks in some order. *)
Lemma headless_returns_all p0 c rs :
  rtc (step all_tasks cmd rnnr n_threads) (submitted all_tasks n_threads p0) c →
  main c = Returned rs →
  length rs = length all_tasks ∧
  task_id <$> rs ≡ₚ Server.id_of <$> all_tasks.
Proof.
  intros Hreach Hrs.
  destruct (headless_inv_reachable p0 c Hreach) as (Hlen & Hperm & Hres & _ & Hmain).
  rewrite Hrs in Hmain. destruct Hmain as [Hall ->].
  destruct (collected_results _ Hall) as [Hl Hlook].
  split; [by rewrite Hperm, Hl|]. rewrite Hperm.
  assert (task_id <$> omap collected (futures c) = Server.id_of <$> all_tasks) as ->;
    [|done].
  apply list_eq_same_length with (length all_tasks);
    [by rewrite length_fmap|rewrite length_fmap; congruence|].
  intros i x y Hi. rewrite !list_lookup_fmap.
  destruct (omap collected (futures c) !! i) as [r|] eqn:Hr; [|done].
  destruct (all_tasks !! i) as [lt|] eqn:Hlt; [|done].
  intros [= <-] [= <-]. apply Hlook in Hr. by eapply (Hres i (Collected r)).
Qed.

Lemma measure_insert p p' fs m i f f' :
  fs !! i = Some f →
  measure (Config p' (<[i := f']> fs) m) + weight f =
  measure (Config p fs m) + weight f'.
Proof.
  intros Hi. unfold measure. cbn [futures main].
  pose proof (sum_list_fmap_insert weight fs i f f' Hi). lia.
Qed.

Lemma no_running (fs : list future) :
  ¬ Exists (λ f, is_running f = true) fs →
  length (filter (λ f, is_running f = true) fs) = 0.
Proof.
  intros Hno. induction fs as [|f fs IH]; [done|].
  rewrite filter_cons. case_decide as Hf.
  - exfalso. apply Hno. by left.
  - apply IH. intros H. apply Hno. by right.
Qed.

(** While the main thread has not returned some thread can take a step,
    and the step leaves less to do. *)
Lemma headless_progress c :
  0 < n_threads →
  inv all_tasks c → main c = Collecting →
  ∃ c', step all_tasks cmd rnnr n_threads c c' ∧ measure c' < measure c.
Proof.
  intros Hn (Hlen & Hperm & Hres & Hnf & _) Hm. destruct c as [p fs m].
  cbn [proc futures main] in *. subst m.
  destruct (decide (Exists (λ f, is_running f = true) fs)) as [Hrun|Hnorun].
  { apply Exists_exists in Hrun as (f & Hin & Hf). destruct f; try discriminate.
    apply list_elem_of_lookup in Hin as [i Hi].
    destruct (all_tasks !! i) as [lt|] eqn:Hlt.
    2: { apply lookup_ge_None in Hlt. apply lookup_lt_Some in Hi. lia. }
    destruct (headless_app_total cmd rnnr lt p) as (r & p' & Happ & _).
    eexists. split; [by eapply step_run|].
    pose proof (measure_insert p p' fs Collecting i Running (Finished r) Hi) as Hms.
    cbn [weight] in Hms. lia. }
  destruct (list_find (λ f, is_queued f = true) fs) as [[i f]|] eqn:Hfind.
  { apply list_find_Some in Hfind as (Hi & Hf & Hfirst).
    destruct f; try discriminate.
    eexists. split.
    - apply step_take; [exact Hi| |].
      + intros j Hj Hq. by apply (Hfirst j Queued).
      + rewrite no_running by done. lia.
    - pose proof (measure_insert p p fs Collecting i Queued Running Hi) as Hms.
      cbn [weight] in Hms. lia. }
  apply list_find_None in Hfind.
  destruct (decide (Exists (λ f, is_finished f = true) fs)) as [Hfin|Hnofin].
  { apply Exists_exists in Hfin as (f & Hin & Hf). destruct f; try discriminate.
    apply list_elem_of_lookup in Hin as [i Hi].
    eexists. split; [by eapply step_collect|].
    pose proof (measure_insert p (set_task_results (task_results p ++ [r]) p)
                  fs Collecting i (Finished r) (Collected r) Hi) as Hms.
    cbn [weight] in Hms. lia. }
  eexists. split.
  - apply step_return; [|reflexivity].
    apply Forall_forall. intros f Hin.
    rewrite Forall_forall in Hnf, Hfind. specialize (Hnf f Hin). specialize (Hfind f Hin).
    destruct f; try done.
    + exfalso. apply Hnorun. apply Exists_exists. by exists Running.
    + exfalso. apply Hnofin. apply Exists_exists. by eexists (Finished r).
  - unfold measure. cbn [futures main]. lia.
Qed.

(** From every state it reaches, the headless coordinator can go on to
    return, whatever the number of tasks, on a pool of at least one
    thread. *)
Lemma headless_can_return p0 c :
  0 < n_threads →
  rtc (step all_tasks cmd rnnr n_threads) (submitted all_tasks n_threads p0) c →
  ∃ c' rs, rtc (step all_tasks cmd rnnr n_threads) c c' ∧ main c' = Returned rs.
Proof.
  intros Hn Hreach. pose proof (headless_inv_reachable p0 c Hreach) as Hinv. clear Hreach.
  remember (S (measure c)) as k eqn:Hk.
  assert (Hlt : measure c < k) by lia. clear Hk.
  revert c Hinv Hlt. induction k as [|k IH]; intros c Hinv Hlt; [lia|].
  destruct (main c) as [|rs|e] eqn:Hm.
  - destruct (headless_progress c Hn Hinv Hm) as (c1 & Hstep & Hless).
    destruct (IH c1) as (c' & rs & Hrtc & Hret); [by eapply headless_step_inv|lia|].
    exists c', rs. split; [by eapply rtc_l|done].
  - by exists c, rs.
  - destruct Hinv as (_ & _ & _ & _ & Hmain). by rewrite Hm in Hmain.
Qed.

End Pool.

(** The headless coordinator returns the empty list on the empty
    batch. *)
Lemma headless_empty_batch cmd rnnr n_threads p0 :
  ∃ c', step [] cmd rnnr n_threads (submitted [] n_threads p0) c' ∧
        main c' = Returned [].
Proof.
  eexists. split.
  - unfold submitted. cbn [length replicate].
    eapply (step_return [] cmd rnnr n_threads); [done|reflexivity].
  - reflexivity.
Qed.

End HeadlessFacts.

(** C1 on the empty batch.  The headless coordinator returns the empty
    list in one step.  The served coordinator never returns: whatever
    the observers do, the main thread is at [done_event.wait()] with the
    event not set, or has been left by a [KeyboardInterrupt]. *)
Theorem empty_batch_headless_returns_served_waits cmd rnnr n_threads p0 :
  (∃ c', Headless.step [] cmd rnnr n_threads (Headless.submitted [] n_threads p0) c' ∧
         Headless.main c' = Headless.Returned []) ∧
  (∀ c, rtc (Server.step [] cmd rnnr n_threads) (Server.submitted [] p0) c →
     done_event (Server.proc c) = false ∧
     (Server.main c = Server.Waiting ∨ Server.main c = Server.Aborted) ∧
     ∀ rs, Server.main c ≠ Server.Returned rs).
Proof.
  split; [apply headless_empty_batch|].
  intros c Hreach.
  destruct (served_empty_batch_stuck cmd rnnr n_threads p0 c Hreach) as (_ & Hd & Hm).
  split_and!; [done|done|]. intros rs Hrs. destruct Hm; congruence.
Qed.

(** The served coordinator on the empty batch after a
    [KeyboardInterrupt]. *)
Lemma empty_batch_headless_returns_served_waits_witness :
  rtc (Server.step [] Examples.cmd Examples.runner 2)
      (Server.submitted [] Examples.fresh_proc) ServerExamples.empty_interrupted ∧
  done_event (Server.proc ServerExamples.empty_interrupted) = false ∧
  ∀ rs, Server.main ServerExamples.empty_interrupted ≠ Server.Returned rs.
Proof.
  assert (H : rtc (Server.step [] Examples.cmd Examples.runner 2)
                (Server.submitted [] Examples.fresh_proc) ServerExamples.empty_interrupted).
  { apply rtc_once. left. apply Server.step_interrupt. by left. }
  split; [exact H|].
  destruct (proj2 (empty_batch_headless_returns_served_waits
                     Examples.cmd Examples.runner 2 Examples.fresh_proc) _ H)
    as (Hd & _ & Hr).
  by split.
Defined.

(** * Further properties of the code *)

(** ** Lifecycle hooks *)

Section WrapFacts.
Import Lifecycle.
Context {W Args Result : Type}.

Lemma for_each_raises {A} (body : A → M W unit) pre x post w w1 e w2 :
  for_each body pre w = (Ok tt, w1) →
  body x w1 = (Raise e, w2) →
  for_each body (pre ++ x :: post) w = (Raise e, w2).
Proof.
  intros Hpre Hx. rewrite (for_each_app _ _ _ _ _ Hpre). cbn [for_each].
  by rewrite (bind_raise _ _ _ _ _ Hx).
Qed.

(** X1.  The wrapped unit of work stops at the first exception.  When a
    start callback raises, the callbacks after it and the unit of work
    are not run.  When the unit of work raises, no completion callback
    runs.  When a completion callback raises, the callbacks after it are
    not run and the result the unit of work produced is lost.  Each
    time the wrapped unit raises that exception, leaving the world as
    the raising call left it. *)
Theorem wrap_stops_at_first_exception script (fn : Args → M W Result) args w w1 e w2 :
  (∀ pre c post,
     start_fns_of script = pre ++ c :: post →
     runs_in_order pre w w1 → c w1 = (Raise e, w2) →
     wrap (registered script) fn args w = (Raise e, w2)) ∧
  (runs_in_order (start_fns_of script) w w1 →
   fn args w1 = (Raise e, w2) →
   wrap (registered script) fn args w = (Raise e, w2)) ∧
  (∀ r w3 w4 pre d post,
     runs_in_order (start_fns_of script) w w1 →
     fn args w1 = (Ok r, w3) →
     done_fns_of script = pre ++ d :: post →
     runs_in_order ((λ dfn, dfn r) <$> pre) w3 w4 → d r w4 = (Raise e, w2) →
     wrap (registered script) fn args w = (Raise e, w2)).
Proof.
  split_and!.
  - intros pre c post Hsplit Hpre Hc. unfold wrap.
    rewrite registered_start_fns, Hsplit.
    apply bind_raise. eapply for_each_raises; [|exact Hc].
    by apply runs_in_order_for_each.
  - apply wrap_unit_raises.
  - intros r w3 w4 pre d post Hs Hfn Hsplit Hpre Hd. unfold wrap.
    rewrite registered_start_fns, registered_done_fns.
    rewrite (bind_ok _ _ _ _ _ (runs_in_order_for_each _ _ _ Hs)).
    rewrite (bind_ok _ _ _ _ _ Hfn). apply bind_raise.
    rewrite Hsplit. eapply for_each_raises; [|exact Hd].
    apply runs_in_order_for_each in Hpre. by rewrite for_each_fmap in Hpre.
Qed.
End WrapFacts.

(** ** The channel under interleaving *)

Section LockFacts.
Import Channel Locking.

Lemma threads_ok_step c c' : threads_ok c → step c c' → threads_ok c'.
Proof.
  intros Hth Hstep. destruct Hstep as
    [w ts i o os Hi
    |w w' l ts i ins rest os Hi Hne Hexec
    |w w' l ts i ins rest os e Hi Hexec
    |w l ts i rest os Hi
    |w w' l ts ws Hdis].
  - destruct Hth as [Ha Hb]. split; cbn [lock threads] in *.
    + intros j tj Hj Hcur. destruct (decide (j = i)) as [->|Hneq]; [done|].
      rewrite list_lookup_insert_ne in Hj by done.
      by specialize (Ha j tj Hj Hcur).
    + intros j [= <-]. eexists. split.
      * apply list_lookup_insert_eq. by eapply lookup_lt_Some.
      * apply section_shape_body.
  - destruct (threads_ok_holder _ _ _ _ _ _ _ Hth Hi) as [-> Hshape].
    eapply threads_ok_insert_holder; [done|done|]. by eapply section_shape_tail.
  - eapply threads_ok_insert_idle; [done|done|]. by left.
  - destruct (threads_ok_holder _ _ _ _ _ _ _ Hth Hi) as [-> Hshape].
    apply section_shape_release in Hshape as ->.
    eapply threads_ok_insert_idle; [done|done|]. by left.
  - destruct Hth as [Ha Hb]. by split.
Qed.

(** X2.  The lock serialises the calls.  Threads that call [add], [write]
    and [close] on one channel in any interleaving, starting with the
    lock free and no call under way: at every moment at most one thread
    is inside a method body, that thread is the holder of the lock, what
    it has left to run is the rest of one method body, and while the
    lock is free no thread is inside a body. *)
Theorem lock_serialises_calls c0 c :
  lock c0 = None →
  Forall (λ t, cur t = []) (threads c0) →
  rtc step c0 c →
  (∀ i t, threads c !! i = Some t → cur t ≠ [] → lock c = Some i) ∧
  (∀ i j ti tj, threads c !! i = Some ti → threads c !! j = Some tj →
     cur ti ≠ [] → cur tj ≠ [] → i = j) ∧
  (∀ i, lock c = Some i →
     ∃ t o, threads c !! i = Some t ∧ cur t ≠ [] ∧ cur t `suffix_of` body o) ∧
  (lock c = None → Forall (λ t, cur t = []) (threads c)).
Proof.
  intros Hlock Hidle Hrtc.
  assert (Hth : threads_ok c).
  { assert (H0 : threads_ok c0).
    { split.
      - intros i t Hi Hcur. rewrite Forall_lookup in Hidle. by specialize (Hidle i t Hi).
      - intros i Hi. congruence. }
    clear Hlock Hidle. induction Hrtc as [|c1 c2 c3 Hstep _ IH]; [done|].
    apply IH. by eapply threads_ok_step. }
  destruct Hth as [Ha Hb]. split_and!.
  - done.
  - intros i j ti tj Hi Hj Hci Hcj.
    pose proof (Ha i ti Hi Hci) as H1. pose proof (Ha j tj Hj Hcj) as H2. congruence.
  - intros i Hi. destruct (Hb i Hi) as (t & Ht & Hshape). exists t.
    unfold section_shape in Hshape.
    destruct Hshape as [[ws [->| ->]]|[[bs [->| ->]]|[->|[->| ->]]]].
    + exists (Add ws). split_and!; [done|done|]. by exists [].
    + exists (Add ws). split_and!; [done|done|]. by exists [Register ws].
    + exists (Write bs). split_and!; [done|done|]. by exists [].
    + exists (Write bs). split_and!; [done|done|]. by exists [Append bs].
    + exists Close. split_and!; [done|done|]. by exists [].
    + exists Close. split_and!; [done|done|]. by exists [Signal].
    + exists Close. split_and!; [done|done|]. by exists [Signal; Mark].
  - intros Hfree. apply Forall_lookup. intros i t Hi.
    destruct (cur t) as [|ins rest] eqn:Hcur; [done|].
    assert (Hne : cur t ≠ []) by by rewrite Hcur.
    pose proof (Ha i t Hi Hne). congruence.
Qed.
End LockFacts.

Section ChannelSafety.
Import Channel Locking.

(** One statement of a method body, run on a channel that satisfies the
    invariant: it returns, keeps the invariant, and only extends the
    history, the closed flag and the events that are set. *)
Lemma exec_keeps_inv ins w :
  chan_inv (self w) →
  ∃ w', exec ins w = (Ok tt, w') ∧ chan_inv (self w') ∧
        _history (self w) `prefix_of` _history (self w') ∧
        (_is_closed (self w) = true → _is_closed (self w') = true) ∧
        (∀ e, is_set (net w) e = true → is_set (net w') e = true).
Proof.
  intros Hinv. destruct ins as [ws|ws|bs|bs| | |]; cbn [exec].
  - rewrite add_register_eq. eexists. split; [done|]. cbn [self net]. split_and!.
    + by apply chan_inv_register.
    + done.
    + done.
    + intros e He. rewrite is_set_set_event. case_decide as Heq; [|done].
      subst e. unfold is_set in He.
      destruct (events (net w) !! fresh (dom (events (net w)))) eqn:Hl; [|done].
      exfalso. apply (is_fresh (dom (events (net w)))). apply elem_of_dom. by eexists.
  - rewrite add_replay_eq. eexists. split; [done|]. case_decide; [done|].
    cbn [self net]. split_and!; try done.
    intros e He. unfold is_set. by rewrite events_deliver_all.
  - eexists. split; [done|]. cbn. split_and!; try done; by apply prefix_app_r.
  - destruct (write_broadcast_post bs w Hinv)
      as (w' & Hrun & Hh & Hc & Hs & Hd & _ & _ & He).
    exists w'. split; [done|]. split_and!.
    + intros ws Hin. rewrite Hs in Hin. apply elem_of_difference in Hin as [Hin Hlive].
      rewrite Hd. rewrite decide_False by tauto. by apply Hinv.
    + by rewrite Hh.
    + by rewrite Hc.
    + intros e Hset. apply He. by left.
  - rewrite close_signal_eq by done. eexists. split; [done|]. cbn [self net].
    split_and!; try done.
    intros e Hset. by apply signalled_fields; left.
  - eexists. split; [done|]. cbn. split_and!; try done; intros ws Hin; set_solver.
  - exists w. by split_and!.
Qed.

Lemma disconnect_keeps_inv ws w w' :
  disconnect ws w = (Ok tt, w') →
  self w' = self w ∧ ∀ e, is_set (net w') e = is_set (net w) e.
Proof. intros [= <-]. done. Qed.

(** X3.  Threads that call [add], [write] and [close] on one channel in
    any interleaving, while connections go away at any moment: from a
    channel that satisfies the invariant (a new channel does), no
    statement of a method body ever raises, so no subscript of
    [_disconnect_events] in [close] or [_remove] meets a missing key and
    no [remove] on [_websockets] a missing element. *)
Theorem channel_statements_never_raise c0 c :
  chan_inv (self (world c0)) →
  rtc step c0 c →
  chan_inv (self (world c)) ∧
  ∀ i ins rest os,
    threads c !! i = Some (Thread (ins :: rest) os) →
    ∃ w', exec ins (world c) = (Ok tt, w').
Proof.
  intros Hinv Hrtc.
  assert (Hc : chan_inv (self (world c))).
  { induction Hrtc as [|c1 c2 c3 Hstep _ IH]; [done|]. apply IH.
    destruct Hstep as [w ts i o os Hi|w w' l ts i ins rest os Hi Hne Hrun
                      |w w' l ts i ins rest os e Hi Hrun|w l ts i rest os Hi
                      |w w' l ts ws Hrun]; cbn [world] in *; try done.
    - destruct (exec_keeps_inv ins w Hinv) as (w1 & Hrun1 & Hinv1 & _).
      rewrite Hrun in Hrun1. by injection Hrun1 as <-.
    - destruct (exec_keeps_inv ins w Hinv) as (w1 & Hrun1 & _). congruence.
    - apply disconnect_keeps_inv in Hrun as [-> _]. done. }
  split; [done|]. intros i ins rest os _.
  destruct (exec_keeps_inv ins (world c) Hc) as (w' & Hrun & _). by exists w'.
Qed.

(** X4.  Under the same interleavings the history only grows at its
    end, a closed channel is never reopened, and a disconnect event
    that is set is never cleared. *)
Theorem channel_state_only_advances c0 c :
  chan_inv (self (world c0)) →
  rtc step c0 c →
  _history (self (world c0)) `prefix_of` _history (self (world c)) ∧
  (_is_closed (self (world c0)) = true → _is_closed (self (world c)) = true) ∧
  (∀ e, is_set (net (world c0)) e = true → is_set (net (world c)) e = true).
Proof.
  intros Hinv Hrtc. induction Hrtc as [|c1 c2 c3 Hstep _ IH]; [done|].
  assert (Hstep1 : chan_inv (self (world c2)) ∧
            _history (self (world c1)) `prefix_of` _history (self (world c2)) ∧
            (_is_closed (self (world c1)) = true → _is_closed (self (world c2)) = true) ∧
            (∀ e, is_set (net (world c1)) e = true → is_set (net (world c2)) e = true)).
  { destruct Hstep as [w ts i o os Hi|w w' l ts i ins rest os Hi Hne Hrun
                      |w w' l ts i ins rest os e Hi Hrun|w l ts i rest os Hi
                      |w w' l ts ws Hrun]; cbn [world] in *.
    - by split_and!.
    - destruct (exec_keeps_inv ins w Hinv) as (w1 & Hrun1 & Hpost).
      rewrite Hrun in Hrun1. by injection Hrun1 as <-.
    - destruct (exec_keeps_inv ins w Hinv) as (w1 & Hrun1 & _). congruence.
    - by split_and!.
    - apply disconnect_keeps_inv in Hrun as [Hs He]. rewrite Hs.
      split_and!; try done. intros e. by rewrite He. }
  destruct Hstep1 as (Hinv2 & Hh & Hcl & He).
  destruct (IH Hinv2) as (Hh' & Hcl' & He').
  split_and!; [by etrans|tauto|auto].
Qed.

(** X5.  [close] is idempotent: on a channel that was just closed a
    second [close] returns and changes nothing. *)
Theorem close_is_idempotent w :
  chan_inv (self w) →
  ∃ w', close w = (Ok tt, w') ∧ close w' = (Ok tt, w') ∧
        _is_closed (self w') = true ∧ _websockets (self w') = ∅ ∧
        _history (self w') = _history (self w).
Proof.
  intros Hinv.
  destruct (close_post w Hinv) as (w' & Hrun & Hh & Hc & Hs & _).
  exists w'. split; [done|]. split; [|done].
  destruct w' as [[h s d cl] n]. cbn in Hc, Hs. subst.
  unfold close, close_signal, close_mark, bind, gets. cbn.
  rewrite elements_empty. done.
Qed.

(** X6.  [add] is not idempotent.  Attaching a websocket that is already
    attached replays the whole history to it once more and replaces its
    disconnect event by a new one; the old event, on which the first
    [wait_until_disconnect] suspended, is no longer reachable from the
    channel, and a later [close] sets the new event only. *)
Theorem add_again_replays_and_orphans_event ws e w :
  chan_inv (self w) →
  _disconnect_events (self w) !! ws = Some e →
  (∀ ws', _disconnect_events (self w) !! ws' = Some e → ws' = ws) →
  e ∈ dom (events (net w)) →
  is_set (net w) e = false →
  ∃ w1 e1 w2,
    add ws w = (Ok tt, w1) ∧ close w1 = (Ok tt, w2) ∧
    e1 ≠ e ∧
    _disconnect_events (self w1) !! ws = Some e1 ∧
    (ws ∉ dead (net w) →
       received (net w1) ws = received (net w) ws ++ _history (self w)) ∧
    is_set (net w2) e1 = true ∧
    is_set (net w2) e = false.
Proof.
  intros Hinv Hev Hown Hdom Hunset.
  destruct (add_post ws w) as (w1 & Hadd & Hh1 & Hc1 & Hs1 & Hd1 & _ & Hr1 & He1).
  assert (Hinv1 : chan_inv (self w1)) by by eapply chan_inv_add.
  destruct (close_post w1 Hinv1) as (w2 & Hclose & _ & _ & _ & _ & _ & _ & He2).
  set (e1 := fresh (dom (events (net w)))) in *.
  assert (Hne : e1 ≠ e).
  { intros Heq. apply (is_fresh (dom (events (net w)))). fold e1. by rewrite Heq. }
  exists w1, e1, w2. split_and!; try done.
  - rewrite Hd1. apply lookup_insert_eq.
  - intros Hlive. rewrite Hr1. by rewrite decide_True.
  - apply He2. right. exists ws. split; [rewrite Hs1; set_solver|].
    rewrite Hd1. apply lookup_insert_eq.
  - destruct (is_set (net w2) e) eqn:Hset; [|done]. exfalso.
    apply He2 in Hset as [Hset|(ws' & Hin & Hl)].
    + rewrite He1 in Hset. congruence.
    + rewrite Hd1 in Hl. destruct (decide (ws' = ws)) as [->|Hneq].
      * rewrite lookup_insert_eq in Hl. by injection Hl.
      * rewrite lookup_insert_ne in Hl by done. by apply Hneq, Hown.
Qed.

End ChannelSafety.

(** ** The bytes of an update *)

Section JsonFacts.
Import Server JsonReader.



Lemma string_app_inj_l (a b c : string) : (a ++ b = a ++ c)%string → b = c.
Proof. apply String.app_inj. Qed.










End JsonFacts.

(** ** One task from start to end *)

Section RunTaskFacts.
Import Channel Frame Effects.

Lemma task_write_effect id bs p m :
  chans_ok p → task_managers p !! id = Some m →
  ∃ p' m', Server.on_task_manager id (write bs) p = (Ok tt, p') ∧
    chans_ok p' ∧
    task_managers p' = <[id := m']> (task_managers p) ∧
    _history m' = _history m ++ [bs] ∧
    _is_closed m' = _is_closed m ∧
    updates_manager p' = updates_manager p ∧
    clock p' = clock p ∧ debug_log p' = debug_log p ∧
    task_results p' = task_results p ∧ done_event p' = done_event p.
Proof.
  intros [Hu Ht] Hm. unfold Server.on_task_manager. rewrite Hm.
  destruct (write_post bs (Build_World m (sockets p)) (Ht _ _ Hm))
    as (w' & Hrun & Hh & Hc & _).
  rewrite Hrun. eexists _, (self w'). split; [done|]. split_and!; try done.
  split; [done|]. intros id' m'. cbn [task_managers set_task_managers set_sockets].
  destruct (decide (id' = id)) as [->|Hne].
  - rewrite lookup_insert_eq. intros [= <-].
    eapply chan_inv_write; [|exact Hrun]. by apply (Ht id).
  - rewrite lookup_insert_ne by done. apply Ht.
Qed.

Lemma write_json_effect j p :
  chans_ok p →
  ∃ p', Server.write_json j p = (Ok tt, p') ∧
    chans_ok p' ∧
    _history (updates_manager p') =
      _history (updates_manager p) ++ [Server.json_dumps_utf8 j] ∧
    _is_closed (updates_manager p') = _is_closed (updates_manager p) ∧
    task_managers p' = task_managers p ∧
    clock p' = clock p ∧
    task_results p' = task_results p ∧ done_event p' = done_event p.
Proof.
  intros Hok.
  destruct (write_json_history j p (proj1 Hok)) as (p' & Hrun & Hh & Htm & Hclock).
  destruct (traffic_write_json j p Hok) as (p1 & Hrun1 & (Hok1 & Hr & Hd & Hc & _) & _).
  rewrite Hrun in Hrun1. injection Hrun1 as <-.
  exists p'. by split_and!.
Qed.

Lemma log_effect id s p :
  chans_ok p →
  ∃ p', Server.log id s p = (Ok tt, p') ∧
    chans_ok p' ∧
    _history (updates_manager p') = _history (updates_manager p) ++ [log_update id s] ∧
    _is_closed (updates_manager p') = _is_closed (updates_manager p) ∧
    task_managers p' = task_managers p ∧
    clock p' = clock p ∧
    task_results p' = task_results p ∧ done_event p' = done_event p.
Proof. apply write_json_effect. Qed.

(** The loop over the actions of a behaviour, in served mode. *)
Lemma served_actions_effect id id' (acts : list action) p m :
  chans_ok p → task_managers p !! id = Some m →
  ∃ p' m',
    for_each (λ a, match a with
                   | Write b => Server.on_task_manager id (write b)
                   | Log s => Server.log id' s
                   | Elapse d => modify (λ p, set_clock (clock p + d) p)
                   end) acts p = (Ok tt, p') ∧
    chans_ok p' ∧
    _history (updates_manager p') =
      _history (updates_manager p) ++ (log_update id' <$> logged acts) ∧
    _is_closed (updates_manager p') = _is_closed (updates_manager p) ∧
    task_managers p' = <[id := m']> (task_managers p) ∧
    _history m' = _history m ++ written acts ∧
    _is_closed m' = _is_closed m ∧
    clock p' = clock p + elapsed acts ∧
    task_results p' = task_results p ∧ done_event p' = done_event p.
Proof.
  revert p m. induction acts as [|a acts IH]; intros p m Hok Hm.
  - exists p, m. split; [done|]. unfold logged, written, elapsed. cbn.
    rewrite !app_nil_r, insert_id by done. split_and!; try done; lia.
  - cbn [for_each]. unfold bind at 1. destruct a as [b|s|d].
    + destruct (task_write_effect id b p m Hok Hm)
        as (p1 & m1 & -> & Hok1 & Htm1 & Hh1 & Hc1 & Hu1 & Hcl1 & _ & Hr1 & Hd1).
      destruct (IH p1 m1 Hok1)
        as (p2 & m2 & Hrun & ? & Hhu & Hcu & Htm2 & Hh2 & Hc2 & Hcl2 & ? & ?).
      { rewrite Htm1. apply lookup_insert_eq. }
      exists p2, m2. split; [done|].
      split_and!;
        lazymatch goal with
        | |- task_managers _ = _ => rewrite Htm2, Htm1; apply insert_insert_eq
        | |- _history m2 = _ =>
            rewrite Hh2, Hh1; unfold written; cbn; by rewrite <- app_assoc
        | |- _history (updates_manager _) = _ => rewrite Hhu, Hu1; done
        | |- clock _ = _ => rewrite Hcl2, Hcl1; unfold elapsed; cbn; lia
        | _ => congruence
        end.
    + destruct (log_effect id' s p Hok)
        as (p1 & -> & Hok1 & Hh1 & Hc1 & Htm1 & Hcl1 & Hr1 & Hd1).
      destruct (IH p1 m Hok1)
        as (p2 & m2 & Hrun & ? & Hhu & Hcu & Htm2 & Hh2 & Hc2 & Hcl2 & ? & ?).
      { by rewrite Htm1. }
      exists p2, m2. split; [done|].
      split_and!;
        lazymatch goal with
        | |- _history (updates_manager _) = _ =>
            rewrite Hhu, Hh1; unfold logged; cbn; by rewrite <- app_assoc
        | |- _history m2 = _ => rewrite Hh2; unfold written; cbn; done
        | |- clock _ = _ => rewrite Hcl2, Hcl1; unfold elapsed; cbn; lia
        | _ => congruence
        end.
    + cbn [modify].
      destruct (IH (set_clock (clock p + d) p) m)
        as (p2 & m2 & Hrun & ? & Hhu & Hcu & Htm2 & Hh2 & Hc2 & Hcl2 & ? & ?);
        [done|done|].
      exists p2, m2. split; [done|].
      split_and!;
        lazymatch goal with
        | |- clock _ = _ => rewrite Hcl2; unfold elapsed; cbn; lia
        | _ => done
        end.
Qed.
Lemma run_and_judge_after_actions (rnnr : BenchmarkRunner) lt cmd
    (write : bytes → M Proc unit) (log : string → M Proc unit) p p1 :
  for_each (λ a, match a with
                 | Write b => write b
                 | Log s => log s
                 | Elapse d => modify (λ p, set_clock (clock p + d) p)
                 end) (actions (run rnnr lt cmd)) p = (Ok tt, p1) →
  run_and_judge rnnr lt cmd write log p = (judged lt (run rnnr lt cmd), p1).
Proof.
  intros Hacts. unfold run_and_judge, runner_run, judged.
  unfold bind at 1. unfold bind at 1. rewrite Hacts.
  destruct (outcome (run rnnr lt cmd)) as [ms|e]; [|done].
  unfold ret at 1. unfold bind. by destruct (to_result_status lt ms).
Qed.

(** [run_task] of the served mode never raises.  It returns a
    result with the task's id and prompt and the command, the time of
    entry and the time of exit, and either the messages of the runner
    with the status of the judge, or no messages and status error when
    the runner or the judge raised.  Meanwhile the updates channel has
    been written one log update for each line the runner logged, in
    order, then one with the trace of the failure if there was one; the
    task's own channel has been written the runner's chunks, in order;
    and the recorded results and [done_event] are untouched. *)
Lemma served_run_task_post cmd rnnr lt zs id p m :
  chans_ok p → task_managers p !! zs_id zs = Some m →
  ∃ r p' m',
    Server.run_task cmd rnnr lt zs (Server.log id) p = (Ok r, p') ∧
    task_id r = zs_id zs ∧ prompt r = zs_prompt zs ∧ command r = cmd ∧
    start r = clock p ∧ end_ r = clock p + elapsed (actions (run rnnr lt cmd)) ∧
    (messages r, status r) =
      match judged lt (run rnnr lt cmd) with
      | Ok x => x
      | Raise _ => ([], "error")
      end ∧
    _history (updates_manager p') =
      _history (updates_manager p) ++
      (log_update id <$> logged (actions (run rnnr lt cmd))) ++
      match judged lt (run rnnr lt cmd) with
      | Ok _ => []
      | Raise e => [log_update id (format_exc e)]
      end ∧
    chans_ok p' ∧
    task_managers p' = <[zs_id zs := m']> (task_managers p) ∧
    _history m' = _history m ++ written (actions (run rnnr lt cmd)) ∧
    _is_closed m' = _is_closed m ∧
    task_results p' = task_results p ∧ done_event p' = done_event p.
Proof.
  intros Hok Hm.
  destruct (served_actions_effect (zs_id zs) id (actions (run rnnr lt cmd)) p m Hok Hm)
    as (p1 & m1 & Hacts & Hok1 & Hhu & Hcu & Htm & Hh & Hc & Hcl & Hr & Hd).
  pose proof (run_and_judge_after_actions rnnr lt cmd
                (λ b, Server.on_task_manager (zs_id zs) (write b)) (Server.log id)
                p p1 Hacts) as Hrj.
  destruct (judged lt (run rnnr lt cmd)) as [[ms st]|e] eqn:Hj.
  - eexists _, p1, m1. split; [by apply server_run_task_returns|].
    cbn [task_id prompt command start end_ messages status].
    rewrite app_nil_r. by split_and!.
  - destruct (log_effect id (format_exc e) p1 Hok1)
      as (p2 & Hlog & Hok2 & Hh2 & Hc2 & Htm2 & Hcl2 & Hr2 & Hd2).
    eexists _, p2, m1. split; [by eapply server_run_task_caught|].
    cbn [task_id prompt command start end_ messages status].
    split_and!; try done; try congruence.
    rewrite Hh2, Hhu. by rewrite <- app_assoc.
Qed.

(** The loop over the actions of a behaviour, in headless mode. *)
Lemma headless_actions_effect id (acts : list action) p :
  for_each (λ a, match a with
                 | Write b => DO_NOTHING b
                 | Log s => Headless.log id s
                 | Elapse d => modify (λ p, set_clock (clock p + d) p)
                 end) acts p =
  (Ok tt,
   set_clock (clock p + elapsed acts)
     (set_debug_log
        (debug_log p ++ (log_record id <$> logged acts)) p)).
Proof.
  revert p. induction acts as [|a acts IH]; intros p.
  - unfold elapsed, logged, set_clock, set_debug_log. cbn.
    rewrite app_nil_r, Nat.add_0_r. by destruct p.
  - cbn [for_each]. unfold bind.
    destruct a as [b|s|d]; cbn [DO_NOTHING Headless.log logger_debug modify ret];
      rewrite IH; destruct p; unfold set_clock, set_debug_log, elapsed, logged; cbn;
      f_equal; f_equal; first [done | lia | by rewrite <- app_assoc].
Qed.

(** [run_task] of the headless mode never raises and touches
    nothing but the clock and the debug log.  Its result is as in
    served mode; the debug log gains one record for each line the runner
    logged, in order, then one with the trace of the failure if there
    was one; what the runner writes is discarded. *)
Lemma headless_run_task_post lt cmd rnnr id p :
  ∃ r,
    Headless.run_task lt cmd rnnr (Headless.log id) p =
    (Ok r,
     set_clock (clock p + elapsed (actions (run rnnr lt cmd)))
       (set_debug_log
          (debug_log p ++
           (log_record id <$>
            (logged (actions (run rnnr lt cmd)) ++
             match judged lt (run rnnr lt cmd) with
             | Ok _ => []
             | Raise e => [format_exc e]
             end))) p)) ∧
    task_id r = zs_id (to_zero_shot lt) ∧
    prompt r = zs_prompt (to_zero_shot lt) ∧ command r = cmd ∧
    start r = clock p ∧ end_ r = clock p + elapsed (actions (run rnnr lt cmd)) ∧
    (messages r, status r) =
      match judged lt (run rnnr lt cmd) with
      | Ok x => x
      | Raise _ => ([], "error")
      end.
Proof.
  pose proof (run_and_judge_after_actions rnnr lt cmd DO_NOTHING (Headless.log id)
                p _ (headless_actions_effect id (actions (run rnnr lt cmd)) p)) as Hrj.
  destruct (judged lt (run rnnr lt cmd)) as [[ms st]|e] eqn:Hj.
  - eexists. split.
    + rewrite (headless_run_task_returns _ _ _ _ _ _ _ _ Hrj). by rewrite app_nil_r.
    + by split_and!.
  - eexists. split.
    + erewrite headless_run_task_caught; [|exact Hrj|reflexivity].
      f_equal. rewrite fmap_app. cbn. rewrite app_assoc. by destruct p.
    + by split_and!.
Qed.

Lemma task_close_effect id p m :
  chans_ok p → task_managers p !! id = Some m →
  ∃ p' m', Server.on_task_manager id close p = (Ok tt, p') ∧
    chans_ok p' ∧
    task_managers p' = <[id := m']> (task_managers p) ∧
    _history m' = _history m ∧ _is_closed m' = true ∧ _websockets m' = ∅ ∧
    _disconnect_events m' = _disconnect_events m ∧
    inbox (sockets p') = inbox (sockets p) ∧
    (∀ e, is_set (sockets p') e = true ↔
          is_set (sockets p) e = true ∨
          ∃ ws, ws ∈ _websockets m ∧ _disconnect_events m !! ws = Some e) ∧
    updates_manager p' = updates_manager p ∧
    clock p' = clock p ∧
    task_results p' = task_results p ∧ done_event p' = done_event p.
Proof.
  intros [Hu Ht] Hm. unfold Server.on_task_manager. rewrite Hm.
  destruct (close_post (Build_World m (sockets p)) (Ht _ _ Hm))
    as (w' & Hrun & Hh & Hc & Hs & Hd & Hi & _ & He).
  rewrite Hrun. eexists _, (self w'). split; [done|]. split_and!; try done.
  split; [done|]. intros id' m'. cbn [task_managers set_task_managers set_sockets].
  destruct (decide (id' = id)) as [->|Hne].
  - rewrite lookup_insert_eq. intros [= <-].
    eapply chan_inv_close; [|exact Hrun]. by apply (Ht id).
  - rewrite lookup_insert_ne by done. apply Ht.
Qed.

(** X9.  One task of the served mode, from its start callback to the end
    of its completion callback, with no other thread in between: the
    wrapped function returns the result of [run_task] and never raises.
    The updates channel has been written, in this order, the started
    update, one log update for each line the runner logged, one with the
    trace if the runner or the judge raised, and the done update with
    the status of the result.  The task's own channel has been written
    the runner's chunks, in order, and is closed with no subscriber
    left.  The result is the last of the recorded results, and
    [done_event] is set if it was set or as many results as [n_tasks]
    are now recorded. *)
Theorem served_task_publishes_in_order cmd rnnr n_tasks lt p m :
  chans_ok p → task_managers p !! Server.id_of lt = Some m →
  ∃ r p' m',
    Server.app cmd rnnr n_tasks lt p = (Ok r, p') ∧
    task_id r = Server.id_of lt ∧
    (messages r, status r) =
      match judged lt (run rnnr lt cmd) with
      | Ok x => x
      | Raise _ => ([], "error")
      end ∧
    _history (updates_manager p') =
      _history (updates_manager p) ++
      [started_update (Server.id_of lt)] ++
      (log_update (Server.id_of lt) <$> logged (actions (run rnnr lt cmd))) ++
      match judged lt (run rnnr lt cmd) with
      | Ok _ => []
      | Raise e => [log_update (Server.id_of lt) (format_exc e)]
      end ++
      [done_update (Server.id_of lt) (status r)] ∧
    task_managers p' = <[Server.id_of lt := m']> (task_managers p) ∧
    _history m' = _history m ++ written (actions (run rnnr lt cmd)) ∧
    _is_closed m' = true ∧ _websockets m' = ∅ ∧
    task_results p' = task_results p ++ [r] ∧
    done_event p' =
      done_event p || bool_decide (n_tasks ≤ S (length (task_results p))).
Proof.
  intros Hok Hm. rewrite served_app_unfolds.
  destruct (write_json_effect
              {| Server.update_task_id := Server.id_of lt;
                 Server.payload := Server.TaskStartedPayload |} p Hok)
    as (p1 & Hstart & Hok1 & Hh1 & _ & Htm1 & _ & Hr1 & Hd1).
  destruct (served_run_task_post cmd rnnr lt (to_zero_shot lt) (Server.id_of lt) p1 m Hok1)
    as (r & p2 & m2 & Hrun & Hid & _ & _ & _ & _ & Hms & Hh2 & Hok2 & Htm2 & Hhm2 & _ & Hr2 & Hd2).
  { by rewrite Htm1. }
  destruct (write_json_effect
              {| Server.update_task_id := Server.id_of lt;
                 Server.payload := Server.TaskDonePayload (status r) |} p2 Hok2)
    as (p3 & Hdone & Hok3 & Hh3 & _ & Htm3 & _ & Hr3 & Hd3).
  destruct (task_close_effect (Server.id_of lt)
              (set_task_results (task_results p3 ++ [r]) p3) m2)
    as (p5 & m5 & Hclose & Hok5 & Htm5 & Hhm5 & Hc5 & Hs5 & _ & _ & _ & Hu5 & _ & Hr5 & Hd5).
  { done. }
  { cbn [task_managers set_task_results]. rewrite Htm3, Htm2. apply lookup_insert_eq. }
  unfold bind. fold (Server.id_of lt).
  unfold Server.start. rewrite Hstart. rewrite Hrun.
  unfold Server.done_announce. rewrite Hdone.
  unfold Server.done_record, modify. cbv beta iota.
  unfold Server.done_close. rewrite Hclose.
  assert (Hsignal : ∃ p6, Server.done_signal n_tasks p5 = (Ok tt, p6) ∧
            done_event p6 = done_event p5 || bool_decide (n_tasks ≤ length (task_results p5)) ∧
            updates_manager p6 = updates_manager p5 ∧
            task_managers p6 = task_managers p5 ∧
            task_results p6 = task_results p5).
  { unfold Server.done_signal, bind, gets. cbv beta iota. case_decide as Hn.
    - eexists. split; [done|]. rewrite bool_decide_true by done.
      by rewrite orb_true_r.
    - eexists. split; [done|]. rewrite bool_decide_false by done.
      by rewrite orb_false_r. }
  destruct Hsignal as (p6 & -> & Hd6 & Hu6 & Htm6 & Hr6).
  exists r, p6, m5. unfold ret. split; [done|].
  cbn [task_results set_task_results done_event updates_manager] in *.
  split_and!;
    lazymatch goal with
    | |- _history (updates_manager _) = _ =>
        rewrite Hu6, Hu5; cbn [updates_manager set_task_results];
        rewrite Hh3, Hh2, Hh1; unfold started_update, done_update;
        by rewrite <- !app_assoc
    | |- task_managers _ = _ =>
        rewrite Htm6, Htm5; cbn [task_managers set_task_results];
        rewrite Htm3, Htm2, Htm1; apply insert_insert_eq
    | |- task_results _ = _ => rewrite Hr6, Hr5; cbn; congruence
    | |- done_event _ = _ =>
        rewrite Hd6, Hr5, Hd5; cbn; rewrite Hd3, Hd2, Hd1, Hr3, Hr2, Hr1;
        rewrite length_app; cbn; by rewrite Nat.add_1_r
    | |- _history m5 = _ => congruence
    | _ => done
    end.
Qed.

(** X10.  One task of the headless mode, from its start callback to the end
    of its completion callback: the wrapped function never raises, and
    it touches nothing but the clock and the debug log.  Its result has
    the task's id and prompt, the command, the time of entry and of exit,
    and the messages and status as in served mode.  The debug log gains,
    in this order, the RUNNING record, one record for each line the
    runner logged, one with the trace if the runner or the judge raised,
    and the record of the status; what the runner writes is discarded. *)
Theorem headless_task_logs_in_order cmd rnnr lt p :
  ∃ r,
    Headless.app cmd rnnr lt p =
    (Ok r,
     set_clock (clock p + elapsed (actions (run rnnr lt cmd)))
       (set_debug_log
          (debug_log p ++
           [("  task " ++ Server.id_of lt ++ ": RUNNING...")%string] ++
           (log_record (Server.id_of lt) <$>
            (logged (actions (run rnnr lt cmd)) ++
             match judged lt (run rnnr lt cmd) with
             | Ok _ => []
             | Raise e => [format_exc e]
             end)) ++
           [("  task " ++ Server.id_of lt ++ ": " ++ status r ++ "!")%string]) p)) ∧
    task_id r = Server.id_of lt ∧
    prompt r = zs_prompt (to_zero_shot lt) ∧ command r = cmd ∧
    start r = clock p ∧ end_ r = clock p + elapsed (actions (run rnnr lt cmd)) ∧
    (messages r, status r) =
      match judged lt (run rnnr lt cmd) with
      | Ok x => x
      | Raise _ => ([], "error")
      end.
Proof.
  set (p1 := set_debug_log
               (debug_log p ++ [("  task " ++ Server.id_of lt ++ ": RUNNING...")%string]) p).
  destruct (headless_run_task_post lt cmd rnnr (Server.id_of lt) p1)
    as (r & Hrun & Hid & Hpr & Hcmd & Hst & Hend & Hms).
  exists r. split; [|by split_and!].
  unfold Headless.app, Lifecycle.wrap, Headless.lifecycle.
  cbn [Lifecycle._start_fns Lifecycle._done_fns Lifecycle.add_done_fn
       Lifecycle.add_start_fn Lifecycle.init].
  rewrite !app_nil_l. cbn [for_each]. unfold bind, ret.
  unfold Headless.start, logger_debug, modify. cbv beta iota.
  fold (Server.id_of lt). fold p1. rewrite Hrun.
  unfold Headless.done, logger_debug, modify. cbv beta iota. rewrite Hid.
  f_equal. destruct p. unfold p1, set_clock, set_debug_log. cbn.
  f_equal. by rewrite <- !app_assoc.
Qed.

(** X11.  When the runner or the judge raised and the log callback raises
    in turn while the handler reports the failure, [messages] and
    [status] are never bound: the [return] of the [finally] clause
    replaces both exceptions by an [UnboundLocalError], and no result
    is produced. *)
Theorem run_task_failing_log_raises_unbound_local lt zs cmd rnnr
    (log : string → M Proc unit) e e' p p1 p2 :
  (run_and_judge rnnr lt cmd DO_NOTHING log p = (Raise e, p1) →
   log (format_exc e) p1 = (Raise e', p2) →
   Headless.run_task lt cmd rnnr log p = (Raise (UnboundLocalError "messages"), p2)) ∧
  (run_and_judge rnnr lt cmd
     (λ b, Server.on_task_manager (zs_id zs) (write b)) log p = (Raise e, p1) →
   log (format_exc e) p1 = (Raise e', p2) →
   Server.run_task cmd rnnr lt zs log p = (Raise (UnboundLocalError "messages"), p2)).
Proof.
  split; intros Hrun Hlog.
  - unfold Headless.run_task, datetime_now.
    unfold bind at 1. unfold gets at 1. cbv beta iota.
    unfold bind at 1. unfold try_except at 1. unfold bind at 1. rewrite Hrun.
    cbv beta iota. unfold try_except. unfold bind at 1. rewrite Hlog. reflexivity.
  - unfold Server.run_task, datetime_now.
    unfold bind at 1. unfold gets at 1. cbv beta iota.
    unfold bind at 1. unfold try_except at 1. unfold bind at 1. rewrite Hrun.
    cbv beta iota. unfold try_except. unfold bind at 1. rewrite Hlog. reflexivity.
Qed.
End RunTaskFacts.

(** ** The pools *)

Section PoolFacts.
Import Channel Frame ServerInv.

Lemma length_omap_le {A B} (f : A → option B) (l : list A) :
  length (omap f l) ≤ length l.
Proof.
  induction l as [|x l IH]; [done|]. cbn [omap list_omap].
  destruct (f x); cbn [length]; lia.
Qed.

(** X12.  In every state the served coordinator can reach, whatever the
    observers do: there are never more recorded results than tasks,
    every recorded result carries the id of a submitted task, and
    [done_event] is set only when every task has its result recorded. *)
Theorem served_results_stay_within_tasks all_tasks cmd rnnr n_threads p0 c :
  rtc (Server.step all_tasks cmd rnnr n_threads) (Server.submitted all_tasks p0) c →
  length (task_results (Server.proc c)) ≤ length all_tasks ∧
  (∀ r, r ∈ task_results (Server.proc c) →
     ∃ lt, lt ∈ all_tasks ∧ task_id r = Server.id_of lt) ∧
  (done_event (Server.proc c) = true →
     length (task_results (Server.proc c)) = length all_tasks).
Proof.
  intros Hreach.
  pose proof (inv_reachable all_tasks cmd rnnr n_threads p0 c Hreach)
    as (_ & _ & _ & Hlen & Hperm & Hres & _ & Hdone & _).
  assert (Hle : length (task_results (Server.proc c)) ≤ length all_tasks).
  { rewrite Hperm, <- Hlen. apply length_omap_le. }
  split_and!; [done| |intros Hd; specialize (Hdone Hd); lia].
  intros r Hr. rewrite Hperm in Hr.
  apply list_elem_of_omap in Hr as (w & Hin & Hrec).
  apply list_elem_of_lookup in Hin as [i Hi].
  destruct (all_tasks !! i) as [lt|] eqn:Hlt.
  2: { apply lookup_ge_None in Hlt. apply lookup_lt_Some in Hi. lia. }
  exists lt. split; [by eapply list_elem_of_lookup_2|].
  apply (Hres i w r lt Hi); [|done]. by destruct w.
Qed.

(** X13.  In every state the served coordinator can reach, no pool thread
    has been ended by an exception: neither the start callback, nor
    [run_task], nor any statement of the completion callback raises, so
    [f.result()] never re-raises in the main thread. *)
Theorem served_workers_never_fail all_tasks cmd rnnr n_threads p0 c :
  rtc (Server.step all_tasks cmd rnnr n_threads) (Server.submitted all_tasks p0) c →
  ∀ i e, Server.workers c !! i ≠ Some (Server.Failed e).
Proof.
  intros Hreach i e Hi.
  pose proof (inv_reachable all_tasks cmd rnnr n_threads p0 c Hreach)
    as (_ & _ & _ & _ & _ & _ & Hnf & _).
  rewrite Forall_lookup in Hnf. by specialize (Hnf i _ Hi).
Qed.

(** X14.  The headless coordinator on a pool of at least one thread, in
    every state it can reach: the main thread has not been ended by an
    exception of a task; if it has returned, what it returned holds
    one result for each submitted task; and if it has not, it can go on
    to return. *)
Theorem headless_run_returns_every_result all_tasks cmd rnnr n_threads p0 c :
  0 < n_threads →
  rtc (Headless.step all_tasks cmd rnnr n_threads)
      (Headless.submitted all_tasks n_threads p0) c →
  (∀ e, Headless.main c ≠ Headless.Raised e) ∧
  (∀ rs, Headless.main c = Headless.Returned rs →
     length rs = length all_tasks ∧
     task_id <$> rs ≡ₚ Server.id_of <$> all_tasks) ∧
  ∃ c' rs, rtc (Headless.step all_tasks cmd rnnr n_threads) c c' ∧
           Headless.main c' = Headless.Returned rs.
Proof.
  intros Hn Hreach. split_and!.
  - intros e He.
    pose proof (headless_inv_reachable all_tasks cmd rnnr n_threads p0 c Hreach)
      as (_ & _ & _ & _ & Hmain).
    by rewrite He in Hmain.
  - intros rs. by apply (headless_returns_all all_tasks cmd rnnr n_threads p0).
  - by apply (headless_can_return all_tasks cmd rnnr n_threads p0).
Qed.
End PoolFacts.

Section UpdatesOrderFacts.
Import Channel Frame Server ServerInv Effects UpdatesOrder.
Variable all_tasks : list LoadedTask.
Variable cmd : OpenInterpreterCommand.
Variable rnnr : BenchmarkRunner.
Variable n_threads : nat.

Lemma published_grows lt w h x : published lt w h → published lt w (h ++ x).
Proof.
  intros [Hs Hd]. split.
  - intros Hw. by apply sublist_inserts_r, Hs.
  - intros r Hr. by apply sublist_inserts_r, Hd.
Qed.

Lemma order_proc p p' ws m m' x :
  order_ok all_tasks (Config p ws m) →
  _history (updates_manager p') = _history (updates_manager p) ++ x →
  order_ok all_tasks (Config p' ws m').
Proof.
  intros Hord Hh i lt w Hi Hlt. cbn [proc workers] in *. rewrite Hh.
  by apply published_grows, (Hord i).
Qed.

Lemma order_worker p p' ws m i lt w w' x :
  order_ok all_tasks (Config p ws m) →
  ws !! i = Some w → all_tasks !! i = Some lt →
  _history (updates_manager p') = _history (updates_manager p) ++ x →
  (published lt w (_history (updates_manager p)) →
   published lt w' (_history (updates_manager p) ++ x)) →
  order_ok all_tasks (Config p' (<[i := w']> ws) m).
Proof.
  intros Hord Hi Hlt Hh Hnew j ltj wj Hj Hltj. cbn [proc workers] in *. rewrite Hh.
  destruct (decide (j = i)) as [->|Hne].
  - rewrite list_lookup_insert_eq in Hj by (by eapply lookup_lt_Some).
    injection Hj as <-. rewrite Hlt in Hltj. injection Hltj as <-.
    apply Hnew. by apply (Hord i).
  - rewrite list_lookup_insert_ne in Hj by done.
    by apply published_grows, (Hord j).
Qed.

Lemma on_task_manager_updates {A} id (c : M World A) p r p' :
  on_task_manager id c p = (r, p') → updates_manager p' = updates_manager p.
Proof.
  unfold on_task_manager. destruct (task_managers p !! id); [|by intros [= _ <-]].
  destruct (c _) as [r1 w1]. by intros [= _ <-].
Qed.

Lemma logs_updates sock task_id p r p' :
  logs sock task_id p = (r, p') → updates_manager p' = updates_manager p.
Proof.
  unfold logs, accept, bind, ret.
  destruct (on_task_manager task_id (add sock) p) as [[[]|e] p1] eqn:H1.
  - destruct (on_task_manager task_id (wait_until_disconnect sock) p1) as [r2 p2] eqn:H2.
    apply on_task_manager_updates in H1, H2. intros [= _ <-]. congruence.
  - apply on_task_manager_updates in H1. by intros [= _ <-].
Qed.

Lemma stop_updates task_id p r p' :
  stop task_id p = (r, p') → updates_manager p' = updates_manager p.
Proof.
  unfold stop, bind, ret.
  destruct (on_task_manager task_id close p) as [[[]|e] p1] eqn:H1;
    apply on_task_manager_updates in H1; by intros [= _ <-].
Qed.

Lemma updates_history sock p r p' :
  updates sock p = (r, p') →
  _history (updates_manager p') = _history (updates_manager p).
Proof.
  unfold updates, accept, bind, ret, on_updates.
  destruct (add_post sock (Build_World (updates_manager p) (sockets p)))
    as (w1 & -> & Hh & _). cbn [self] in Hh.
  cbn [updates_manager set_updates_manager set_sockets sockets].
  destruct (_disconnect_events (self w1) !! sock) as [e|] eqn:He.
  - rewrite (wait_present sock e) by done. by intros [= _ <-].
  - rewrite (wait_absent sock) by done. by intros [= _ <-].
Qed.

Lemma order_step c c' :
  inv all_tasks c → order_ok all_tasks c →
  step all_tasks cmd rnnr n_threads c c' → order_ok all_tasks c'.
Proof.
  intros Hinv Hord [Hstep|Hstep].
  - pose proof Hinv as (Hok & Hdom & _).
    destruct Hstep as
      [p p' ws m i lt Hi Hfifo Hact Hlt Hrun
      |p p' ws m i lt e Hi Hfifo Hact Hlt Hrun
      |p p' ws m i lt r Hi Hlt Hrun
      |p p' ws m i lt e Hi Hlt Hrun
      |p p' ws m i lt r Hi Hlt Hrun
      |p p' ws m i lt r e Hi Hlt Hrun
      |p p' ws m i r Hi Hrun
      |p p' ws m i lt r Hi Hlt Hrun
      |p p' ws m i lt r e Hi Hlt Hrun
      |p p' ws m i r Hi Hrun
      |p ws Hd
      |p ws Hall
      |p ws Hex
      |p p' ws Hrun
      |p p' ws e Hrun
      |p p' p'' ws Hrun Hlog
      |p p' ws e Hrun
      |p ws
      |p ws m Hm]; cbn [proc workers main] in *.
    + (* start *)
      destruct (write_json_effect
                  {| update_task_id := id_of lt; payload := TaskStartedPayload |} p Hok)
        as (p1 & Hrun1 & _ & Hh & _).
      unfold start in Hrun. rewrite Hrun in Hrun1. injection Hrun1 as <-.
      eapply order_worker; [exact Hord|exact Hi|exact Hlt|exact Hh|]. intros _. split.
      * intros _. apply sublist_inserts_l. done.
      * by intros r [=].
    + destruct (write_json_effect
                  {| update_task_id := id_of lt; payload := TaskStartedPayload |} p Hok)
        as (p1 & Hrun1 & _).
      unfold start in Hrun. congruence.
    + (* run_task *)
      destruct (Hdom lt) as [m0 Hm0]; [by eapply list_elem_of_lookup_2|].
      destruct (served_run_task_post cmd rnnr lt (to_zero_shot lt) (id_of lt) p m0 Hok Hm0)
        as (r1 & p1 & m1 & Hrun1 & _ & _ & _ & _ & _ & _ & Hh & _).
      rewrite Hrun in Hrun1. injection Hrun1 as <- <-.
      eapply order_worker; [exact Hord|exact Hi|exact Hlt|exact Hh|]. intros [Hs _]. split.
      * intros _. by apply sublist_inserts_r, Hs.
      * by intros r' [=].
    + destruct (Hdom lt) as [m0 Hm0]; [by eapply list_elem_of_lookup_2|].
      destruct (served_run_task_post cmd rnnr lt (to_zero_shot lt) (id_of lt) p m0 Hok Hm0)
        as (r1 & p1 & m1 & Hrun1 & _).
      congruence.
    + (* the done update *)
      destruct (write_json_effect
                  {| update_task_id := id_of lt; payload := TaskDonePayload (status r) |}
                  p Hok) as (p1 & Hrun1 & _ & Hh & _).
      unfold done_announce in Hrun. rewrite Hrun in Hrun1. injection Hrun1 as <-.
      eapply order_worker; [exact Hord|exact Hi|exact Hlt|exact Hh|]. intros [Hs _]. split.
      * intros _. by apply sublist_inserts_r, Hs.
      * intros r' [= <-].
        apply (sublist_app [started_update (id_of lt)] _
                 [done_update (id_of lt) (status r)]); [by apply Hs|done].
    + destruct (write_json_effect
                  {| update_task_id := id_of lt; payload := TaskDonePayload (status r) |}
                  p Hok) as (p1 & Hrun1 & _).
      unfold done_announce in Hrun. congruence.
    + (* the result is recorded *)
      injection Hrun as <-.
      destruct (all_tasks !! i) as [lt|] eqn:Hlt.
      * eapply (order_worker _ _ _ _ _ lt _ _ []); [exact Hord|exact Hi|exact Hlt|by rewrite app_nil_r|].
        rewrite app_nil_r. intros [Hs Hd]. split; [intros _; by apply Hs|].
        intros r' [= <-]. by apply Hd.
      * intros j ltj wj Hj Hltj. cbn [proc workers] in *.
        destruct (decide (j = i)) as [->|Hne]; [congruence|].
        rewrite list_lookup_insert_ne in Hj by done. by apply (Hord j).
    + (* the task channel is closed *)
      unfold done_close in Hrun. apply on_task_manager_updates in Hrun.
      eapply (order_worker _ _ _ _ _ lt _ _ []); [exact Hord|exact Hi|exact Hlt| |].
      { by rewrite Hrun, app_nil_r. }
      rewrite app_nil_r. intros [Hs Hd]. split; [intros _; by apply Hs|].
      intros r' [= <-]. by apply Hd.
    + unfold done_close in Hrun. apply on_task_manager_updates in Hrun.
      eapply (order_worker _ _ _ _ _ lt _ _ []); [exact Hord|exact Hi|exact Hlt| |].
      { by rewrite Hrun, app_nil_r. }
      intros _. split; [done|]. by intros r' [=].
    + (* the test of the number of results *)
      assert (Hu : updates_manager p' = updates_manager p).
      { unfold done_signal, bind, gets in Hrun. cbv beta iota in Hrun.
        case_decide; by injection Hrun as <-. }
      destruct (all_tasks !! i) as [lt|] eqn:Hlt.
      * eapply (order_worker _ _ _ _ _ lt _ _ []); [exact Hord|exact Hi|exact Hlt| |].
        { by rewrite Hu, app_nil_r. }
        rewrite app_nil_r. intros [Hs Hd]. split; [intros _; by apply Hs|].
        intros r' [= <-]. by apply Hd.
      * intros j ltj wj Hj Hltj. cbn [proc workers] in *.
        destruct (decide (j = i)) as [->|Hne]; [congruence|].
        rewrite list_lookup_insert_ne in Hj by done. rewrite Hu. by apply (Hord j).
    + eapply (order_proc _ _ _ _ _ []); [exact Hord|by rewrite app_nil_r].
    + eapply (order_proc _ _ _ _ _ []); [exact Hord|by rewrite app_nil_r].
    + eapply (order_proc _ _ _ _ _ []); [exact Hord|by rewrite app_nil_r].
    + destruct (close_task_managers_post p Hok) as (p1 & Hrun1 & _ & _ & _ & Hu & _).
      rewrite Hrun in Hrun1. injection Hrun1 as <-.
      eapply (order_proc _ _ _ _ _ []); [exact Hord|]. by rewrite Hu, app_nil_r.
    + destruct (close_task_managers_post p Hok) as (p1 & Hrun1 & _). congruence.
    + unfold on_updates in Hrun.
      destruct (close_post (Build_World (updates_manager p) (sockets p)) (proj1 Hok))
        as (w1 & Hrun1 & Hh & _).
      rewrite Hrun1 in Hrun. injection Hrun as <-. injection Hlog as <-.
      eapply (order_proc _ _ _ _ _ []); [exact Hord|]. cbn. by rewrite Hh, app_nil_r.
    + destruct (close_updates_manager p Hok) as (p1 & Hrun1 & _). congruence.
    + eapply (order_proc _ _ _ _ _ []); [exact Hord|by rewrite app_nil_r].
    + eapply (order_proc _ _ _ _ _ []); [exact Hord|by rewrite app_nil_r].
  - destruct Hstep as
      [p p' ws m task_id r Hrun
      |p p' ws m sock task_id r Hrun
      |p p' ws m task_id r Hrun
      |p p' ws m r Hrun
      |p p' ws m sock r Hrun
      |p ws m sock
      |p ws m d]; cbn [proc] in *.
    + apply view_pure in Hrun as ->. done.
    + apply logs_updates in Hrun.
      eapply (order_proc _ _ _ _ _ []); [exact Hord|]. by rewrite Hrun, app_nil_r.
    + apply stop_updates in Hrun.
      eapply (order_proc _ _ _ _ _ []); [exact Hord|]. by rewrite Hrun, app_nil_r.
    + by injection Hrun as _ <-.
    + apply updates_history in Hrun.
      eapply (order_proc _ _ _ _ _ []); [exact Hord|]. by rewrite Hrun, app_nil_r.
    + eapply (order_proc _ _ _ _ _ []); [exact Hord|by rewrite app_nil_r].
    + eapply (order_proc _ _ _ _ _ []); [exact Hord|by rewrite app_nil_r].
Qed.

(** X16.  What the observers of the updates channel see of a task, in
    every state the served coordinator can reach and whatever the other
    threads and the observers do: once the start callback of a task has
    returned, its started update is in the history of the updates
    channel; once its completion callback has written the done update,
    the history holds the started update and, after it, the done update
    with the status of the task's result. *)
Theorem served_updates_are_ordered p0 c i lt w :
  rtc (step all_tasks cmd rnnr n_threads) (submitted all_tasks p0) c →
  workers c !! i = Some w → all_tasks !! i = Some lt →
  (has_started w = true →
     started_update (id_of lt) ∈ _history (updates_manager (proc c))) ∧
  (∀ r, announced w = Some r →
     [started_update (id_of lt); done_update (id_of lt) (status r)]
       `sublist_of` _history (updates_manager (proc c))).
Proof.
  intros Hreach Hi Hlt.
  assert (Hboth : inv all_tasks c ∧ order_ok all_tasks c).
  { clear Hi Hlt. revert c Hreach. apply rtc_ind_r.
    - split; [apply inv_submitted|].
      intros j ltj wj Hj _. unfold submitted in Hj. cbn [workers] in Hj.
      apply lookup_replicate in Hj as [-> _]. split; [done|]. by intros r [=].
    - intros c1 c2 _ Hstep [Hinv Hord].
      split; [by eapply step_inv|by eapply order_step]. }
  destruct Hboth as [_ Hord]. destruct (Hord i lt w Hi Hlt) as [Hs Hd].
  split; [|done]. intros Hw.
  eapply elem_of_sublist; [|by apply Hs]. by apply list_elem_of_singleton.
Qed.
End UpdatesOrderFacts.

(** ** The request handlers *)

Section HandlerFacts.
Import Channel Frame Server.

(** X17.  The handler of [/logs/{task_id}] for the id of a task: it
    attaches the websocket to the task's channel, whether the channel
    is open or closed, replays the channel's whole history to it if its
    connection is alive, and then waits: the websocket's disconnect
    event is new and not set.  The history, the closed flag, the
    recorded results and [done_event] are untouched. *)
Theorem logs_attaches_and_replays sock task_id p m :
  chans_ok p → task_managers p !! task_id = Some m →
  ∃ e p' m',
    logs sock task_id p = (Ok (Suspends e), p') ∧
    task_managers p' = <[task_id := m']> (task_managers p) ∧
    sock ∈ _websockets m' ∧ _disconnect_events m' !! sock = Some e ∧
    is_set (sockets p') e = false ∧
    (sock ∉ dead (sockets p) →
       received (sockets p') sock = received (sockets p) sock ++ _history m) ∧
    _history m' = _history m ∧ _is_closed m' = _is_closed m ∧
    updates_manager p' = updates_manager p ∧
    task_results p' = task_results p ∧ done_event p' = done_event p.
Proof.
  intros Hok Hm.
  destruct (add_post sock (Build_World m (sockets p)))
    as (w1 & Hadd & Hh & Hc & Hs & Hd & _ & Hr & He).
  cbn [self net] in *.
  set (e := fresh (dom (events (sockets p)))) in *.
  assert (Hunset : is_set (net w1) e = false).
  { rewrite He. unfold is_set, e.
    by rewrite (not_elem_of_dom_1 _ _ (is_fresh (dom (events (sockets p))))). }
  exists e. eexists _, (self w1). split.
  - unfold logs, accept, bind, ret, on_task_manager. rewrite Hm, Hadd.
    cbn [task_managers set_task_managers set_sockets sockets].
    rewrite lookup_insert_eq.
    rewrite (wait_present sock e); [|cbn [self]; rewrite Hd; apply lookup_insert_eq].
    cbn [self net]. rewrite Hunset. reflexivity.
  - cbn [task_managers set_task_managers set_sockets sockets updates_manager
         task_results done_event].
    split_and!; try done.
    + rewrite insert_insert_eq. by destruct (self w1).
    + rewrite Hs. set_solver.
    + rewrite Hd. apply lookup_insert_eq.
    + intros Hlive. rewrite Hr. by rewrite decide_True.
Qed.

(** X18.  The handler of [/updates]: it attaches the websocket to the
    updates channel, replays every update written so far to it if its
    connection is alive, and then waits on a new disconnect event that
    is not set.  The task channels, the recorded results and
    [done_event] are untouched. *)
Theorem updates_attaches_and_replays sock p :
  ∃ e p',
    updates sock p = (Ok (Suspends e), p') ∧
    sock ∈ _websockets (updates_manager p') ∧
    _disconnect_events (updates_manager p') !! sock = Some e ∧
    is_set (sockets p') e = false ∧
    (sock ∉ dead (sockets p) →
       received (sockets p') sock =
       received (sockets p) sock ++ _history (updates_manager p)) ∧
    _history (updates_manager p') = _history (updates_manager p) ∧
    _is_closed (updates_manager p') = _is_closed (updates_manager p) ∧
    task_managers p' = task_managers p ∧
    task_results p' = task_results p ∧ done_event p' = done_event p.
Proof.
  destruct (add_post sock (Build_World (updates_manager p) (sockets p)))
    as (w1 & Hadd & Hh & Hc & Hs & Hd & _ & Hr & He).
  cbn [self net] in *.
  set (e := fresh (dom (events (sockets p)))) in *.
  assert (Hunset : is_set (net w1) e = false).
  { rewrite He. unfold is_set, e.
    by rewrite (not_elem_of_dom_1 _ _ (is_fresh (dom (events (sockets p))))). }
  exists e. eexists. split.
  - unfold updates, accept, bind, ret, on_updates. rewrite Hadd.
    cbn [updates_manager set_updates_manager set_sockets sockets].
    rewrite (wait_present sock e); [|cbn [self]; rewrite Hd; apply lookup_insert_eq].
    cbn [self net]. rewrite Hunset. reflexivity.
  - cbn [task_managers set_updates_manager set_sockets sockets updates_manager
         task_results done_event].
    split_and!; try done.
    + rewrite Hs. set_solver.
    + rewrite Hd. apply lookup_insert_eq.
    + intros Hlive. rewrite Hr. by rewrite decide_True.
Qed.
(** X19.  The handler of [/stop/{task_id}] for the id of a task closes
    that task's channel and nothing else: the events of the websockets
    attached to it are set and its subscriber set is emptied, while its
    history, the other task channels, the updates channel, the inboxes,
    the recorded results and [done_event] are untouched.  It does not
    stop the task: a chunk the runner writes afterwards is still
    appended to the history of the closed channel. *)
Theorem stop_closes_one_channel task_id p m :
  chans_ok p → task_managers p !! task_id = Some m →
  ∃ p' m',
    stop task_id p = (Ok true, p') ∧
    task_managers p' = <[task_id := m']> (task_managers p) ∧
    _is_closed m' = true ∧ _websockets m' = ∅ ∧ _history m' = _history m ∧
    (∀ ws e, ws ∈ _websockets m → _disconnect_events m !! ws = Some e →
       is_set (sockets p') e = true) ∧
    inbox (sockets p') = inbox (sockets p) ∧
    updates_manager p' = updates_manager p ∧
    task_results p' = task_results p ∧ done_event p' = done_event p ∧
    ∀ b, ∃ p'' m'',
      on_task_manager task_id (write b) p' = (Ok tt, p'') ∧
      task_managers p'' !! task_id = Some m'' ∧
      _history m'' = _history m ++ [b].
Proof.
  intros Hok Hm.
  destruct (task_close_effect task_id p m Hok Hm)
    as (p' & m' & Hclose & Hok' & Htm & Hh & Hc & Hs & _ & Hi & He & Hu & _ & Hr & Hd).
  exists p', m'. split.
  { unfold stop. by rewrite (bind_ok _ _ _ _ _ Hclose). }
  split_and!; try done.
  - intros ws e Hin Hev. apply He. right. by exists ws.
  - intros b.
    destruct (task_write_effect task_id b p' m' Hok')
      as (p'' & m'' & Hw & _ & Htm'' & Hh'' & _); [by rewrite Htm, lookup_insert_eq|].
    exists p'', m''. split; [done|]. split.
    + rewrite Htm''. apply lookup_insert_eq.
    + by rewrite Hh'', Hh.
Qed.

Lemma zs_map_last l1 lt l2 :
  (∀ lt', lt' ∈ l2 → id_of lt' ≠ id_of lt) →
  zs_map (l1 ++ lt :: l2) !! id_of lt = Some (to_zero_shot lt).
Proof.
  intros Hlast. unfold zs_map. rewrite foldl_app. cbn [foldl].
  rewrite zs_map_acc.
  - apply lookup_insert_eq.
  - intros (lt' & Heq & Hin)%list_elem_of_fmap. by apply (Hlast lt').
Qed.

(** X20.  The handler of [/view/{task_id}] for the id of a task changes
    nothing and answers with the log page of that id and the prompt of
    the last task of the batch that has the id: when several tasks
    share an id, [zs_map] keeps the last one. *)
Theorem view_shows_last_task_with_id all_tasks cmd l1 lt l2 p :
  all_tasks = l1 ++ lt :: l2 →
  (∀ lt', lt' ∈ l2 → id_of lt' ≠ id_of lt) →
  view all_tasks cmd (id_of lt) p =
  (Ok (TemplateResponse "logs.html.j2"
         [("task_id", id_of lt); ("prompt", zs_prompt (to_zero_shot lt))] cmd), p).
Proof.
  intros -> Hlast. unfold view. by rewrite zs_map_last.
Qed.
End HandlerFacts.

(** ** Commands and pool sizes *)

Section MiscFacts.

(** X21.  The extra instructions of the benchmark are appended to the
    command's [custom_instructions] after a line break, and only when
    both are there: the command never gains or loses a key, no other key
    changes, and a command without the key is left as it is.  As the
    command is updated in place, a second run with the same command
    appends the extra instructions a second time. *)
Theorem custom_instructions_only_extend (extra_ci : option string)
    (cmd : OpenInterpreterCommand) :
  dom (add_custom_instructions extra_ci cmd) = dom cmd ∧
  (∀ k, k ≠ "custom_instructions" → add_custom_instructions extra_ci cmd !! k = cmd !! k) ∧
  (cmd !! "custom_instructions" = None → add_custom_instructions extra_ci cmd = cmd) ∧
  add_custom_instructions None cmd = cmd ∧
  (∀ extra ci, extra_ci = Some extra → cmd !! "custom_instructions" = Some ci →
     add_custom_instructions extra_ci cmd !! "custom_instructions" =
       Some (ci ++ String (Ascii.ascii_of_nat 10) extra)%string ∧
     add_custom_instructions extra_ci (add_custom_instructions extra_ci cmd)
       !! "custom_instructions" =
       Some ((ci ++ String (Ascii.ascii_of_nat 10) extra) ++
             String (Ascii.ascii_of_nat 10) extra)%string).
Proof.
  unfold add_custom_instructions, OpenInterpreterCommand in *. split_and!.
  - destruct extra_ci as [extra|]; [|done].
    destruct (cmd !! "custom_instructions") as [ci|] eqn:Hci; [|done].
    cbv beta iota. by apply dom_insert_lookup_L.
  - intros k Hk. destruct extra_ci as [extra|]; [|done].
    destruct (cmd !! "custom_instructions"); [|done]. cbv beta iota.
    by rewrite lookup_insert_ne.
  - intros ->. by destruct extra_ci.
  - done.
  - intros extra ci -> Hci. rewrite Hci. cbv beta iota.
    split; [apply lookup_insert_eq|].
    rewrite lookup_insert_eq. cbv beta iota. apply lookup_insert_eq.
Qed.

Import PoolSize.

(** X22.  The number of threads each coordinator asks for.  A positive
    number is used as it is by both.  For 0 the two coordinators differ:
    the headless one falls back on the number of processors, the served
    one passes 0 on and the pool refuses it with [ValueError].  A
    negative number is refused in both. *)
Theorem pool_size_of_each_coordinator (default_workers : nat) (n cpu : Z) :
  ((0 < n)%Z →
     headless_pool default_workers (Some n) (Some cpu) = Ok (Z.to_nat n) ∧
     served_pool default_workers (Some n) = Ok (Z.to_nat n)) ∧
  ((0 < cpu)%Z →
     headless_pool default_workers (Some 0%Z) (Some cpu) = Ok (Z.to_nat cpu) ∧
     headless_pool default_workers None (Some cpu) = Ok (Z.to_nat cpu)) ∧
  served_pool default_workers (Some 0%Z) =
    Raise (ValueError "max_workers must be greater than 0") ∧
  served_pool default_workers None = Ok default_workers ∧
  headless_pool default_workers None None = Ok default_workers ∧
  ((n < 0)%Z →
     headless_pool default_workers (Some n) (Some cpu) =
       Raise (ValueError "max_workers must be greater than 0") ∧
     served_pool default_workers (Some n) =
       Raise (ValueError "max_workers must be greater than 0")).
Proof.
  unfold headless_pool, served_pool, ThreadPoolExecutor, actual_n_workers.
  split_and!; try done.
  - intros Hn. rewrite (proj2 (Z.eqb_neq n 0)) by lia.
    by rewrite (proj2 (Z.leb_gt n 0)) by lia.
  - intros Hc. cbn. by rewrite (proj2 (Z.leb_gt cpu 0)) by lia.
  - intros Hn. rewrite (proj2 (Z.eqb_neq n 0)) by lia.
    by rewrite (proj2 (Z.leb_le n 0)) by lia.
Qed.

Import ServerWorker.

(** X23.  Settings persist from one command to the next, since every call
    updates the one interpreter of the module: applying a command and
    then a second one gives what the second command merged over the
    first gives in one call.  In particular a command applied twice
    gives what it gives once, and a setting that the second command
    does not name keeps the value the first one gave it.  Only the eight
    keys the function reads matter: two commands that agree on them
    give the same interpreter. *)
Theorem command_settings_compose {V : Type} (cmd1 cmd2 : gmap string V)
    (interpreter : Interpreter V) :
  command_to_interpreter cmd2 (command_to_interpreter cmd1 interpreter) =
    command_to_interpreter (cmd2 ∪ cmd1) interpreter ∧
  command_to_interpreter cmd1 (command_to_interpreter cmd1 interpreter) =
    command_to_interpreter cmd1 interpreter ∧
  command_to_interpreter ∅ interpreter = interpreter ∧
  ((∀ k, k ∈ setting_keys → cmd1 !! k = cmd2 !! k) →
   command_to_interpreter cmd1 interpreter = command_to_interpreter cmd2 interpreter).
Proof.
  assert (Hget : ∀ (c1 c2 : gmap string V) k v,
            get c2 k (get c1 k v) = get (c2 ∪ c1) k v).
  { intros c1 c2 k v. unfold get. rewrite lookup_union.
    by destruct (c2 !! k), (c1 !! k). }
  split_and!.
  - unfold command_to_interpreter. cbn. by rewrite !Hget.
  - assert (Hidem : ∀ k v, get cmd1 k (get cmd1 k v) = get cmd1 k v).
    { intros k v. unfold get. by destruct (cmd1 !! k). }
    unfold command_to_interpreter. cbn. by rewrite !Hidem.
  - by destruct interpreter.
  - intros Hagree. unfold command_to_interpreter, get.
    rewrite !Hagree by (unfold setting_keys; set_solver). done.
Qed.
End MiscFacts.

(** ** Examples of the further properties *)

Section ChannelSafetyExamples.
Import Channel Locking.

Lemma one_dead_subscriber_inv : chan_inv (self ChannelExamples.one_dead_subscriber).
Proof. apply (bool_decide_unpack _). vm_compute. exact I. Qed.

Lemma start_inv : chan_inv (self (world LockingExamples.start)).
Proof. apply (bool_decide_unpack _). vm_compute. exact I. Qed.

Lemma start_reaches_midway : rtc step LockingExamples.start ExtraExamples.midway.
Proof. apply (run_schedule_sound [1; 1]). by vm_compute. Qed.

Lemma start_reaches_finish : rtc step LockingExamples.start LockingExamples.finish.
Proof. apply (run_schedule_sound LockingExamples.schedule). by vm_compute. Qed.

(** Thread 1 is inside [add(7)], about to replay the history. *)
Lemma channel_statements_never_raise_witness :
  chan_inv (self (world ExtraExamples.midway)) ∧
  ∃ w', exec (Replay 7) (world ExtraExamples.midway) = (Ok tt, w').
Proof.
  destruct (channel_statements_never_raise LockingExamples.start ExtraExamples.midway
              start_inv start_reaches_midway) as [Hinv Hok].
  split; [exact Hinv|].
  apply (Hok 1 (Replay 7) [Release] []). by vm_compute.
Defined.

(** The run of [LockingExamples]: the history [a; b] grows to
    [a; b; c]. *)
Lemma channel_state_only_advances_witness :
  _history (self (world LockingExamples.finish)) = ["a"; "b"; "c"] ∧
  _history (self (world LockingExamples.start))
    `prefix_of` _history (self (world LockingExamples.finish)) ∧
  (_is_closed (self (world LockingExamples.start)) = true →
   _is_closed (self (world LockingExamples.finish)) = true) ∧
  (∀ e, is_set (net (world LockingExamples.start)) e = true →
        is_set (net (world LockingExamples.finish)) e = true).
Proof.
  split; [by vm_compute|].
  exact (channel_state_only_advances LockingExamples.start LockingExamples.finish
           start_inv start_reaches_finish).
Defined.

(** The channel with subscribers 1 and 2. *)
Lemma close_is_idempotent_witness :
  ∃ w', close ChannelExamples.one_dead_subscriber = (Ok tt, w') ∧
        close w' = (Ok tt, w') ∧
        _is_closed (self w') = true ∧ _websockets (self w') = ∅ ∧
        _history (self w') = _history (self ChannelExamples.one_dead_subscriber).
Proof.
  exact (close_is_idempotent ChannelExamples.one_dead_subscriber one_dead_subscriber_inv).
Defined.

(** Websocket 1, attached with event 0 after the writes of [a] and [b],
    is attached again. *)
Lemma add_again_replays_and_orphans_event_witness :
  received (net ChannelExamples.one_dead_subscriber) 1 = ["a"; "b"] ∧
  ∃ w1 e1 w2,
    add 1 ChannelExamples.one_dead_subscriber = (Ok tt, w1) ∧
    close w1 = (Ok tt, w2) ∧
    e1 ≠ 0 ∧
    _disconnect_events (self w1) !! 1 = Some e1 ∧
    (1 ∉ dead (net ChannelExamples.one_dead_subscriber) →
       received (net w1) 1 =
         received (net ChannelExamples.one_dead_subscriber) 1 ++
         _history (self ChannelExamples.one_dead_subscriber)) ∧
    is_set (net w2) e1 = true ∧
    is_set (net w2) 0 = false.
Proof.
  split; [by vm_compute|].
  apply (add_again_replays_and_orphans_event 1 0 ChannelExamples.one_dead_subscriber).
  - exact one_dead_subscriber_inv.
  - by vm_compute.
  - assert (H : map_Forall (λ k v, v = 0 → k = 1)
                  (_disconnect_events (self ChannelExamples.one_dead_subscriber))).
    { apply (bool_decide_unpack _). vm_compute. exact I. }
    intros ws' Hl. by apply (map_Forall_lookup_1 _ _ _ _ H Hl).
  - apply (bool_decide_unpack _). vm_compute. exact I.
  - by vm_compute.
Defined.
End ChannelSafetyExamples.

Section ExtraWitnesses.
Import Channel Frame Server Effects.

Lemma early_state_reachable :
  rtc (step ServerExamples.batch Examples.cmd Examples.runner 2)
    ServerExamples.start (ServerExamples.after ServerExamples.early_moves).
Proof. apply (play_all_sound _ _ _ _ ServerExamples.early_moves). by vm_compute. Qed.

Lemma start_chans_ok : chans_ok (proc ServerExamples.start).
Proof.
  apply (inv_submitted ServerExamples.batch Examples.fresh_proc).
Qed.

Lemma early_chans_ok : chans_ok (proc (ServerExamples.after ServerExamples.early_moves)).
Proof.
  apply (inv_reachable ServerExamples.batch Examples.cmd Examples.runner 2
           Examples.fresh_proc _ early_state_reachable).
Qed.


(** Task B of the scenario, run from start to end in the state in which
    the three tasks have been submitted. *)
Lemma served_task_publishes_in_order_witness :
  ∃ r p',
    app Examples.cmd Examples.runner 3 (Examples.task "B") (proc ServerExamples.start)
      = (Ok r, p') ∧
    task_id r = "B" ∧ task_results p' = [r].
Proof.
  destruct (served_task_publishes_in_order Examples.cmd Examples.runner 3
              (Examples.task "B") (proc ServerExamples.start) init start_chans_ok)
    as (r & p' & m' & Hrun & Hid & _ & _ & _ & _ & _ & _ & Hres & _);
    [by vm_compute|].
  by exists r, p'.
Defined.

(** Task B of the scenario with a log callback that raises. *)
Lemma run_task_failing_log_raises_unbound_local_witness :
  Headless.run_task (Examples.task "B") Examples.cmd Examples.runner
    ExtraExamples.raising_log Examples.fresh_proc =
    (Raise (UnboundLocalError "messages"), Examples.fresh_proc) ∧
  run_task Examples.cmd Examples.runner (Examples.task "B")
    (to_zero_shot (Examples.task "B")) ExtraExamples.raising_log
    (proc ServerExamples.start) =
    (Raise (UnboundLocalError "messages"), proc ServerExamples.start).
Proof.
  split.
  - apply (proj1 (run_task_failing_log_raises_unbound_local (Examples.task "B")
                    (to_zero_shot (Examples.task "B")) Examples.cmd Examples.runner
                    ExtraExamples.raising_log RuntimeError RuntimeError
                    Examples.fresh_proc Examples.fresh_proc Examples.fresh_proc));
      by vm_compute.
  - apply (proj2 (run_task_failing_log_raises_unbound_local (Examples.task "B")
                    (to_zero_shot (Examples.task "B")) Examples.cmd Examples.runner
                    ExtraExamples.raising_log RuntimeError RuntimeError
                    (proc ServerExamples.start) (proc ServerExamples.start)
                    (proc ServerExamples.start)));
      by vm_compute.
Defined.

(** The hooks of the headless mode around a unit of work that raises:
    the RUNNING record is made, the record of the status is not. *)
Lemma wrap_stops_at_first_exception_witness :
  Lifecycle.wrap (Lifecycle.registered Examples.headless_script)
    ExtraExamples.raising_unit tt Examples.fresh_proc =
  (Raise (Exception "boom"),
   set_debug_log ["  task B: RUNNING..."] Examples.fresh_proc).
Proof.
  apply (proj1 (proj2 (wrap_stops_at_first_exception Examples.headless_script
                         ExtraExamples.raising_unit tt Examples.fresh_proc
                         (set_debug_log ["  task B: RUNNING..."] Examples.fresh_proc)
                         (Exception "boom")
                         (set_debug_log ["  task B: RUNNING..."] Examples.fresh_proc)))).
  - eapply Lifecycle.runs_cons; [reflexivity|apply Lifecycle.runs_nil].
  - reflexivity.
Defined.

(** The scenario when task A has closed its channel. *)
Lemma served_results_stay_within_tasks_witness :
  length (task_results (proc (ServerExamples.after ServerExamples.early_moves))) ≤
    length ServerExamples.batch ∧
  (∀ r, r ∈ task_results (proc (ServerExamples.after ServerExamples.early_moves)) →
     ∃ lt, lt ∈ ServerExamples.batch ∧ task_id r = id_of lt) ∧
  (done_event (proc (ServerExamples.after ServerExamples.early_moves)) = true →
     length (task_results (proc (ServerExamples.after ServerExamples.early_moves))) =
     length ServerExamples.batch).
Proof.
  exact (served_results_stay_within_tasks ServerExamples.batch Examples.cmd
           Examples.runner 2 Examples.fresh_proc _ early_state_reachable).
Defined.

(** The scenario run to the end; the unit of work of task B raised,
    and its worker finished with a result. *)
Lemma served_workers_never_fail_witness :
  (∃ r, workers (ServerExamples.after ServerExamples.full_moves) !! 1 =
        Some (Finished r)) ∧
  ¬ ∃ i e, workers (ServerExamples.after ServerExamples.full_moves) !! i =
           Some (Failed e).
Proof.
  split; [eexists; vm_compute; reflexivity|].
  intros (i & e & Hi).
  exact (served_workers_never_fail ServerExamples.batch Examples.cmd
           Examples.runner 2 Examples.fresh_proc _ scenario_reaches_finish i e Hi).
Defined.

(** The scenario's batch on a headless pool of two threads. *)
Lemma headless_run_returns_every_result_witness :
  (∀ e, Headless.main ExtraExamples.headless_start ≠ Headless.Raised e) ∧
  (∀ rs, Headless.main ExtraExamples.headless_start = Headless.Returned rs →
     length rs = length ServerExamples.batch ∧
     task_id <$> rs ≡ₚ id_of <$> ServerExamples.batch) ∧
  ∃ c' rs,
    rtc (Headless.step ServerExamples.batch Examples.cmd Examples.runner 2)
        ExtraExamples.headless_start c' ∧
    Headless.main c' = Headless.Returned rs.
Proof.
  apply (headless_run_returns_every_result ServerExamples.batch Examples.cmd
           Examples.runner 2 Examples.fresh_proc); [lia|apply rtc_refl].
Defined.


(** Websocket 5 attaches to the channel of task A after A has closed
    it: the chunk A wrote is replayed and the handler waits. *)
Lemma logs_attaches_and_replays_witness :
  ∃ e p',
    logs 5 "A" (proc (ServerExamples.after ServerExamples.early_moves))
      = (Ok (Suspends e), p') ∧
    is_set (sockets p') e = false ∧
    received (sockets p') 5 = ["out"] ∧
    _is_closed <$> task_managers p' !! "A" = Some true.
Proof.
  destruct (task_managers (proc (ServerExamples.after ServerExamples.early_moves)) !! "A")
    as [m|] eqn:Hm; [|by vm_compute in Hm].
  destruct (logs_attaches_and_replays 5 "A" _ m early_chans_ok Hm)
    as (e & p' & m' & Hrun & Htm & _ & _ & Hunset & Hrec & _ & Hc & _).
  exists e, p'. split; [exact Hrun|]. split; [exact Hunset|]. split.
  - rewrite Hrec.
    + assert (Hh : _history m = ["out"]).
      { vm_compute in Hm. injection Hm as <-. reflexivity. }
      rewrite Hh. reflexivity.
    + apply (bool_decide_unpack _). by vm_compute.
  - rewrite Htm, lookup_insert_eq. cbn. rewrite Hc.
    vm_compute in Hm. injection Hm as <-. reflexivity.
Defined.

(** The channel of task B is stopped while websocket 5 is attached to
    it. *)
Lemma stop_closes_one_channel_witness :
  ∃ p', stop "B" ExtraExamples.observed = (Ok true, p') ∧
        task_results p' = task_results ExtraExamples.observed ∧
        updates_manager p' = updates_manager ExtraExamples.observed.
Proof.
  assert (Hok : chans_ok ExtraExamples.observed).
  { split.
    - apply (bool_decide_unpack _). by vm_compute.
    - intros id m Hm.
      assert (H : map_Forall (λ _ m, chan_inv m) (task_managers ExtraExamples.observed)).
      { apply (bool_decide_unpack _). by vm_compute. }
      by apply (map_Forall_lookup_1 _ _ _ _ H Hm). }
  destruct (task_managers ExtraExamples.observed !! "B") as [m|] eqn:Hm;
    [|by vm_compute in Hm].
  destruct (stop_closes_one_channel "B" ExtraExamples.observed m Hok Hm)
    as (p' & m' & Hrun & _ & _ & _ & _ & _ & _ & Hu & Hr & _).
  by exists p'.
Defined.

(** Two tasks of the batch have the id A; the page shows the prompt of
    the second. *)
Lemma view_shows_last_task_with_id_witness :
  view ExtraExamples.twins Examples.cmd "A" Examples.fresh_proc =
  (Ok (TemplateResponse "logs.html.j2" [("task_id", "A"); ("prompt", "second")]
         Examples.cmd), Examples.fresh_proc).
Proof.
  apply (view_shows_last_task_with_id ExtraExamples.twins Examples.cmd
           [ExtraExamples.twin "A" "first"; ExtraExamples.twin "B" "other"]
           (ExtraExamples.twin "A" "second") [] Examples.fresh_proc).
  - reflexivity.
  - intros lt' Hin. by apply elem_of_nil in Hin.
Defined.
End ExtraWitnesses.

Section ExtraWitnesses2.
Import Channel Frame Server Effects UpdatesOrder.

(** Thread 1 is inside [add(7)] and holds the lock; thread 0 has not
    entered [write]. *)
Lemma lock_serialises_calls_witness :
  Locking.lock ExtraExamples.midway = Some 1 ∧
  (∀ i t, Locking.threads ExtraExamples.midway !! i = Some t →
     Locking.cur t ≠ [] → Locking.lock ExtraExamples.midway = Some i) ∧
  (∀ i j ti tj,
     Locking.threads ExtraExamples.midway !! i = Some ti →
     Locking.threads ExtraExamples.midway !! j = Some tj →
     Locking.cur ti ≠ [] → Locking.cur tj ≠ [] → i = j) ∧
  (∀ i, Locking.lock ExtraExamples.midway = Some i →
     ∃ t o, Locking.threads ExtraExamples.midway !! i = Some t ∧
            Locking.cur t ≠ [] ∧ Locking.cur t `suffix_of` Locking.body o) ∧
  (Locking.lock ExtraExamples.midway = None →
     Forall (λ t, Locking.cur t = []) (Locking.threads ExtraExamples.midway)).
Proof.
  split; [reflexivity|].
  apply (lock_serialises_calls LockingExamples.start ExtraExamples.midway).
  - reflexivity.
  - repeat constructor.
  - exact start_reaches_midway.
Defined.

(** Task B at the end of the scenario: started, then done with status
    error. *)
Lemma served_updates_are_ordered_witness :
  ∃ r,
    workers (ServerExamples.after ServerExamples.full_moves) !! 1 = Some (Finished r) ∧
    status r = "error" ∧
    [started_update "B"; done_update "B" (status r)] `sublist_of`
      _history (updates_manager (proc (ServerExamples.after ServerExamples.full_moves))).
Proof.
  eexists. split; [vm_compute; reflexivity|]. split; [reflexivity|].
  apply (proj2 (served_updates_are_ordered ServerExamples.batch Examples.cmd
                  Examples.runner 2 Examples.fresh_proc
                  (ServerExamples.after ServerExamples.full_moves) 1
                  (Examples.task "B") (Finished _) scenario_reaches_finish
                  ltac:(vm_compute; reflexivity) eq_refl) _ eq_refl).
Defined.
End ExtraWitnesses2.
